(** * go-snippets: the publish/subscribe broker and the sum benchmark

    A shallow embedding of package [pubsub] (the broker, its coordinating
    routine [run], the four public operations and the delivery goroutines)
    and of [go-sum-benchmark/main.go] (the two sums of squares), with the
    properties the specification states about them.

    The broker is modelled as a transition system.  The state is the broker
    together with the store of subscriber channels and the delivery
    goroutines that are still pending; a step is one atomic action of one
    goroutine (a call of a public operation accepted by [run], [run] taking
    the stop signal, a delivery goroutine taking a branch of its [select], a
    consumer receiving), and a schedule is a list of such actions.  Panics
    are part of the state: nothing in the package recovers from them.

    Further down, the same for the rest of the sum benchmark ([generateData]
    and the calls [main] and the benchmark make) and for
    [parallel_digits/parallel_digits.go], the worker pool that counts the
    digits of a list of words. *)

From Stdlib Require Import ZArith Lia.
From stdpp Require Import base gmap sets list strings sorting.

(** ** The broker *)

Module PubSub.

(** *** Data model *)

(** [Payload interface{}]: an opaque value.  The demo publishes strings. *)
Definition Value := string.

(** [type Message struct { Topic string; Payload interface{} }] *)
Record Message := mkMessage { Topic : string; Payload : Value }.

(** [type Subscriber chan Message]: a channel is a reference; two handles
    alias exactly when they are the same reference. *)
Definition Subscriber := nat.

(** The state of one buffered Go channel of messages: the queued messages
    (oldest first), the capacity given to [make], and whether [close] has
    been called on it. *)
Record Chan := mkChan { buf : list Message; cap : nat; closed : bool }.

(** [make(Subscriber, n)] *)
Definition make_chan (n : nat) : Chan := mkChan [] n false.

(** The buffer size [Subscribe] passes to [make]. *)
Definition subscriberCapacity : nat := 10.

(** [type subRequest struct { topic string; sub Subscriber }] *)
Record subRequest := mksubRequest { sub_topic : string; sub_sub : Subscriber }.

(** [type unsubRequest struct { topic string; sub Subscriber }] *)
Record unsubRequest := mkunsubRequest { unsub_topic : string; unsub_sub : Subscriber }.

(** [type Broker struct].  The four request channels are unbuffered and carry
    no queued data; what the model keeps of each is whether it is closed. *)
Record Broker := mkBroker {
  subscriptions : gmap string (gmap Subscriber bool);
  subCh_closed : bool;
  unsubCh_closed : bool;
  pubCh_closed : bool;
  stopCh_closed : bool
}.

(** The run-time panics the broker code can raise. *)
Inductive Panic :=
| CloseOfClosedChannel
| CloseOfNilChannel
| SendOnClosedChannel.

(** Whether the loop of [run] is still executing. *)
Inductive Status := Running | Stopped.

(** One spawned delivery goroutine [go func(s Subscriber, m Message)] that
    has not yet taken a branch of its [select]. *)
Definition Task : Type := Subscriber * Message.

(** The program state around one broker.
    - [chans] is the store of subscriber channels;
    - [tasks] are the pending delivery goroutines, oldest first;
    - [panicked] is set once some goroutine panics (nothing recovers, so the
      process is over);
    - [closes] records every call [close(sub)] the coordinating routine has
      made, in order (a history variable);
    - [inbox] records every message a consumer has taken out of a handle, in
      order (a history variable). *)
Record World := mkWorld {
  broker : Broker;
  status : Status;
  chans : gmap Subscriber Chan;
  tasks : list Task;
  panicked : option Panic;
  closes : list Subscriber;
  inbox : list (Subscriber * Message)
}.

Definition set_subscriptions (m : gmap string (gmap Subscriber bool)) (w : World) : World :=
  mkWorld (mkBroker m (subCh_closed (broker w)) (unsubCh_closed (broker w))
             (pubCh_closed (broker w)) (stopCh_closed (broker w)))
    (status w) (chans w) (tasks w) (panicked w) (closes w) (inbox w).

Definition set_chans (c : gmap Subscriber Chan) (w : World) : World :=
  mkWorld (broker w) (status w) c (tasks w) (panicked w) (closes w) (inbox w).

Definition set_tasks (t : list Task) (w : World) : World :=
  mkWorld (broker w) (status w) (chans w) t (panicked w) (closes w) (inbox w).

Definition set_panicked (p : Panic) (w : World) : World :=
  mkWorld (broker w) (status w) (chans w) (tasks w) (Some p) (closes w) (inbox w).

Definition log_close (s : Subscriber) (w : World) : World :=
  mkWorld (broker w) (status w) (chans w) (tasks w) (panicked w) (closes w ++ [s]) (inbox w).

Definition log_receive (s : Subscriber) (m : Message) (w : World) : World :=
  mkWorld (broker w) (status w) (chans w) (tasks w) (panicked w) (closes w)
    (inbox w ++ [(s, m)]).

(** [close(b.stopCh)] *)
Definition set_stop_signal (w : World) : World :=
  mkWorld (mkBroker (subscriptions (broker w)) (subCh_closed (broker w))
             (unsubCh_closed (broker w)) (pubCh_closed (broker w)) true)
    (status w) (chans w) (tasks w) (panicked w) (closes w) (inbox w).

(** The deferred function of [run]: [close(b.subCh); close(b.unsubCh);
    close(b.pubCh)], after which the loop is over. *)
Definition run_exit (w : World) : World :=
  mkWorld (mkBroker (subscriptions (broker w)) true true true (stopCh_closed (broker w)))
    Stopped (chans w) (tasks w) (panicked w) (closes w) (inbox w).

(** The handles registered under a topic: the keys of
    [b.subscriptions[topic]] (a missing topic reads as the nil map). *)
Definition topic_subs (w : World) (topic : string) : gmap Subscriber bool :=
  default ∅ (subscriptions (broker w) !! topic).

Definition registered (w : World) (topic : string) : gset Subscriber :=
  dom (topic_subs w topic).

Definition is_registered (w : World) (topic : string) (s : Subscriber) : bool :=
  bool_decide (is_Some (topic_subs w topic !! s)).

(** Whether [close] has been called on the channel behind a handle. *)
Definition is_closed (w : World) (s : Subscriber) : bool :=
  match chans w !! s with
  | Some ch => closed ch
  | None => false
  end.

(** *** [NewBroker] *)

(** A broker as [NewBroker] returns it, with its coordinating routine
    started, in a program whose channel store is [c]. *)
Definition NewBroker (c : gmap Subscriber Chan) : World :=
  mkWorld (mkBroker ∅ false false false false) Running c [] None [] [].

(** *** The coordinating routine [run] *)

(** [close(sub)].  Go panics when the channel is nil (here: a handle with no
    channel in the store) or already closed. *)
Definition close_chan (s : Subscriber) (w : World) : World :=
  let w := log_close s w in
  match chans w !! s with
  | None => set_panicked CloseOfNilChannel w
  | Some ch =>
      if closed ch then set_panicked CloseOfClosedChannel w
      else set_chans (<[s := mkChan (buf ch) (cap ch) true]> (chans w)) w
  end.

(** The [close(sub)] calls of the stop branch, for one iteration order [l]
    of the two nested [range] loops; a panic ends the loops. *)
Fixpoint close_all (l : list Subscriber) (w : World) : World :=
  match l with
  | [] => w
  | s :: l' =>
      let w' := close_chan s w in
      match panicked w' with
      | Some _ => w'
      | None => close_all l' w'
      end
  end.

(** The handles the nested loops visit, one entry per (topic, handle) pair.
    Go leaves the iteration order of a map unspecified; this is the order of
    the map representation, and [handle_stop_with] takes any other. *)
Definition stop_order (w : World) : list Subscriber :=
  map_to_list (subscriptions (broker w)) ≫= (fun '(_, topicSubs) => (map_to_list topicSubs).*1).

(** [case <-b.stopCh:] close every registered channel, then return (the
    deferred function runs). *)
Definition handle_stop_with (l : list Subscriber) (w : World) : World :=
  run_exit (close_all l w).

Definition handle_stop (w : World) : World := handle_stop_with (stop_order w) w.

(** [case req := <-b.subCh:] *)
Definition handle_sub (req : subRequest) (w : World) : World :=
  let subs := subscriptions (broker w) in
  let subs :=
    match subs !! sub_topic req with
    | None => <[sub_topic req := ∅]> subs
    | Some _ => subs
    end in
  let topicSubs := default ∅ (subs !! sub_topic req) in
  set_subscriptions (<[sub_topic req := <[sub_sub req := true]> topicSubs]> subs) w.

(** [case req := <-b.unsubCh:] *)
Definition handle_unsub (req : unsubRequest) (w : World) : World :=
  match subscriptions (broker w) !! unsub_topic req with
  | Some topicSubs =>
      match topicSubs !! unsub_sub req with
      | Some _ =>
          let w := set_subscriptions
                     (<[unsub_topic req := delete (unsub_sub req) topicSubs]>
                        (subscriptions (broker w))) w in
          close_chan (unsub_sub req) w
      | None => w
      end
  | None => w
  end.

(** [case msg := <-b.pubCh:] one goroutine per subscriber of the topic.
    The goroutines are listed in the order of the map representation; Go
    leaves the order of the [range] unspecified, and the goroutines of one
    publish request go to different handles. *)
Definition handle_pub (msg : Message) (w : World) : World :=
  match subscriptions (broker w) !! Topic msg with
  | Some topicSubs =>
      set_tasks (tasks w ++ map (fun s => (s, msg)) (map_to_list topicSubs).*1) w
  | None => w
  end.

(** The communication the [select] of [run] takes in one iteration. *)
Inductive Event :=
| EvStop
| EvSub (req : subRequest)
| EvUnsub (req : unsubRequest)
| EvPub (msg : Message).

Definition handle (e : Event) (w : World) : World :=
  match e with
  | EvStop => handle_stop w
  | EvSub req => handle_sub req w
  | EvUnsub req => handle_unsub req w
  | EvPub msg => handle_pub msg w
  end.

(** What follows a branch of the [select]: the next iteration, or, when the
    branch has panicked, the unwinding of [run], which runs its deferred
    function. *)
Definition after_branch (w : World) : World :=
  match panicked w with
  | Some _ => run_exit w
  | None => w
  end.

(** One iteration of the loop.  Nothing is handled once the loop has
    returned or the process has panicked. *)
Definition run_event (w : World) (e : Event) : World :=
  match status w, panicked w with
  | Running, None => after_branch (handle e w)
  | _, _ => w
  end.

(** The iteration that takes the stop signal, with the loops of its branch
    visiting the handles in the order [l]. *)
Definition run_stop_with (l : list Subscriber) (w : World) : World :=
  match status w, panicked w with
  | Running, None => after_branch (handle_stop_with l w)
  | _, _ => w
  end.

(** [run] on the sequence of communications its [select] takes. *)
Definition run (evs : list Event) (w : World) : World := foldl run_event w evs.

(** *** The public operations *)

(** What a call does to its caller: it returns, it panics, or it never
    gets past its channel operation. *)
Inductive Outcome (A : Type) :=
| Returns (a : A) (w : World)
| Panics (w : World)
| Blocks.
Arguments Returns {A} a w.
Arguments Panics {A} w.
Arguments Blocks {A}.

(** A send [ch <- req] on one of the unbuffered request channels, with the
    coordinating routine as the only receiver: on a closed channel the
    sender panics; otherwise the send completes when [run] takes it in its
    [select], and [run] handles the request in that iteration. *)
Definition send_request (ch_closed : bool) (e : Event) (w : World) : Outcome unit :=
  if ch_closed then Panics (set_panicked SendOnClosedChannel w)
  else match status w with
       | Running => Returns tt (run_event w e)
       | Stopped => Blocks
       end.

(** The reference [make] returns: one no channel of the store has. *)
Definition new_chan (w : World) : Subscriber := fresh (dom (chans w)).

(** [func (b *Broker) Subscribe(topic string) Subscriber] *)
Definition Subscribe (topic : string) (w : World) : Outcome Subscriber :=
  let sub := new_chan w in
  let w := set_chans (<[sub := make_chan subscriberCapacity]> (chans w)) w in
  let req := mksubRequest topic sub in
  match send_request (subCh_closed (broker w)) (EvSub req) w with
  | Returns _ w' => Returns sub w'
  | Panics w' => Panics w'
  | Blocks => Blocks
  end.

(** [func (b *Broker) Unsubscribe(topic string, sub Subscriber)] *)
Definition Unsubscribe (topic : string) (sub : Subscriber) (w : World) : Outcome unit :=
  let req := mkunsubRequest topic sub in
  send_request (unsubCh_closed (broker w)) (EvUnsub req) w.

(** [func (b *Broker) Publish(topic string, payload interface{})] *)
Definition Publish (topic : string) (payload : Value) (w : World) : Outcome unit :=
  let msg := mkMessage topic payload in
  send_request (pubCh_closed (broker w)) (EvPub msg) w.

(** [func (b *Broker) Stop()]: [close(b.stopCh)]. *)
Definition Stop (w : World) : Outcome unit :=
  if stopCh_closed (broker w) then Panics (set_panicked CloseOfClosedChannel w)
  else Returns tt (set_stop_signal w).

(** *** Delivery goroutines and consumers *)

(** The branch [case s <- m:] of the [k]-th pending delivery goroutine.  A
    send on a closed channel panics, a send on a nil channel or on a full
    buffer cannot proceed. *)
Definition deliver (k : nat) (w : World) : Outcome unit :=
  match tasks w !! k with
  | None => Blocks
  | Some (s, m) =>
      match chans w !! s with
      | None => Blocks
      | Some ch =>
          if closed ch then Panics (set_panicked SendOnClosedChannel (set_tasks (delete k (tasks w)) w))
          else if decide (length (buf ch) < cap ch) then
            Returns tt (set_chans (<[s := mkChan (buf ch ++ [m]) (cap ch) false]> (chans w))
                          (set_tasks (delete k (tasks w)) w))
          else Blocks
      end
  end.

(** The branch [case <-ctx.Done():] of the [k]-th pending delivery
    goroutine: the message is dropped. *)
Definition timeout (k : nat) (w : World) : Outcome unit :=
  match tasks w !! k with
  | None => Blocks
  | Some _ => Returns tt (set_tasks (delete k (tasks w)) w)
  end.

(** A consumer takes the next message out of its handle ([<-sub], one
    iteration of [for msg := range sub]).  On an empty channel the consumer
    waits, or, when the channel is closed, its loop ends. *)
Definition receive (s : Subscriber) (w : World) : Outcome Message :=
  match chans w !! s with
  | Some (mkChan (m :: rest) c cl) =>
      Returns m (log_receive s m (set_chans (<[s := mkChan rest c cl]> (chans w)) w))
  | _ => Blocks
  end.

(** A consumer's [range] loop over a handle is over: the channel is closed
    and drained. *)
Definition end_of_stream (w : World) (s : Subscriber) : bool :=
  match chans w !! s with
  | Some (mkChan [] _ true) => true
  | _ => false
  end.

(** *** Schedules *)

(** The atomic steps of the goroutines around a broker. *)
Inductive Action :=
| ASubscribe (topic : string)
| AUnsubscribe (topic : string) (sub : Subscriber)
| APublish (topic : string) (payload : Value)
| AStop
| ARunStop (l : list Subscriber)
| ADeliver (k : nat)
| ATimeout (k : nat)
| AReceive (sub : Subscriber).

Definition outcome_world {A} (o : Outcome A) : option World :=
  match o with
  | Returns _ w => Some w
  | Panics w => Some w
  | Blocks => None
  end.

(** [ARunStop l] is the [select] of [run] taking [<-b.stopCh], which it can
    once [Stop] has closed that channel, and its branch visiting the
    registered handles in the order [l], any order of the (topic, handle)
    pairs of the subscription maps.  As long as [run] has not taken the stop
    signal, its [select] can still take a request instead. *)
Definition step (w : World) (a : Action) : option World :=
  match panicked w with
  | Some _ => None
  | None =>
      match a with
      | ASubscribe topic => outcome_world (Subscribe topic w)
      | AUnsubscribe topic sub => outcome_world (Unsubscribe topic sub w)
      | APublish topic payload => outcome_world (Publish topic payload w)
      | AStop => outcome_world (Stop w)
      | ARunStop l =>
          match status w with
          | Running =>
              if stopCh_closed (broker w) && bool_decide (l ≡ₚ stop_order w)
              then Some (run_stop_with l w)
              else None
          | Stopped => None
          end
      | ADeliver k => outcome_world (deliver k w)
      | ATimeout k => outcome_world (timeout k w)
      | AReceive sub => outcome_world (receive sub w)
      end
  end.

(** A schedule is a list of actions; one that cannot proceed where it is
    scheduled leaves the state as it is. *)
Definition exec1 (w : World) (a : Action) : World := default w (step w a).

Definition exec (acts : list Action) (w : World) : World := foldl exec1 w acts.

(** A schedule every action of which can proceed where it is scheduled. *)
Definition exec_strict (acts : list Action) (w : World) : option World :=
  foldl (fun ow a => ow ≫= fun w => step w a) (Some w) acts.

(** A program that has just called [NewBroker]. *)
Definition init : World := NewBroker ∅.

(** The handles the [Subscribe] calls of a schedule return, in order. *)
Fixpoint subscribe_results (acts : list Action) (w : World) : list Subscriber :=
  match acts with
  | [] => []
  | a :: acts' =>
      match a, panicked w with
      | ASubscribe topic, None =>
          match Subscribe topic w with
          | Returns sub _ => [sub]
          | _ => []
          end
      | _, _ => []
      end ++ subscribe_results acts' (exec1 w a)
  end.

(** *** Properties of states *)

(** The channel behind a handle exists and [close] has not been called on
    it. *)
Definition chan_open (w : World) (s : Subscriber) : Prop :=
  ∃ ch, chans w !! s = Some ch ∧ closed ch = false.

(** What [close] does to a channel: the queued messages stay. *)
Definition mark_closed (ch : Chan) : Chan := mkChan (buf ch) (cap ch) true.

Definition close_chans (l : list Subscriber) (c : gmap Subscriber Chan) : gmap Subscriber Chan :=
  foldl (fun c s => alter mark_closed s c) c l.

(** What holds of every state the public operations reach. *)
Record inv (w : World) : Prop := mkInv {
  inv_open : status w = Running → ∀ topic s, s ∈ registered w topic → chan_open w s;
  inv_one_topic : ∀ t1 t2 s, s ∈ registered w t1 → s ∈ registered w t2 → t1 = t2;
  inv_closes_nodup : NoDup (closes w);
  inv_closes_closed : ∀ s, s ∈ closes w → is_closed w s = true;
  inv_intake : status w = Running →
    subCh_closed (broker w) = false ∧ unsubCh_closed (broker w) = false
    ∧ pubCh_closed (broker w) = false
}.

(** The invariant of the data model: no handle has been closed twice, and a
    handle that has been closed is in no subscription set unless the broker
    has stopped. *)
Definition closed_once_and_removed (w : World) : Prop :=
  (∀ s, count_occ Nat.eq_dec (closes w) s ≤ 1)
  ∧ (∀ s, s ∈ closes w → (∀ topic, s ∉ registered w topic) ∨ status w = Stopped).

(** A message is on its way to a handle or has arrived: a consumer has taken
    it, it is queued in the channel, or a delivery goroutine holds it. *)
Definition in_flight (w : World) (s : Subscriber) (m : Message) : Prop :=
  (s, m) ∈ inbox w ∨ (s, m) ∈ tasks w ∨ ∃ ch, chans w !! s = Some ch ∧ m ∈ buf ch.

(** The messages the pending delivery goroutines hold for one handle, in the
    order the goroutines were spawned. *)
Definition queued_for (s : Subscriber) (ts : list Task) : list Message :=
  (filter (fun t => t.1 = s) ts).*2.

(** *** The subscription sets, in the words of the specification *)

(** A subscribe or an unsubscribe request, as submitted. *)
Inductive Request :=
| ReqSubscribe (req : subRequest)
| ReqUnsubscribe (req : unsubRequest).

Definition request_event (r : Request) : Event :=
  match r with
  | ReqSubscribe req => EvSub req
  | ReqUnsubscribe req => EvUnsub req
  end.

(** "The handles subscribed to that topic minus those unsubscribed, applied
    in submission order." *)
Definition spec_apply (topic : string) (S : gset Subscriber) (r : Request) : gset Subscriber :=
  match r with
  | ReqSubscribe req => if decide (sub_topic req = topic) then S ∪ {[sub_sub req]} else S
  | ReqUnsubscribe req => if decide (unsub_topic req = topic) then S ∖ {[unsub_sub req]} else S
  end.

Definition spec_registered (topic : string) (reqs : list Request) : gset Subscriber :=
  foldl (spec_apply topic) ∅ reqs.

(** Every value the subscription maps hold is [true], as [run] only ever
    stores [true]. *)
Definition all_true (w : World) : Prop :=
  ∀ topic topicSubs s b,
    subscriptions (broker w) !! topic = Some topicSubs → topicSubs !! s = Some b → b = true.

(** The delivery goroutines one publish request spawns. *)
Definition fan_out (w : World) (msg : Message) : list Task :=
  (λ s, (s, msg)) <$> (map_to_list (topic_subs w (Topic msg))).*1.

(** *** Scenarios *)

(** The first handle a program gets from [Subscribe]. *)
Definition h0 : Subscriber := 0.

End PubSub.

(** ** The sum benchmark *)

Module SumBenchmark.

Local Open Scope Z_scope.

(** Go's [int] on a 64-bit platform: arithmetic wraps around silently. *)
Definition wrap (z : Z) : Z := (z + 2 ^ 63) mod 2 ^ 64 - 2 ^ 63.

Definition add (a b : Z) : Z := wrap (a + b).
Definition sub (a b : Z) : Z := wrap (a - b).
Definition mul (a b : Z) : Z := wrap (a * b).

(** The run-time panics of [sumSquaresConcurrent]. *)
Inductive Panic :=
| IntegerDivideByZero
| MakeChanSizeOutOfRange
| SliceBoundsOutOfRange (low high : Z).

Inductive Result (A : Type) :=
| Ok (a : A)
| Panicked (p : Panic).
Arguments Ok {A} a.
Arguments Panicked {A} p.

(** [len(data)] *)
Definition len (data : list Z) : Z := Z.of_nat (length data).

(** The loop [for _, v := range data { sum += v * v }] from [sum]. *)
Definition sum_loop (data : list Z) (sum : Z) : Z :=
  foldl (fun sum v => add sum (mul v v)) sum data.

(** [func sumSquaresSequential(data []int) int] *)
Definition sumSquaresSequential (data : list Z) : Z := sum_loop data 0.

(** The slice expression [data[low:high]] on a slice whose capacity is its
    length: it panics unless [0 <= low <= high <= cap(data)]. *)
Definition slice (data : list Z) (low high : Z) : Result (list Z) :=
  if (0 <=? low) && (low <=? high) && (high <=? len data)
  then Ok (take (Z.to_nat (high - low)) (drop (Z.to_nat low) data))
  else Panicked (SliceBoundsOutOfRange low high).

(** The body of the goroutine: the value it sends on [results]. *)
Definition worker (chunk : list Z) : Z := sum_loop chunk 0.

(** The first loop, from iteration [i] on, with [n] iterations left: the
    values the spawned goroutines send, in spawn order.  The slice expression
    is evaluated by the spawning goroutine, so its panic ends the function. *)
Fixpoint spawn (data : list Z) (chunkSize : Z) (i : Z) (n : nat) : Result (list Z) :=
  match n with
  | O => Ok []
  | S n' =>
      let start := mul i chunkSize in
      let end_ := Z.min (add start chunkSize) (len data) in
      match slice data start end_ with
      | Panicked p => Panicked p
      | Ok chunk =>
          match spawn data chunkSize (i + 1) n' with
          | Panicked p => Panicked p
          | Ok sums => Ok (worker chunk :: sums)
          end
      end
  end.

(** The second loop: [total += <-results], over the values in the order
    they arrive. *)
Definition collect (arrivals : list Z) : Z := foldl add 0 arrivals.

(** [func sumSquaresConcurrent(data []int, workers int) int], with the
    values arriving on [results] in the order the goroutines were spawned
    ([collect_arrival_order] shows the order does not matter).  Of the
    panics of [make(chan int, workers)], the one on a negative capacity is
    modelled; the one on a capacity beyond what can be allocated is left
    out. *)
Definition sumSquaresConcurrent (data : list Z) (workers : Z) : Result Z :=
  if workers =? 0 then Panicked IntegerDivideByZero
  else
    let chunkSize := wrap (Z.quot (sub (add (len data) workers) 1) workers) in
    if workers <? 0 then Panicked MakeChanSizeOutOfRange
    else
      match spawn data chunkSize 0 (Z.to_nat workers) with
      | Panicked p => Panicked p
      | Ok sums => Ok (collect sums)
      end.

(** A value an [int] can hold. *)
Definition in_range (z : Z) : Prop := - 2 ^ 63 <= z < 2 ^ 63.

(** Ten values, for eight workers. *)
Definition ten : list Z := [1; 2; 3; 4; 5; 6; 7; 8; 9; 10].

End SumBenchmark.

(** ** The broker, step by step *)

Module PubSubSteps.
Import PubSub.

(** [sub := make(Subscriber, 10)] in [Subscribe]. *)
Definition alloc (w : World) : World :=
  set_chans (<[new_chan w := make_chan subscriberCapacity]> (chans w)) w.

(** The steps of [step] from the states the public operations reach, one
    constructor per way an action can go. *)
Inductive Step (w : World) : Action → World → Prop :=
| Step_subscribe_panics topic :
    subCh_closed (broker w) = true →
    Step w (ASubscribe topic) (set_panicked SendOnClosedChannel (alloc w))
| Step_subscribe topic :
    subCh_closed (broker w) = false → status w = Running →
    Step w (ASubscribe topic) (handle_sub (mksubRequest topic (new_chan w)) (alloc w))
| Step_unsubscribe_panics topic sub :
    unsubCh_closed (broker w) = true →
    Step w (AUnsubscribe topic sub) (set_panicked SendOnClosedChannel w)
| Step_unsubscribe_absent topic sub :
    unsubCh_closed (broker w) = false → status w = Running → sub ∉ registered w topic →
    Step w (AUnsubscribe topic sub) w
| Step_unsubscribe topic sub :
    unsubCh_closed (broker w) = false → status w = Running →
    sub ∈ registered w topic → chan_open w sub →
    Step w (AUnsubscribe topic sub)
      (mkWorld
         (broker (set_subscriptions
                    (<[topic := delete sub (topic_subs w topic)]> (subscriptions (broker w))) w))
         (status w) (alter mark_closed sub (chans w)) (tasks w) (panicked w)
         (closes w ++ [sub]) (inbox w))
| Step_publish_panics topic payload :
    pubCh_closed (broker w) = true →
    Step w (APublish topic payload) (set_panicked SendOnClosedChannel w)
| Step_publish topic payload :
    pubCh_closed (broker w) = false → status w = Running →
    Step w (APublish topic payload)
      (set_tasks (tasks w ++ fan_out w (mkMessage topic payload)) w)
| Step_stop_panics :
    stopCh_closed (broker w) = true →
    Step w AStop (set_panicked CloseOfClosedChannel w)
| Step_stop :
    stopCh_closed (broker w) = false →
    Step w AStop (set_stop_signal w)
| Step_run_stop l :
    status w = Running → stopCh_closed (broker w) = true →
    l ≡ₚ stop_order w → NoDup l → (∀ s, s ∈ l → chan_open w s) →
    Step w (ARunStop l)
      (run_exit (mkWorld (broker w) (status w) (close_chans l (chans w)) (tasks w)
                   None (closes w ++ l) (inbox w)))
| Step_deliver_panics k s m ch :
    tasks w !! k = Some (s, m) → chans w !! s = Some ch → closed ch = true →
    Step w (ADeliver k)
      (set_panicked SendOnClosedChannel (set_tasks (delete k (tasks w)) w))
| Step_deliver k s m ch :
    tasks w !! k = Some (s, m) → chans w !! s = Some ch → closed ch = false →
    length (buf ch) < cap ch →
    Step w (ADeliver k)
      (set_chans (<[s := mkChan (buf ch ++ [m]) (cap ch) false]> (chans w))
         (set_tasks (delete k (tasks w)) w))
| Step_timeout k t :
    tasks w !! k = Some t →
    Step w (ATimeout k) (set_tasks (delete k (tasks w)) w)
| Step_receive s m rest c cl :
    chans w !! s = Some (mkChan (m :: rest) c cl) →
    Step w (AReceive s)
      (log_receive s m (set_chans (<[s := mkChan rest c cl]> (chans w)) w)).

(** The number of calls of [Stop] in a schedule. *)
Definition is_stop (a : Action) : bool :=
  match a with
  | AStop => true
  | _ => false
  end.

Definition stop_calls (acts : list Action) : nat := length (filter is_stop acts).

(** The handles the [Subscribe] calls of a schedule return, each with the
    topic it was asked for. *)
Fixpoint subscribe_pairs (acts : list Action) (w : World) : list (Subscriber * string) :=
  match acts with
  | [] => []
  | a :: acts' =>
      match a, panicked w with
      | ASubscribe topic, None =>
          match Subscribe topic w with
          | Returns sub _ => [(sub, topic)]
          | _ => []
          end
      | _, _ => []
      end ++ subscribe_pairs acts' (exec1 w a)
  end.

(** Every queue of the store has the capacity [Subscribe] gives and holds
    no more than that. *)
Definition bounded_queues (w : World) : Prop :=
  ∀ s ch, chans w !! s = Some ch →
    cap ch = subscriberCapacity ∧ length (buf ch) ≤ subscriberCapacity.

Global Instance Message_eq_dec : EqDecision Message.
Proof. solve_decision. Defined.

(** How often a value occurs in a list. *)
Definition occurrences `{EqDecision A} (x : A) (l : list A) : nat :=
  length (filter (x =.) l).

(** The copies of a message that have reached a handle or are on their way
    to it: taken out by the consumer, queued in the channel, held by pending
    delivery goroutines. *)
Definition copies (w : World) (s : Subscriber) (m : Message) : nat :=
  occurrences (s, m) (inbox w) + occurrences (s, m) (tasks w)
  + match chans w !! s with
    | Some ch => occurrences m (buf ch)
    | None => 0
    end.

(** The calls of [Publish] with the topic and payload of a message, in a
    schedule. *)
Definition is_publish_of (m : Message) (a : Action) : bool :=
  match a with
  | APublish topic payload => bool_decide (mkMessage topic payload = m)
  | _ => false
  end.

Definition publish_calls (m : Message) (acts : list Action) : nat :=
  length (filter (is_publish_of m) acts).

(** The messages queued in the channel behind a handle. *)
Definition queue_of (w : World) (s : Subscriber) : list Message :=
  match chans w !! s with
  | Some ch => buf ch
  | None => []
  end.

(** The messages a consumer has received from a handle, in the order in
    which it received them. *)
Definition received_by (w : World) (s : Subscriber) : list Message :=
  (filter (fun r => r.1 = s) (inbox w)).*2.

(** The messages the pending delivery goroutines hold for a handle, in the
    order in which the goroutines were spawned. *)
Definition pending_for (w : World) (s : Subscriber) : list Message :=
  queued_for s (tasks w).

(** An action keeps the sends in spawn order: a delivery goroutine sends
    only when no goroutine spawned before it for the same handle is still
    pending, and no delivery goroutine gives up. *)
Definition in_spawn_order (w : World) (a : Action) : bool :=
  match a with
  | ADeliver k =>
      match tasks w !! k with
      | Some (s, _) => bool_decide (s ∉ (take k (tasks w)).*1)
      | None => true
      end
  | ATimeout _ => false
  | _ => true
  end.

Fixpoint sends_follow_spawn_order (acts : list Action) (w : World) : bool :=
  match acts with
  | [] => true
  | a :: acts' => in_spawn_order w a && sends_follow_spawn_order acts' (exec1 w a)
  end.

(** The message for which an action makes [run] spawn a delivery goroutine
    bound for [s]: that of a [Publish] call [run] accepts, to a topic [s]
    is registered under. *)
Definition spawned_for (s : Subscriber) (w : World) (a : Action) : list Message :=
  match a, panicked w with
  | APublish topic payload, None =>
      match Publish topic payload w with
      | Returns _ _ => if decide (s ∈ registered w topic) then [mkMessage topic payload] else []
      | _ => []
      end
  | _, _ => []
  end.

(** The messages published to a handle in a schedule, in the order in which
    [run] processed the publish requests. *)
Fixpoint published_to (s : Subscriber) (acts : list Action) (w : World) : list Message :=
  match acts with
  | [] => []
  | a :: acts' => spawned_for s w a ++ published_to s acts' (exec1 w a)
  end.

(** Two subscribers of one topic, two publishes, and the deliveries and
    receives interleaved with them, every handle served in spawn order. *)
Definition two_subscribers_in_order : list Action :=
  [ASubscribe "t"; ASubscribe "t"; APublish "t" "m1"; ADeliver 1; APublish "t" "m2";
   ADeliver 0; AReceive 0; AReceive 1; ADeliver 1; ADeliver 0; AReceive 1; AReceive 0].

(** One iteration of [for msg := range sub]: the loop takes the next
    message, ends when the channel is closed and drained, and waits
    otherwise. *)
Inductive RangeStep :=
| Yields (m : Message) (w : World)
| Ends
| Waits.

Definition range_next (s : Subscriber) (w : World) : RangeStep :=
  match chans w !! s with
  | Some (mkChan (m :: rest) c cl) =>
      Yields m (log_receive s m (set_chans (<[s := mkChan rest c cl]> (chans w)) w))
  | Some (mkChan [] _ true) => Ends
  | _ => Waits
  end.

(** Once the loop has ended, the three request channels are closed by its
    deferred function and the stop channel by the [Stop] that ended it. *)
Definition intake_closed_when_stopped (w : World) : Prop :=
  status w = Stopped →
  subCh_closed (broker w) = true ∧ unsubCh_closed (broker w) = true
  ∧ pubCh_closed (broker w) = true ∧ stopCh_closed (broker w) = true.

(** Where the panics of a schedule with [n] calls of [Stop] can come from. *)
Definition panic_sources (w : World) (n : nat) : Prop :=
  (stopCh_closed (broker w) = true → 1 ≤ n)
  ∧ (panicked w = Some CloseOfClosedChannel → 2 ≤ n)
  ∧ panicked w ≠ Some CloseOfNilChannel.

(** A record [H] of the handles returned so far and their topics covers
    the registrations and the messages in flight. *)
Definition pairs_ok (w : World) (H : list (Subscriber * string)) : Prop :=
  (∀ t s, s ∈ registered w t → (s, t) ∈ H)
  ∧ (∀ s m, in_flight w s m → (s, Topic m) ∈ H)
  ∧ (∀ s t, (s, t) ∈ H → is_Some (chans w !! s))
  ∧ (∀ s t1 t2, (s, t1) ∈ H → (s, t2) ∈ H → t1 = t2).

End PubSubSteps.

(** ** The data of the sum benchmark *)

Module SumBenchmarkMain.
Import SumBenchmark.
Local Open Scope Z_scope.

(** The sum of the squares, as a number. *)
Definition sum_of_squares (data : list Z) : Z := foldr (fun v acc => v * v + acc) 0 data.

(** [func generateData(n int) []int], with [intn i] the value the call of
    [rand.Intn(1000)] in iteration [i] returns.  [None] is the panic of
    [make] on a negative length. *)
Definition generateData (n : Z) (intn : nat → Z) : option (list Z) :=
  if n <? 0 then None else Some (intn <$> seq 0 (Z.to_nat n)).

(** What [rand.Intn(1000)] promises of its results. *)
Definition intn_1000 (intn : nat → Z) : Prop := ∀ i, 0 <= intn i < 1000.

(** The chunk size [(len(data) + workers - 1) / workers] as a number: what
    [sumSquaresConcurrent] computes when [workers] is positive and nothing
    overflows. *)
Definition chunk_size (data : list Z) (workers : Z) : Z :=
  (len data + workers - 1) / workers.

End SumBenchmarkMain.

(** ** The parallel digit count

    [parallel_digits.go]: a producer streams the words into [tasks], the
    workers count the digits of each word and send the map on [results], a
    coordinator closes [results] once every worker has signalled on [done],
    and [mergeResults] adds the maps up.  One call of [countDigitsParallel]
    is a transition system: a step is one communication of one goroutine,
    a schedule is a list of them, and the context can be cancelled at any
    point. *)

Module ParallelDigits.

(** A [rune] is a Unicode code point; a word is modelled by the runes
    [for _, r := range w] yields.  A [map[rune]int] is a [gmap rune Z], in
    which a missing key reads as [0]; the counts are Go's [int], with the
    wrap-around of the sum benchmark. *)
Definition rune := Z.
Definition Word := list rune.

(** [r >= '0' && r <= '9'] *)
Definition is_digit (r : rune) : bool := (48 <=? r)%Z && (r <=? 57)%Z.

(** [m[r]++] *)
Definition incr (m : gmap rune Z) (r : rune) : gmap rune Z :=
  <[r := SumBenchmark.add (default 0%Z (m !! r)) 1]> m.

(** [for _, r := range w { if r >= '0' && r <= '9' { m[r]++ } }] *)
Definition count_runes (m : gmap rune Z) (w : Word) : gmap rune Z :=
  foldl (fun m r => if is_digit r then incr m r else m) m w.

(** The map a worker builds for one word, starting from [make(map[rune]int)]. *)
Definition count_word (w : Word) : gmap rune Z := count_runes ∅ w.

(** The loop of [BenchmarkSequential]: one map, every word counted into it. *)
Definition sequential (words : list Word) : gmap rune Z := foldl count_runes ∅ words.

(** [final[k] += v] *)
Definition add_count (final : gmap rune Z) (kv : rune * Z) : gmap rune Z :=
  <[kv.1 := SumBenchmark.add (default 0%Z (final !! kv.1)) kv.2]> final.

(** [for k, v := range m { final[k] += v }], over the entries in the order
    the iteration yields them. *)
Definition merge_in_order (final : gmap rune Z) (entries : list (rune * Z)) : gmap rune Z :=
  foldl add_count final entries.

(** The same loop, with the entries in the order [map_to_list] lists them
    (the result is the same for every order). *)
Definition merge (final m : gmap rune Z) : gmap rune Z := merge_in_order final (map_to_list m).

(** Where a worker goroutine is. *)
Inductive WorkerState :=
| Selecting                            (* at the outer [select] *)
| Sending (w : Word) (m : gmap rune Z)  (* at the inner [select], holding [m] *)
| Exiting                              (* returned; the deferred send on [done] is due *)
| Exited.                              (* the deferred send is done *)

(** The goroutines of one call of [countDigitsParallel] and the channels
    they share.  The producer runs while [tasks] is open, the coordinator
    while [results] is open, the merger while [returned] is [None]. *)
Record State := mkState {
  cancelled : bool;              (* [ctx.Done()] is closed *)
  numWorkers : nat;              (* the capacity of the three channels *)
  words_left : list Word;        (* the rest of the producer's loop *)
  tasks : list Word;             (* the buffer of [tasks] *)
  tasks_closed : bool;
  workers : list WorkerState;
  results : list (gmap rune Z);  (* the buffer of [results] *)
  results_closed : bool;
  done : nat;                    (* the number of values in the buffer of [done] *)
  waited : nat;                  (* the iterations the coordinator has completed *)
  final : gmap rune Z;           (* the merger's map *)
  returned : option (gmap rune Z); (* what [mergeResults] returned *)
  panicked : bool                (* a send on a closed channel *)
}.

Definition set_cancelled (s : State) : State :=
  mkState true (numWorkers s) (words_left s) (tasks s) (tasks_closed s) (workers s)
    (results s) (results_closed s) (done s) (waited s) (final s) (returned s) (panicked s).

Definition set_producer (ws tk : list Word) (closed : bool) (s : State) : State :=
  mkState (cancelled s) (numWorkers s) ws tk closed (workers s)
    (results s) (results_closed s) (done s) (waited s) (final s) (returned s) (panicked s).

Definition set_worker (i : nat) (ws : WorkerState) (s : State) : State :=
  mkState (cancelled s) (numWorkers s) (words_left s) (tasks s) (tasks_closed s)
    (<[i := ws]> (workers s))
    (results s) (results_closed s) (done s) (waited s) (final s) (returned s) (panicked s).

Definition set_tasks (tk : list Word) (s : State) : State :=
  set_producer (words_left s) tk (tasks_closed s) s.

Definition set_results (rs : list (gmap rune Z)) (closed : bool) (s : State) : State :=
  mkState (cancelled s) (numWorkers s) (words_left s) (tasks s) (tasks_closed s) (workers s)
    rs closed (done s) (waited s) (final s) (returned s) (panicked s).

Definition set_done (d w : nat) (s : State) : State :=
  mkState (cancelled s) (numWorkers s) (words_left s) (tasks s) (tasks_closed s) (workers s)
    (results s) (results_closed s) d w (final s) (returned s) (panicked s).

Definition set_final (f : gmap rune Z) (s : State) : State :=
  mkState (cancelled s) (numWorkers s) (words_left s) (tasks s) (tasks_closed s) (workers s)
    (results s) (results_closed s) (done s) (waited s) f (returned s) (panicked s).

Definition set_returned (s : State) : State :=
  mkState (cancelled s) (numWorkers s) (words_left s) (tasks s) (tasks_closed s) (workers s)
    (results s) (results_closed s) (done s) (waited s) (final s) (Some (final s)) (panicked s).

Definition set_panicked (s : State) : State :=
  mkState (cancelled s) (numWorkers s) (words_left s) (tasks s) (tasks_closed s) (workers s)
    (results s) (results_closed s) (done s) (waited s) (final s) (returned s) true.

(** What a goroutine can do next. *)
Inductive Action :=
| Cancel                       (* the context is cancelled or times out *)
| ProducerSend                 (* [case tasks <- w] *)
| ProducerCancelled            (* [case <-ctx.Done(): return], then [close(tasks)] *)
| ProducerDone                 (* the loop is over, [close(tasks)] *)
| WorkerReceive (i : nat)      (* [case w, ok := <-tasks] with [ok], and the count *)
| WorkerTasksClosed (i : nat)  (* [case w, ok := <-tasks] with [!ok] *)
| WorkerCancelled (i : nat)    (* [case <-ctx.Done(): return] in either [select] *)
| WorkerSend (i : nat)         (* [case results <- m] *)
| WorkerSignal (i : nat)       (* the deferred [done <- struct{}{}] *)
| CoordinatorReceive           (* [<-done] *)
| CoordinatorClose             (* [close(results)] *)
| MergeReceive                 (* [case m, ok := <-results] with [ok], and the merge *)
| MergeClosed                  (* [case m, ok := <-results] with [!ok] *)
| MergeCancelled.              (* [case <-ctx.Done(): return final] *)

(** One step; [None] when the action is not enabled.  A receive from a
    closed channel yields the buffered values first. *)
Definition step (s : State) (a : Action) : option State :=
  if panicked s then None else
  match a with
  | Cancel => if cancelled s then None else Some (set_cancelled s)
  | ProducerSend =>
      if tasks_closed s then None else
      match words_left s with
      | [] => None
      | w :: rest =>
          if bool_decide (length (tasks s) < numWorkers s)
          then Some (set_producer rest (tasks s ++ [w]) false s)
          else None
      end
  | ProducerCancelled =>
      if tasks_closed s then None else
      match words_left s with
      | [] => None
      | _ :: _ =>
          if cancelled s then Some (set_producer (words_left s) (tasks s) true s) else None
      end
  | ProducerDone =>
      if tasks_closed s then None else
      match words_left s with
      | [] => Some (set_producer [] (tasks s) true s)
      | _ :: _ => None
      end
  | WorkerReceive i =>
      match workers s !! i, tasks s with
      | Some Selecting, w :: rest =>
          Some (set_worker i (Sending w (count_word w)) (set_tasks rest s))
      | _, _ => None
      end
  | WorkerTasksClosed i =>
      match workers s !! i, tasks s with
      | Some Selecting, [] => if tasks_closed s then Some (set_worker i Exiting s) else None
      | _, _ => None
      end
  | WorkerCancelled i =>
      match workers s !! i with
      | Some Selecting | Some (Sending _ _) =>
          if cancelled s then Some (set_worker i Exiting s) else None
      | _ => None
      end
  | WorkerSend i =>
      match workers s !! i with
      | Some (Sending _ m) =>
          if results_closed s then Some (set_panicked s)
          else if bool_decide (length (results s) < numWorkers s)
          then Some (set_worker i Selecting (set_results (results s ++ [m]) false s))
          else None
      | _ => None
      end
  | WorkerSignal i =>
      match workers s !! i with
      | Some Exiting =>
          if bool_decide (done s < numWorkers s)
          then Some (set_worker i Exited (set_done (S (done s)) (waited s) s))
          else None
      | _ => None
      end
  | CoordinatorReceive =>
      if bool_decide (waited s < numWorkers s) then
        match done s with
        | O => None
        | S d => Some (set_done d (S (waited s)) s)
        end
      else None
  | CoordinatorClose =>
      if bool_decide (waited s = numWorkers s) && negb (results_closed s)
      then Some (set_results (results s) true s)
      else None
  | MergeReceive =>
      match returned s, results s with
      | None, m :: rest => Some (set_final (merge (final s) m) (set_results rest (results_closed s) s))
      | _, _ => None
      end
  | MergeClosed =>
      match returned s, results s with
      | None, [] => if results_closed s then Some (set_returned s) else None
      | _, _ => None
      end
  | MergeCancelled =>
      match returned s with
      | None => if cancelled s then Some (set_returned s) else None
      | Some _ => None
      end
  end.

(** An action that is not enabled leaves the state as it is. *)
Definition exec1 (s : State) (a : Action) : State := default s (step s a).
Definition exec (schedule : list Action) (s : State) : State := foldl exec1 s schedule.

(** A run in which every action is enabled. *)
Fixpoint exec_strict (schedule : list Action) (s : State) : option State :=
  match schedule with
  | [] => Some s
  | a :: rest => step s a ≫= exec_strict rest
  end.

(** The state [countDigitsParallel] sets up before it calls [mergeResults];
    [None] is the panic of [make] on a negative capacity (its panic on a
    capacity beyond what can be allocated is left out).  [ctx_done] tells
    whether the context is cancelled already. *)
Definition start (ctx_done : bool) (words : list Word) (n : Z) : option State :=
  if (n <? 0)%Z then None
  else Some (mkState ctx_done (Z.to_nat n) words [] false (replicate (Z.to_nat n) Selecting)
               [] false 0 0 ∅ None false).

Inductive Outcome :=
| Panics
| Returns (counts : gmap rune Z)
| Running.

(** [func countDigitsParallel(ctx, words, numWorkers) map[rune]int] under a
    schedule of its goroutines. *)
Definition countDigitsParallel (ctx_done : bool) (words : list Word) (n : Z)
    (schedule : list Action) : Outcome :=
  match start ctx_done words n with
  | None => Panics
  | Some s =>
      let s' := exec schedule s in
      if panicked s' then Panics
      else match returned s' with
           | Some counts => Returns counts
           | None => Running
           end
  end.

(** [printSortedCounts]: the keys, collected in the order [keys_order] the
    iteration yields them and sorted, each with its count; one pair per
    printed line. *)
Definition printSortedCounts (counts : gmap rune Z) (keys_order : list rune) : list (rune * Z) :=
  (fun k => (k, default 0%Z (counts !! k))) <$> merge_sort Z.le keys_order.

(** The work that is left: a bound on the steps still to come. *)
Definition weight (ws : WorkerState) : nat :=
  match ws with
  | Selecting => 3
  | Sending _ _ => 5
  | Exiting => 2
  | Exited => 0
  end.

Definition flag (b : bool) : nat := if b then 0 else 1.

Definition measure (s : State) : nat :=
  flag (cancelled s) + 4 * length (words_left s) + 3 * length (tasks s)
  + flag (tasks_closed s) + sum_list (weight <$> workers s) + length (results s)
  + done s + flag (results_closed s)
  + match returned s with None => 1 | Some _ => 0 end
  + flag (panicked s).

(** The words a worker holds. *)
Definition held (ws : WorkerState) : list Word :=
  match ws with
  | Sending w _ => [w]
  | _ => []
  end.

Definition exited (ws : WorkerState) : nat :=
  match ws with
  | Exited => 1
  | _ => 0
  end.

Definition gone (ws : WorkerState) : bool :=
  match ws with
  | Exiting | Exited => true
  | _ => false
  end.

(** The number of times [k] is counted in [w]. *)
Definition occ (k : rune) (w : list rune) : nat :=
  length (filter (fun r => r = k) (filter (fun r => is_digit r = true) w)).

Definition occs (k : rune) (ws : list Word) : nat := sum_list (occ k <$> ws).

(** The bookkeeping of the three channels. *)
Record counting (s : State) : Prop := mkCounting {
  cnt_workers : length (workers s) = numWorkers s;
  cnt_done : done s + waited s = sum_list (exited <$> workers s);
  cnt_closed : results_closed s = true → waited s = numWorkers s;
  cnt_panicked : panicked s = false;
  cnt_tasks : length (tasks s) ≤ numWorkers s;
  cnt_results : length (results s) ≤ numWorkers s
}.

(** What a worker holds is the count of the word it received. *)
Definition holds_count (ws : WorkerState) : Prop :=
  match ws with
  | Sending w m => m = count_word w
  | _ => True
  end.

(** Every word is in exactly one place: merged into [final], counted and
    waiting in [results], held by a worker, waiting in [tasks], not yet
    sent, or dropped by a cancelled worker. *)
Definition accounted (words : list Word) (s : State) : Prop :=
  ∃ merged sent dropped : list Word,
    final s = sequential merged
    ∧ results s = count_word <$> sent
    ∧ Forall holds_count (workers s)
    ∧ merged ++ sent ++ (workers s ≫= held) ++ tasks s ++ words_left s ++ dropped ≡ₚ words
    ∧ (cancelled s = false → dropped = []).

(** Without cancellation the producer closes [tasks] only after the last
    word, and a worker leaves only when [tasks] is closed and empty. *)
Definition drained (s : State) : Prop :=
  cancelled s = false →
  (tasks_closed s = true → words_left s = [])
  ∧ (∀ i ws, workers s !! i = Some ws → gone ws = true →
       tasks s = [] ∧ tasks_closed s = true).

(** What [mergeResults] returned. *)
Definition result_ok (words : list Word) (s : State) : Prop :=
  ∀ r, returned s = Some r →
    (∃ ws, ws ⊆+ words ∧ r = sequential ws)
    ∧ (cancelled s = false → 1 ≤ numWorkers s → r = sequential words).

Record good (words : list Word) (s : State) : Prop := mkGood {
  good_counting : counting s;
  good_accounted : accounted words s;
  good_drained : drained s;
  good_result : result_ok words s
}.

(** With no worker, nothing is ever sent on [results]. *)
Definition unused (s : State) : Prop :=
  final s = ∅ ∧ results s = [] ∧ ∀ r, returned s = Some r → r = ∅.

(** Two words, ["12"] and ["1"], and a complete run of one worker over them. *)
Definition w12 : Word := [49; 50]%Z.
Definition w1 : Word := [49]%Z.
Definition one_worker_schedule : list Action :=
  [ProducerSend; WorkerReceive 0; WorkerSend 0; MergeReceive;
   ProducerSend; WorkerReceive 0; WorkerSend 0; MergeReceive;
   ProducerDone; WorkerTasksClosed 0; WorkerSignal 0;
   CoordinatorReceive; CoordinatorClose; MergeClosed].

(** The state [countDigitsParallel] sets up for them with one worker. *)
Definition two_words_start : State :=
  mkState false 1 [w12; w1] [] false [Selecting] [] false 0 0 ∅ None false.

Definition two_counts : gmap rune Z := {[49 := 2; 50 := 1]}%Z.

End ParallelDigits.

(** ** Properties of the broker *)

Module PubSubProps.
Import PubSub.

(** *** What the handlers of [run] do *)

Lemma chan_open_not_closed w s : chan_open w s → is_closed w s = false.
Proof. intros (ch & Hch & Hop). unfold is_closed. by rewrite Hch. Qed.

(** [close] on an open channel. *)
Lemma close_chan_open w s :
  chan_open w s →
  close_chan s w =
    mkWorld (broker w) (status w) (alter mark_closed s (chans w)) (tasks w)
      (panicked w) (closes w ++ [s]) (inbox w).
Proof.
  intros (ch & Hch & Hop). unfold close_chan. cbn.
  rewrite Hch, Hop. unfold set_chans. cbn. f_equal.
  apply map_eq. intros i. rewrite lookup_alter.
  destruct (decide (s = i)) as [->|Hne].
  - rewrite lookup_insert_eq, Hch. done.
  - by rewrite lookup_insert_ne.
Qed.

Lemma registered_handle_sub req w topic :
  registered (handle_sub req w) topic =
  if decide (topic = sub_topic req) then {[sub_sub req]} ∪ registered w topic
  else registered w topic.
Proof.
  unfold registered, topic_subs, handle_sub. cbn.
  destruct (decide (topic = sub_topic req)) as [->|Hne].
  - rewrite lookup_insert_eq. cbn. rewrite dom_insert_L.
    destruct (subscriptions (broker w) !! sub_topic req) eqn:E; cbn.
    + rewrite E. done.
    + rewrite lookup_insert_eq. done.
  - rewrite lookup_insert_ne by done.
    destruct (subscriptions (broker w) !! sub_topic req) eqn:E; cbn; [done|].
    by rewrite lookup_insert_ne.
Qed.

Lemma elem_of_registered w topic s :
  s ∈ registered w topic ↔
  ∃ topicSubs, subscriptions (broker w) !! topic = Some topicSubs ∧ is_Some (topicSubs !! s).
Proof.
  unfold registered, topic_subs. rewrite elem_of_dom.
  destruct (subscriptions (broker w) !! topic) as [m|]; cbn.
  - split; [eauto|]. by intros (? & [= ->] & ?).
  - rewrite lookup_empty. split; [by intros [? ?]|]. by intros (? & ? & ?).
Qed.

Lemma handle_unsub_absent req w :
  unsub_sub req ∉ registered w (unsub_topic req) → handle_unsub req w = w.
Proof.
  rewrite elem_of_registered. intros Hn. unfold handle_unsub.
  destruct (subscriptions (broker w) !! unsub_topic req) as [m|] eqn:E; [|done].
  destruct (m !! unsub_sub req) eqn:E2; [|done].
  destruct Hn. eauto.
Qed.

Lemma handle_unsub_present req w :
  unsub_sub req ∈ registered w (unsub_topic req) →
  handle_unsub req w =
  close_chan (unsub_sub req)
    (set_subscriptions
       (<[unsub_topic req := delete (unsub_sub req) (topic_subs w (unsub_topic req))]>
          (subscriptions (broker w))) w).
Proof.
  rewrite elem_of_registered. intros (m & Hm & [b Hb]). unfold handle_unsub, topic_subs.
  by rewrite Hm, Hb.
Qed.

Lemma registered_unsub_update w topic s t :
  registered (set_subscriptions (<[topic := delete s (topic_subs w topic)]> (subscriptions (broker w))) w) t =
  if decide (t = topic) then registered w t ∖ {[s]} else registered w t.
Proof.
  unfold registered at 1. unfold topic_subs at 1. cbn.
  destruct (decide (t = topic)) as [->|Hne].
  - rewrite lookup_insert_eq. cbn. by rewrite dom_delete_L.
  - by rewrite lookup_insert_ne.
Qed.


Lemma lookup_close_chans l : ∀ c s,
  close_chans l c !! s = if decide (s ∈ l) then mark_closed <$> c !! s else c !! s.
Proof.
  induction l as [|a l IH]; intros c s; cbn.
  - destruct (decide (s ∈ [])) as [H|H]; [by apply elem_of_nil in H|done].
  - unfold close_chans in IH. rewrite IH. rewrite lookup_alter.
    destruct (decide (s ∈ a :: l)) as [Hin'|Hin']; rewrite elem_of_cons in Hin';
      destruct (decide (a = s)) as [->|Hne]; destruct (decide (s ∈ l)) as [Hin|Hin];
      try done; try (by destruct (c !! s)); intuition congruence.
Qed.

Lemma close_all_open l : ∀ w,
  NoDup l → (∀ s, s ∈ l → chan_open w s) → panicked w = None →
  close_all l w =
    mkWorld (broker w) (status w) (close_chans l (chans w)) (tasks w)
      None (closes w ++ l) (inbox w).
Proof.
  induction l as [|a l IH]; intros w Hnd Hop Hp.
  - cbn. rewrite app_nil_r. destruct w; cbn in *. by subst.
  - cbn. rewrite close_chan_open by (apply Hop; left). cbn. rewrite Hp.
    apply NoDup_cons in Hnd as [Ha Hnd].
    rewrite IH; cbn; [by rewrite <-app_assoc|done| |done].
    intros s Hs. destruct (Hop s) as (ch & Hch & Hcl); [by right|].
    exists ch. split; [|done]. cbn. rewrite lookup_alter_ne; [done|]. intros ->. done.
Qed.

Lemma elem_of_stop_order w s :
  s ∈ stop_order w ↔ ∃ topic, s ∈ registered w topic.
Proof.
  unfold stop_order. rewrite list_elem_of_bind. split.
  - intros ([t m] & Hs & Htm). apply elem_of_map_to_list in Htm.
    exists t. apply elem_of_registered. exists m. split; [done|].
    apply list_elem_of_fmap in Hs as ([s' b] & -> & Hsb).
    apply elem_of_map_to_list in Hsb. eauto.
  - intros (t & Ht). apply elem_of_registered in Ht as (m & Hm & [b Hb]).
    exists (t, m). split; [|by apply elem_of_map_to_list].
    apply list_elem_of_fmap. exists (s, b). split; [done|]. by apply elem_of_map_to_list.
Qed.

Lemma NoDup_stop_order w :
  (∀ t1 t2 s, s ∈ registered w t1 → s ∈ registered w t2 → t1 = t2) →
  NoDup (stop_order w).
Proof.
  intros Hone. unfold stop_order. apply NoDup_bind.
  - intros [t1 m1] [t2 m2] s H1 H2 Hs1 Hs2.
    apply elem_of_map_to_list in H1, H2.
    apply list_elem_of_fmap in Hs1 as ([s1 b1] & -> & Hs1).
    apply list_elem_of_fmap in Hs2 as ([s2 b2] & Heq & Hs2). cbn in Heq. subst s2.
    apply elem_of_map_to_list in Hs1, Hs2.
    assert (t1 = t2) as ->.
    { apply (Hone t1 t2 s1); apply elem_of_registered; eauto. }
    congruence.
  - intros [t m] _. apply NoDup_fst_map_to_list.
  - apply NoDup_map_to_list.
Qed.

(** *** The invariant holds along every schedule *)

Lemma inv_init : inv init.
Proof.
  split.
  - intros _ t s Hs. apply elem_of_registered in Hs as (m & Hm & _). done.
  - intros t1 t2 s Hs. apply elem_of_registered in Hs as (m & Hm & _). done.
  - constructor.
  - intros s Hs. by apply elem_of_nil in Hs.
  - done.
Qed.

Lemma inv_handle_sub req w :
  inv w → status w = Running → chan_open w (sub_sub req) →
  (∀ t, sub_sub req ∈ registered w t → t = sub_topic req) →
  inv (handle_sub req w).
Proof.
  intros [Hop Hone Hnd Hcl Hint] Hrun Hs Hfresh. split.
  - intros _ t s. rewrite registered_handle_sub.
    destruct (decide (t = sub_topic req)) as [->|Hne]; [|by apply Hop].
    rewrite elem_of_union, elem_of_singleton. intros [->|Hin]; [done|].
    by apply (Hop Hrun (sub_topic req)).
  - intros t1 t2 s. rewrite !registered_handle_sub.
    destruct (decide (t1 = sub_topic req)) as [->|Hne1];
      destruct (decide (t2 = sub_topic req)) as [->|Hne2]; try done.
    + rewrite elem_of_union, elem_of_singleton. intros [->|H1] H2.
      * symmetry. by apply Hfresh.
      * by apply (Hone _ _ s).
    + rewrite elem_of_union, elem_of_singleton. intros H1 [->|H2].
      * by apply Hfresh.
      * by apply (Hone _ _ s).
    + apply Hone.
  - done.
  - done.
  - done.
Qed.

Lemma inv_handle_unsub req w :
  inv w → status w = Running →
  inv (handle_unsub req w) ∧ panicked (handle_unsub req w) = panicked w
  ∧ status (handle_unsub req w) = Running.
Proof.
  intros [Hop Hone Hnd Hcl Hint] Hrun.
  destruct (decide (unsub_sub req ∈ registered w (unsub_topic req))) as [Hin|Hout];
    [|by rewrite handle_unsub_absent].
  rewrite handle_unsub_present by done.
  set (w1 := set_subscriptions _ w).
  assert (Hreg : ∀ t s, s ∈ registered w1 t → s ∈ registered w t ∧ s ≠ unsub_sub req).
  { intros t s. unfold w1. rewrite registered_unsub_update.
    destruct (decide (t = unsub_topic req)) as [->|Hne].
    - rewrite elem_of_difference, elem_of_singleton. done.
    - intros Hs. split; [done|]. intros ->. destruct Hne. by apply (Hone _ _ (unsub_sub req)). }
  assert (Hopen : chan_open w1 (unsub_sub req)) by (by apply (Hop Hrun (unsub_topic req))).
  rewrite close_chan_open by done. split_and!; [|done..].
  split; cbn.
  - intros _ t s Hs. apply Hreg in Hs as [Hs Hne].
    destruct (Hop Hrun t s Hs) as (ch & Hch & Hc). exists ch. cbn.
    by rewrite lookup_alter_ne.
  - intros t1 t2 s H1 H2. apply Hreg in H1 as [H1 _]. apply Hreg in H2 as [H2 _].
    by apply (Hone _ _ s).
  - apply NoDup_app. split_and!; [done| |apply NoDup_singleton].
    intros s Hs ->%list_elem_of_singleton. apply Hcl in Hs.
    by rewrite (chan_open_not_closed w) in Hs.
  - intros s. unfold is_closed. cbn. rewrite lookup_alter.
    rewrite elem_of_app, list_elem_of_singleton. intros [Hs| ->].
    + apply Hcl in Hs. unfold is_closed in Hs.
      destruct (decide (unsub_sub req = s)) as [->|Hne]; [|done].
      by destruct (chans w !! s).
    + rewrite decide_True by done. destruct Hopen as (ch & Hch & _). cbn in Hch. by rewrite Hch.
  - done.
Qed.

Lemma inv_handle_pub msg w : inv w → inv (handle_pub msg w).
Proof.
  intros Hinv. unfold handle_pub. destruct (_ !! _); [|done].
  destruct Hinv. by split.
Qed.

(** In a state the public operations reach, the stop branch closes open
    channels, each once: it does not panic. *)
Lemma handle_stop_with_inv l w :
  inv w → status w = Running → panicked w = None → l ≡ₚ stop_order w →
  handle_stop_with l w =
    run_exit (mkWorld (broker w) (status w) (close_chans l (chans w)) (tasks w)
                None (closes w ++ l) (inbox w)).
Proof.
  intros [Hop Hone Hnd Hcl Hint] Hrun Hp Hl. unfold handle_stop_with.
  rewrite close_all_open; [done| | |done].
  - rewrite Hl. by apply NoDup_stop_order.
  - intros s Hs. rewrite Hl in Hs. apply elem_of_stop_order in Hs as [t Ht]. by apply (Hop Hrun t).
Qed.

Lemma inv_handle_stop_with l w :
  inv w → status w = Running → panicked w = None → l ≡ₚ stop_order w →
  inv (handle_stop_with l w).
Proof.
  intros Hinv Hrun Hp Hl. rewrite handle_stop_with_inv by done.
  destruct Hinv as [Hop Hone Hnd Hcl Hint].
  assert (Hlop : ∀ s, s ∈ l → chan_open w s).
  { intros s Hs. rewrite Hl in Hs. apply elem_of_stop_order in Hs as [t Ht]. by apply (Hop Hrun t). }
  split; cbn.
  - done.
  - apply Hone.
  - apply NoDup_app. split_and!; [done| |rewrite Hl; by apply NoDup_stop_order].
    intros s Hs Hs'. apply Hcl in Hs. by rewrite (chan_open_not_closed w) in Hs by auto.
  - intros s. unfold is_closed. cbn. rewrite lookup_close_chans, elem_of_app.
    intros [Hs|Hs].
    + apply Hcl in Hs. unfold is_closed in Hs. destruct (chans w !! s); [|done].
      by destruct (decide (s ∈ l)).
    + rewrite decide_True by done. destruct (Hlop s Hs) as (ch & -> & _). done.
  - done.
Qed.

(** Steps that leave the broker, the closed flags and the log of closes
    alone keep the invariant. *)
Lemma inv_frame w w' :
  inv w → broker w' = broker w → status w' = status w → closes w' = closes w →
  (∀ s, chan_open w s → chan_open w' s) →
  (∀ s, is_closed w s = true → is_closed w' s = true) →
  inv w'.
Proof.
  intros [Hop Hone Hnd Hcl Hint] Hb Hs Hc Hopen Hclosed.
  assert (Hreg : ∀ t, registered w' t = registered w t).
  { intros t. unfold registered, topic_subs. by rewrite Hb. }
  split.
  - rewrite Hs. intros Hrun t s. rewrite Hreg. eauto.
  - intros t1 t2 s. rewrite !Hreg. apply Hone.
  - by rewrite Hc.
  - intros s. rewrite Hc. eauto.
  - by rewrite Hs, Hb.
Qed.

Lemma inv_set_panicked p w : inv w → inv (set_panicked p w).
Proof. intros H. by apply (inv_frame w). Qed.

Lemma after_branch_ok w : panicked w = None → after_branch w = w.
Proof. intros H. unfold after_branch. by rewrite H. Qed.

Lemma run_event_running w e :
  status w = Running → panicked w = None → run_event w e = after_branch (handle e w).
Proof. intros Hrun Hp. unfold run_event. by rewrite Hrun, Hp. Qed.

Lemma run_stop_with_running l w :
  status w = Running → panicked w = None →
  run_stop_with l w = after_branch (handle_stop_with l w).
Proof. intros Hrun Hp. unfold run_stop_with. by rewrite Hrun, Hp. Qed.

Lemma inv_run_stop_with l w :
  inv w → status w = Running → panicked w = None → l ≡ₚ stop_order w →
  run_stop_with l w = handle_stop_with l w ∧ inv (handle_stop_with l w)
  ∧ panicked (handle_stop_with l w) = None.
Proof.
  intros Hinv Hrun Hp Hl.
  pose proof (inv_handle_stop_with l w Hinv Hrun Hp Hl) as Hi.
  assert (Hp' : panicked (handle_stop_with l w) = None)
    by (by rewrite (handle_stop_with_inv l w)).
  by rewrite run_stop_with_running, after_branch_ok.
Qed.

Lemma inv_run_event w e :
  inv w →
  (∀ req, e = EvSub req →
     chan_open w (sub_sub req) ∧ ∀ t, sub_sub req ∈ registered w t → t = sub_topic req) →
  inv (run_event w e) ∧ panicked (run_event w e) = panicked w.
Proof.
  intros Hinv Hsub. unfold run_event.
  destruct (status w) eqn:Hrun; [|done].
  destruct (panicked w) eqn:Hp; [done|].
  assert (inv (handle e w) ∧ panicked (handle e w) = None) as [Hi Hp'];
    [|by rewrite after_branch_ok].
  destruct e as [|req|req|msg]; cbn [handle].
  - by apply inv_run_stop_with.
  - destruct (Hsub req eq_refl) as [Ho Hf]. split; [by apply inv_handle_sub|done].
  - destruct (inv_handle_unsub req w Hinv Hrun) as (Hi & Hp' & _).
    split; [done|congruence].
  - split; [by apply inv_handle_pub|].
    unfold handle_pub. destruct (_ !! _); cbn; congruence.
Qed.

Lemma inv_send_request fl e w :
  inv w →
  (∀ req, e = EvSub req →
     chan_open w (sub_sub req) ∧ ∀ t, sub_sub req ∈ registered w t → t = sub_topic req) →
  inv (default w (outcome_world (send_request fl e w))).
Proof.
  intros Hinv Hsub. unfold send_request. destruct fl; cbn.
  - by apply inv_set_panicked.
  - destruct (status w); cbn; [|done]. by apply inv_run_event.
Qed.

Lemma new_chan_fresh w : chans w !! new_chan w = None.
Proof. apply not_elem_of_dom. unfold new_chan. apply is_fresh. Qed.

Lemma inv_exec1 w a : inv w → inv (exec1 w a).
Proof.
  intros Hinv. unfold exec1, step.
  destruct (panicked w) eqn:Hp; [done|].
  destruct a as [topic|topic sub|topic payload| |l|k|k|sub]; cbn.
  - (* Subscribe *)
    unfold Subscribe.
    set (s := new_chan w).
    set (w1 := set_chans _ w).
    assert (Hfr : chans w !! s = None) by apply new_chan_fresh.
    assert (Hinv1 : inv w1).
    { apply (inv_frame w); try done.
      - intros s' (ch & Hch & Hc). exists ch. cbn. rewrite lookup_insert_ne; [done|]. congruence.
      - intros s'. unfold is_closed. cbn. destruct (decide (s = s')) as [<-|Hne].
        + by rewrite Hfr.
        + by rewrite lookup_insert_ne. }
    unfold send_request.
    change (subCh_closed (broker w1)) with (subCh_closed (broker w)).
    change (status w1) with (status w).
    destruct (subCh_closed (broker w)); cbn; [by apply inv_set_panicked|].
    destruct (status w) eqn:Hrun; cbn; [|done].
    apply inv_run_event; [done|]. intros req [= <-]. cbn. split.
    + exists (make_chan subscriberCapacity). split; [apply lookup_insert_eq|done].
    + intros t Ht.
      destruct (inv_open w Hinv Hrun t s Ht) as (ch & Hch & _). congruence.
  - apply inv_send_request; [done|]. intros req [=].
  - apply inv_send_request; [done|]. intros req [=].
  - unfold Stop. destruct (stopCh_closed (broker w)); cbn.
    + by apply inv_set_panicked.
    + destruct Hinv. by split.
  - destruct (status w) eqn:Hrun; [|done].
    destruct (stopCh_closed (broker w)); [|done]. cbn.
    destruct (bool_decide_reflect (l ≡ₚ stop_order w)) as [Hl|]; [cbn|done].
    by destruct (inv_run_stop_with l w) as (-> & ? & _).
  - unfold deliver. destruct (tasks w !! k) as [[s m]|]; [|done].
    destruct (chans w !! s) as [ch|] eqn:Hch; [|done].
    destruct (closed ch) eqn:Hc; cbn.
    + apply inv_set_panicked. by apply (inv_frame w).
    + destruct (decide _); cbn; [|done].
      apply (inv_frame w); try done.
      * intros s' (ch' & Hch' & Hc'). unfold chan_open. cbn. destruct (decide (s = s')) as [<-|Hne].
        -- rewrite lookup_insert_eq. eexists. done.
        -- rewrite lookup_insert_ne by done. by exists ch'.
      * intros s'. unfold is_closed. cbn. destruct (decide (s = s')) as [<-|Hne].
        -- rewrite Hch, Hc. done.
        -- by rewrite lookup_insert_ne.
  - unfold timeout. destruct (tasks w !! k); [|done]. cbn. by apply (inv_frame w).
  - unfold receive. destruct (chans w !! sub) as [[[|m rest] c cl]|] eqn:Hch; try done. cbn.
    apply (inv_frame w); try done.
    + intros s' (ch' & Hch' & Hc'). unfold chan_open. cbn.
      destruct (decide (sub = s')) as [<-|Hne].
      * rewrite lookup_insert_eq. eexists. split; [done|]. cbn. by simplify_eq.
      * rewrite lookup_insert_ne by done. by exists ch'.
    + intros s'. unfold is_closed. cbn. destruct (decide (sub = s')) as [<-|Hne].
      * rewrite Hch, lookup_insert_eq. done.
      * by rewrite lookup_insert_ne.
Qed.

Lemma inv_exec acts : ∀ w, inv w → inv (exec acts w).
Proof.
  induction acts as [|a acts IH]; intros w Hinv; [done|].
  cbn. apply IH. by apply inv_exec1.
Qed.

(** *** Closing at most once *)

Lemma is_registered_spec w t s : is_registered w t s = true ↔ s ∈ registered w t.
Proof. unfold is_registered, registered. rewrite bool_decide_eq_true. by rewrite elem_of_dom. Qed.

Lemma inv_closed_once w : inv w → closed_once_and_removed w.
Proof.
  intros Hinv. split.
  - apply (NoDup_count_occ Nat.eq_dec), NoDup_ListNoDup, (inv_closes_nodup w Hinv).
  - intros s Hs. destruct (status w) eqn:Hrun; [left|by right].
    intros t Ht. apply (inv_closes_closed w Hinv) in Hs.
    by rewrite (chan_open_not_closed w s) in Hs by (by apply (inv_open w Hinv Hrun t)).
Qed.

(** C1, as amended.  In every state the public operations reach (whatever
    the schedule of callers, coordinating routine, delivery goroutines and
    consumers), no handle's channel has been closed more than once, and a
    handle whose channel has been closed is in no topic's subscription set
    unless the broker has stopped.  [Subscribe] makes a new channel for every
    call, so in these states a handle is registered under at most one topic;
    the lemma after this one shows what [run] does with a handle submitted
    under two. *)
Theorem closed_once_when_reached_by_operations acts :
  closed_once_and_removed (exec acts init).
Proof. apply inv_closed_once, inv_exec, inv_init. Qed.

(** What [run] does with one handle submitted under two topics: the
    unsubscribe request for the first topic closes its channel while it stays
    registered under the second, and the unsubscribe request for the second
    calls [close] on it again. *)
Lemma handle_under_two_topics_closed_but_registered :
  let w := run [EvSub (mksubRequest "a" h0); EvSub (mksubRequest "b" h0);
                EvUnsub (mkunsubRequest "a" h0)]
             (NewBroker {[h0 := make_chan subscriberCapacity]}) in
  status w = Running ∧ panicked w = None ∧ closes w = [h0]
  ∧ h0 ∈ registered w "b" ∧ ¬ closed_once_and_removed w
  ∧ closes (run_event w (EvUnsub (mkunsubRequest "b" h0))) = [h0; h0].
Proof.
  cbv zeta.
  assert (Hreg : h0 ∈ registered (run [EvSub (mksubRequest "a" h0); EvSub (mksubRequest "b" h0);
                EvUnsub (mkunsubRequest "a" h0)]
             (NewBroker {[h0 := make_chan subscriberCapacity]})) "b").
  { apply is_registered_spec. vm_compute. reflexivity. }
  split; [vm_compute; reflexivity|].
  split; [vm_compute; reflexivity|].
  split; [vm_compute; reflexivity|].
  split; [exact Hreg|].
  split; [|vm_compute; reflexivity].
  intros [_ H]. destruct (H h0) as [Hn|Hs].
  - vm_compute. left.
  - by apply (Hn "b").
  - vm_compute in Hs. discriminate.
Qed.

(** *** The subscription sets follow the requests *)

Lemma broker_close_chan s w : broker (close_chan s w) = broker w.
Proof. unfold close_chan. cbn. destruct (chans w !! s) as [ch|]; [destruct (closed ch)|]; done. Qed.

Lemma status_close_chan s w : status (close_chan s w) = status w.
Proof. unfold close_chan. cbn. destruct (chans w !! s) as [ch|]; [destruct (closed ch)|]; done. Qed.

Lemma registered_broker w w' topic :
  subscriptions (broker w') = subscriptions (broker w) → registered w' topic = registered w topic.
Proof. intros H. unfold registered, topic_subs. by rewrite H. Qed.

Lemma registered_handle_unsub req w topic :
  registered (handle_unsub req w) topic =
  if decide (topic = unsub_topic req) then registered w topic ∖ {[unsub_sub req]}
  else registered w topic.
Proof.
  destruct (decide (unsub_sub req ∈ registered w (unsub_topic req))) as [Hin|Hout].
  - rewrite handle_unsub_present by done.
    rewrite (registered_broker _ _ _ (f_equal subscriptions (broker_close_chan _ _))).
    apply registered_unsub_update.
  - rewrite handle_unsub_absent by done.
    destruct (decide (topic = unsub_topic req)) as [->|]; [|done].
    apply set_eq. intros x. rewrite elem_of_difference, elem_of_singleton.
    split; [|tauto]. intros Hx. split; [done|]. by intros ->.
Qed.

Lemma status_handle_unsub req w : status (handle_unsub req w) = status w.
Proof.
  unfold handle_unsub. destruct (_ !! _) as [m|]; [|done].
  destruct (m !! _); [|done]. by rewrite status_close_chan.
Qed.

Lemma all_true_handle_sub req w : all_true w → all_true (handle_sub req w).
Proof.
  intros Hall t m s b. unfold handle_sub. cbn.
  destruct (decide (t = sub_topic req)) as [->|Hne].
  - rewrite lookup_insert_eq. intros [= <-].
    destruct (decide (s = sub_sub req)) as [->|Hne'].
    + rewrite lookup_insert_eq. congruence.
    + rewrite lookup_insert_ne by done.
      destruct (subscriptions (broker w) !! sub_topic req) as [m|] eqn:E; cbn.
      * rewrite E. cbn. by apply (Hall (sub_topic req)).
      * rewrite lookup_insert_eq. cbn. by rewrite lookup_empty.
  - rewrite lookup_insert_ne by done.
    destruct (subscriptions (broker w) !! sub_topic req) as [m'|] eqn:E.
    + apply Hall.
    + rewrite lookup_insert_ne by done. apply Hall.
Qed.

Lemma all_true_handle_unsub req w : all_true w → all_true (handle_unsub req w).
Proof.
  intros Hall t m s b. unfold handle_unsub.
  destruct (subscriptions (broker w) !! unsub_topic req) as [m'|] eqn:E; [|apply Hall].
  destruct (m' !! unsub_sub req) eqn:E'; [|apply Hall].
  rewrite broker_close_chan. cbn.
  destruct (decide (t = unsub_topic req)) as [->|Hne].
  - rewrite lookup_insert_eq. intros [= <-]. intros Hs.
    apply lookup_delete_Some in Hs as [_ Hs]. by apply (Hall _ _ s b E).
  - rewrite lookup_insert_ne by done. apply Hall.
Qed.

Lemma set_subscriptions_id w : set_subscriptions (subscriptions (broker w)) w = w.
Proof. by destruct w as [[] ? ? ? ? ? ?]. Qed.

Lemma handle_sub_registered req w :
  all_true w → sub_sub req ∈ registered w (sub_topic req) → handle_sub req w = w.
Proof.
  intros Hall (m & Hm & [b Hb])%elem_of_registered.
  assert (b = true) as -> by (by apply (Hall _ _ (sub_sub req) b Hm)).
  unfold handle_sub. rewrite Hm. cbn. rewrite Hm. cbn.
  rewrite (insert_id m) by done. rewrite insert_id by done.
  apply set_subscriptions_id.
Qed.

Lemma handle_sub_new_topic req w :
  subscriptions (broker w) !! sub_topic req = None →
  subscriptions (broker (handle_sub req w)) !! sub_topic req = Some {[sub_sub req := true]}.
Proof.
  intros Hn. unfold handle_sub. rewrite Hn. cbn. rewrite !lookup_insert_eq. cbn.
  reflexivity.
Qed.

Lemma run_snoc evs e w : run (evs ++ [e]) w = run_event (run evs w) e.
Proof. unfold run. by rewrite foldl_app. Qed.

Lemma run_event_not_panicked w e :
  panicked (run_event w e) = None →
  panicked w = None ∧ (status w = Running → run_event w e = handle e w).
Proof.
  unfold run_event, after_branch. destruct (status w) eqn:Hrun.
  - destruct (panicked w) eqn:Hp; [congruence|].
    destruct (panicked (handle e w)) eqn:Hp'; [|done].
    cbn. congruence.
  - done.
Qed.

(** The state after a run of requests that did not panic. *)
Lemma run_requests c reqs :
  let w := run (request_event <$> reqs) (NewBroker c) in
  panicked w = None →
  status w = Running ∧ all_true w ∧ ∀ topic, registered w topic = spec_registered topic reqs.
Proof.
  induction reqs as [|r reqs IH] using rev_ind; cbv zeta.
  - intros _. split_and!; [done| |done].
    intros t m s b Hm. done.
  - rewrite fmap_app. cbn [fmap list_fmap]. rewrite run_snoc.
    set (w := run (request_event <$> reqs) (NewBroker c)) in *.
    intros Hp. apply run_event_not_panicked in Hp as [Hp Heq].
    destruct (IH Hp) as (Hrun & Hall & Hreg). rewrite (Heq Hrun).
    unfold spec_registered. setoid_rewrite foldl_app. cbn [foldl].
    fold (spec_registered).
    destruct r as [req|req]; cbn [request_event handle spec_apply].
    + split_and!; [done|by apply all_true_handle_sub|].
      intros t. rewrite registered_handle_sub, Hreg. unfold spec_registered.
      destruct (decide (t = sub_topic req)) as [->|Hne].
      * rewrite decide_True by done. apply (comm_L (∪)).
      * rewrite decide_False by done. done.
    + split_and!; [by rewrite status_handle_unsub|by apply all_true_handle_unsub|].
      intros t. rewrite registered_handle_unsub, Hreg. unfold spec_registered.
      destruct (decide (t = unsub_topic req)) as [->|Hne].
      * rewrite decide_True by done. done.
      * rewrite decide_False by done. done.
Qed.

(** C2.  For every sequence of subscribe and unsubscribe requests that the
    coordinating routine of a fresh broker has processed (it has not panicked
    on the way), the handles registered under a topic are those the
    specification's fold gives: subscribed minus unsubscribed, in submission
    order, as a set, and the list [run] ranges over when publishing has no
    duplicates.  In the state reached, a subscribe request for a handle
    already registered under its topic changes nothing, and one for a topic
    that has no set yet creates the set. *)
Theorem subscription_sets_follow_requests c reqs :
  let w := run (request_event <$> reqs) (NewBroker c) in
  panicked w = None →
  (∀ topic, registered w topic = spec_registered topic reqs
            ∧ NoDup (map_to_list (topic_subs w topic)).*1)
  ∧ (∀ req, sub_sub req ∈ registered w (sub_topic req) → run_event w (EvSub req) = w)
  ∧ (∀ req, subscriptions (broker w) !! sub_topic req = None →
            subscriptions (broker (run_event w (EvSub req))) !! sub_topic req
            = Some {[sub_sub req := true]}).
Proof.
  cbv zeta. intros Hp. destruct (run_requests c reqs Hp) as (Hrun & Hall & Hreg).
  assert (Hev : ∀ req, run_event (run (request_event <$> reqs) (NewBroker c)) (EvSub req)
                       = handle_sub req (run (request_event <$> reqs) (NewBroker c))).
  { intros req. rewrite run_event_running by done. by apply after_branch_ok. }
  split_and!.
  - intros t. split; [apply Hreg|apply NoDup_fst_map_to_list].
  - intros req Hin. rewrite Hev. by apply handle_sub_registered.
  - intros req Hn. rewrite Hev. by apply handle_sub_new_topic.
Qed.

Lemma subscription_sets_follow_requests_witness :
  let reqs := [ReqSubscribe (mksubRequest "news" 0); ReqSubscribe (mksubRequest "news" 1);
               ReqSubscribe (mksubRequest "news" 0); ReqUnsubscribe (mkunsubRequest "news" 1);
               ReqUnsubscribe (mkunsubRequest "news" 1)] in
  let c : gmap Subscriber Chan := {[0 := make_chan 10; 1 := make_chan 10]} in
  panicked (run (request_event <$> reqs) (NewBroker c)) = None
  ∧ registered (run (request_event <$> reqs) (NewBroker c)) "news" = spec_registered "news" reqs.
Proof.
  cbv zeta. split; [vm_compute; reflexivity|].
  apply (subscription_sets_follow_requests
           ({[0 := make_chan 10; 1 := make_chan 10]} : gmap Subscriber Chan)
           [ReqSubscribe (mksubRequest "news" 0); ReqSubscribe (mksubRequest "news" 1);
            ReqSubscribe (mksubRequest "news" 0); ReqUnsubscribe (mkunsubRequest "news" 1);
            ReqUnsubscribe (mkunsubRequest "news" 1)]).
  vm_compute. reflexivity.
Defined.

(** *** Unsubscribing and publishing *)

Lemma chans_close_chan_ne s s' w : s' ≠ s → chans (close_chan s w) !! s' = chans w !! s'.
Proof.
  intros Hne. unfold close_chan. cbn.
  destruct (chans w !! s) as [ch|]; [|done].
  destruct (closed ch); [done|]. cbn. by rewrite lookup_insert_ne.
Qed.

Lemma run_event_unsub w req :
  status w = Running → panicked w = None →
  run_event w (EvUnsub req) = after_branch (handle_unsub req w).
Proof. apply run_event_running. Qed.

Lemma run_event_unsub_absent w req :
  unsub_sub req ∉ registered w (unsub_topic req) → run_event w (EvUnsub req) = w.
Proof.
  intros Hout. unfold run_event.
  destruct (status w); [|done]. destruct (panicked w) eqn:Hp; [done|].
  cbn [handle]. rewrite handle_unsub_absent by done. by apply after_branch_ok.
Qed.

(** C9.  Processing an unsubscribe request for [(topic, sub)] leaves the
    subscriber set of every other topic and the channel of every other handle
    as they were; it calls [close] on [sub] only when [sub] was registered
    under [topic]; and when [sub] is not registered under [topic] nothing
    changes at all, so a handle registered under another topic stays
    registered there with its channel open. *)
Theorem unsubscribe_touches_only_its_topic w topic sub :
  let w' := run_event w (EvUnsub (mkunsubRequest topic sub)) in
  (∀ t, t ≠ topic → subscriptions (broker w') !! t = subscriptions (broker w) !! t)
  ∧ (∀ s, s ≠ sub → chans w' !! s = chans w !! s)
  ∧ (is_closed w' sub ≠ is_closed w sub → sub ∈ registered w topic)
  ∧ (closes w' ≠ closes w → sub ∈ registered w topic)
  ∧ (sub ∉ registered w topic →
     w' = w ∧ ∀ t, sub ∈ registered w t → chan_open w sub →
                   sub ∈ registered w' t ∧ chan_open w' sub).
Proof.
  cbv zeta. set (req := mkunsubRequest topic sub).
  destruct (decide (sub ∈ registered w topic)) as [Hin|Hout].
  - split_and!; try done.
    + intros t Hne. unfold run_event.
      destruct (status w); [|done]. destruct (panicked w); [done|]. cbn [handle].
      assert (subscriptions (broker (handle_unsub req w)) !! t = subscriptions (broker w) !! t) as Hs.
      { rewrite (handle_unsub_present req w) by done. rewrite broker_close_chan. cbn.
        by rewrite lookup_insert_ne. }
      unfold after_branch. by destruct (panicked (handle_unsub req w)).
    + intros s Hne. unfold run_event.
      destruct (status w); [|done]. destruct (panicked w); [done|]. cbn [handle].
      assert (chans (handle_unsub req w) !! s = chans w !! s) as Hs.
      { rewrite (handle_unsub_present req w) by done. by rewrite chans_close_chan_ne. }
      unfold after_branch. by destruct (panicked (handle_unsub req w)).
  - rewrite (run_event_unsub_absent w req) by done. split_and!; done.
Qed.

Lemma unsubscribe_touches_only_its_topic_witness :
  let w := exec [ASubscribe "news"; ASubscribe "sports"] init in
  let w' := run_event w (EvUnsub (mkunsubRequest "news" 1)) in
  w' = w ∧ ∀ t, 1 ∈ registered w t → chan_open w 1 → 1 ∈ registered w' t ∧ chan_open w' 1.
Proof.
  cbv zeta.
  apply (unsubscribe_touches_only_its_topic
           (exec [ASubscribe "news"; ASubscribe "sports"] init) "news" 1).
  intros H%is_registered_spec. vm_compute in H. discriminate.
Defined.

(** C5.  Publishing to a topic with no registered subscriber is a no-op:
    [Publish] returns to its caller (it neither blocks nor panics) and the
    state after the coordinating routine has handled the request is the state
    before it: nothing queued, no delivery goroutine spawned, subscriptions
    unchanged. *)
Theorem publish_without_subscribers_is_noop w topic payload :
  status w = Running → panicked w = None → pubCh_closed (broker w) = false →
  registered w topic = ∅ →
  Publish topic payload w = Returns tt w
  ∧ run_event w (EvPub (mkMessage topic payload)) = w.
Proof.
  intros Hrun Hp Hch Hreg.
  assert (Hev : run_event w (EvPub (mkMessage topic payload)) = w).
  { rewrite run_event_running by done. cbn [handle].
    assert (handle_pub (mkMessage topic payload) w = w) as ->; [|by apply after_branch_ok].
    unfold handle_pub. cbn [Topic].
    unfold registered, topic_subs in Hreg.
    destruct (subscriptions (broker w) !! topic) as [m|]; [|done].
    cbn in Hreg. apply dom_empty_inv_L in Hreg as ->.
    rewrite map_to_list_empty. cbn. rewrite app_nil_r. by destruct w. }
  split; [|done]. unfold Publish, send_request. by rewrite Hch, Hrun, Hev.
Qed.

Lemma publish_without_subscribers_is_noop_witness :
  Publish "news" "hello" init = Returns tt init
  ∧ run_event init (EvPub (mkMessage "news" "hello")) = init.
Proof.
  apply (publish_without_subscribers_is_noop init "news" "hello");
    vm_compute; reflexivity.
Defined.

(** C4.  In every running state the public operations reach, [Unsubscribe]
    returns, and the request it hands to the coordinating routine: removes
    the handle from the topic's set and closes its channel (which was open,
    so [close] does not panic) when the handle is in that set; and changes
    nothing when it is not (handle removed before, unknown topic, unknown
    handle). *)
Theorem unsubscribe_removes_and_closes_or_ignores acts topic sub :
  let w := exec acts init in
  status w = Running → panicked w = None →
  let w' := run_event w (EvUnsub (mkunsubRequest topic sub)) in
  Unsubscribe topic sub w = Returns tt w'
  ∧ (sub ∈ registered w topic →
       registered w' topic = registered w topic ∖ {[sub]}
       ∧ is_closed w sub = false ∧ is_closed w' sub = true
       ∧ closes w' = closes w ++ [sub]
       ∧ status w' = Running ∧ panicked w' = None)
  ∧ (sub ∉ registered w topic → w' = w).
Proof.
  cbv zeta. set (w := exec acts init). set (req := mkunsubRequest topic sub).
  intros Hrun Hp.
  assert (Hinv : inv w) by apply inv_exec, inv_init.
  split_and!.
  - unfold Unsubscribe, send_request.
    destruct (inv_intake w Hinv Hrun) as (_ & -> & _). by rewrite Hrun.
  - intros Hin.
    assert (Hopen : chan_open w sub) by (by apply (inv_open w Hinv Hrun topic)).
    assert (Heq : run_event w (EvUnsub req) =
                  close_chan sub (set_subscriptions
                    (<[topic := delete sub (topic_subs w topic)]> (subscriptions (broker w))) w)).
    { rewrite run_event_unsub by done. rewrite (handle_unsub_present req w) by done.
      cbn [unsub_sub unsub_topic req]. rewrite close_chan_open by done.
      by apply after_branch_ok. }
    rewrite Heq. rewrite close_chan_open by done.
    split_and!; try done.
    + pose proof (registered_unsub_update w topic sub topic) as Hu.
      rewrite decide_True in Hu by done. exact Hu.
    + by apply chan_open_not_closed.
    + unfold is_closed. cbn. rewrite lookup_alter, decide_True by done.
      destruct Hopen as (ch & -> & _). done.
  - apply (run_event_unsub_absent w req).
Qed.

Lemma unsubscribe_removes_and_closes_or_ignores_witness :
  let w := exec [ASubscribe "news"; ASubscribe "news"] init in
  let w' := run_event w (EvUnsub (mkunsubRequest "news" 1)) in
  registered w' "news" = registered w "news" ∖ {[1]}
  ∧ is_closed w 1 = false ∧ is_closed w' 1 = true
  ∧ closes w' = closes w ++ [1]
  ∧ status w' = Running ∧ panicked w' = None.
Proof.
  cbv zeta.
  apply (unsubscribe_removes_and_closes_or_ignores [ASubscribe "news"; ASubscribe "news"] "news" 1).
  - vm_compute; reflexivity.
  - vm_compute; reflexivity.
  - apply is_registered_spec. vm_compute. reflexivity.
Defined.

(** *** Subscribing *)

(** Channels are never removed from the store. *)
Lemma dom_chans_close_chan s w : dom (chans (close_chan s w)) = dom (chans w).
Proof.
  unfold close_chan. cbn. destruct (chans w !! s) as [ch|] eqn:E; [|done].
  destruct (closed ch); [done|]. cbn. rewrite dom_insert_L.
  apply elem_of_dom_2 in E. apply subseteq_union_1_L. by apply singleton_subseteq_l.
Qed.

Lemma dom_chans_close_all l : ∀ w, dom (chans (close_all l w)) = dom (chans w).
Proof.
  induction l as [|s l IH]; intros w; [done|]. cbn.
  destruct (panicked (close_chan s w)).
  - apply dom_chans_close_chan.
  - by rewrite IH, dom_chans_close_chan.
Qed.

Lemma dom_chans_handle e w : dom (chans (handle e w)) = dom (chans w).
Proof.
  destruct e as [|req|req|msg]; cbn [handle].
  - apply dom_chans_close_all.
  - done.
  - unfold handle_unsub. destruct (_ !! _) as [m|]; [|done].
    destruct (m !! _); [|done]. by rewrite dom_chans_close_chan.
  - unfold handle_pub. by destruct (_ !! _).
Qed.

Lemma dom_chans_run_event w e : dom (chans (run_event w e)) = dom (chans w).
Proof.
  unfold run_event, after_branch.
  destruct (status w); [|done]. destruct (panicked w); [done|].
  pose proof (dom_chans_handle e w). by destruct (panicked (handle e w)).
Qed.

Lemma dom_chans_run_stop_with l w : dom (chans (run_stop_with l w)) = dom (chans w).
Proof.
  unfold run_stop_with, after_branch, handle_stop_with.
  destruct (status w); [|done]. destruct (panicked w); [done|].
  pose proof (dom_chans_close_all l w). by destruct (panicked (run_exit (close_all l w))).
Qed.

Lemma dom_chans_send_request fl e w w' :
  outcome_world (send_request fl e w) = Some w' → dom (chans w') = dom (chans w).
Proof.
  unfold send_request. destruct fl; cbn; [by intros [= <-]|].
  destruct (status w); cbn; [|done]. intros [= <-]. apply dom_chans_run_event.
Qed.

Lemma Subscribe_returns topic w sub w' :
  Subscribe topic w = Returns sub w' →
  sub = new_chan w ∧ status w = Running
  ∧ w' = run_event (set_chans (<[sub := make_chan subscriberCapacity]> (chans w)) w)
           (EvSub (mksubRequest topic sub)).
Proof.
  unfold Subscribe, send_request. cbn.
  destruct (subCh_closed (broker w)); [done|].
  destruct (status w); [|done]. by intros [= <- <-].
Qed.

Lemma dom_chans_step w a w' : step w a = Some w' → dom (chans w) ⊆ dom (chans w').
Proof.
  unfold step. destruct (panicked w); [done|].
  destruct a as [topic|topic sub|topic payload| |l|k|k|sub].
  - unfold Subscribe. cbn [outcome_world].
    set (w1 := set_chans _ w).
    intros H. assert (dom (chans w') = dom (chans w1)) as ->.
    { apply (dom_chans_send_request (subCh_closed (broker w1))
               (EvSub (mksubRequest topic (new_chan w)))).
      by destruct (send_request _ _ w1). }
    unfold w1. cbn. rewrite dom_insert_L. set_solver.
  - intros H. by rewrite (dom_chans_send_request _ _ _ _ H).
  - intros H. by rewrite (dom_chans_send_request _ _ _ _ H).
  - unfold Stop. destruct (stopCh_closed _); by intros [= <-].
  - destruct (status w); [|done]. destruct (_ && _); [|done].
    intros [= <-]. by rewrite dom_chans_run_stop_with.
  - unfold deliver. destruct (tasks w !! k) as [[s m]|]; [|done].
    destruct (chans w !! s) as [ch|] eqn:E; [|done].
    destruct (closed ch); [by intros [= <-]|].
    destruct (decide _); [|done]. intros [= <-]. cbn. rewrite dom_insert_L. set_solver.
  - unfold timeout. destruct (tasks w !! k); [|done]. by intros [= <-].
  - unfold receive. destruct (chans w !! sub) as [[[|m rest] c cl]|]; try done.
    intros [= <-]. cbn. rewrite dom_insert_L. set_solver.
Qed.

Lemma dom_chans_exec1 w a : dom (chans w) ⊆ dom (chans (exec1 w a)).
Proof.
  unfold exec1. destruct (step w a) eqn:E; [|done]. by apply (dom_chans_step w a).
Qed.

Lemma dom_chans_exec acts : ∀ w, dom (chans w) ⊆ dom (chans (exec acts w)).
Proof.
  induction acts as [|a acts IH]; intros w; [done|]. cbn.
  etrans; [apply (dom_chans_exec1 w a)|apply IH].
Qed.

(** Every handle [Subscribe] has returned is in the store. *)
Lemma subscribe_results_allocated acts : ∀ w s,
  s ∈ subscribe_results acts w → s ∈ dom (chans (exec acts w)).
Proof.
  induction acts as [|a acts IH]; intros w s; cbn.
  - by intros ?%elem_of_nil.
  - rewrite elem_of_app. intros [Hs|Hs]; [|by apply IH].
    apply dom_chans_exec.
    destruct a as [topic| | | | | | |]; try by apply elem_of_nil in Hs.
    destruct (panicked w) eqn:Hp; [by apply elem_of_nil in Hs|].
    destruct (Subscribe topic w) as [sub w'| |] eqn:E; try by apply elem_of_nil in Hs.
    apply list_elem_of_singleton in Hs as ->.
    unfold exec1, step. rewrite Hp, E. cbn.
    apply Subscribe_returns in E as (-> & _ & ->).
    rewrite dom_chans_run_event. cbn. rewrite dom_insert_L. set_solver.
Qed.

(** C7, as amended.  In every running state the public operations reach,
    for every topic, a [Subscribe] call whose request the coordinating
    routine accepts returns a handle whose channel is new (no channel of the
    store has its reference, and no earlier [Subscribe] of the schedule
    returned it), empty, open and of capacity 10, and on return the handle is
    registered under the topic, the other topics being as before.  (A call
    whose request is not accepted does not succeed: see the lemma after the
    witness.) *)
Theorem subscribe_returns_fresh_registered_handle acts topic :
  let w := exec acts init in
  status w = Running → panicked w = None →
  ∃ sub w',
    Subscribe topic w = Returns sub w'
    ∧ (sub ∉ subscribe_results acts init)
    ∧ chans w !! sub = None
    ∧ chans w' !! sub = Some (mkChan [] 10 false)
    ∧ registered w' topic = {[sub]} ∪ registered w topic
    ∧ (∀ t, t ≠ topic → registered w' t = registered w t)
    ∧ status w' = Running ∧ panicked w' = None.
Proof.
  cbv zeta. set (w := exec acts init). intros Hrun Hp.
  assert (Hinv : inv w) by apply inv_exec, inv_init.
  set (sub := new_chan w).
  set (w1 := set_chans (<[sub := make_chan subscriberCapacity]> (chans w)) w).
  set (req := mksubRequest topic sub).
  assert (Hfresh : chans w !! sub = None) by apply new_chan_fresh.
  assert (Hev : run_event w1 (EvSub req) = handle_sub req w1).
  { rewrite run_event_running by done. by apply after_branch_ok. }
  exists sub, (handle_sub req w1). split_and!.
  - unfold Subscribe, send_request. fold sub. fold w1. fold req.
    change (subCh_closed (broker w1)) with (subCh_closed (broker w)).
    change (status w1) with (status w).
    destruct (inv_intake w Hinv Hrun) as (-> & _ & _). by rewrite Hrun, Hev.
  - intros Hin%subscribe_results_allocated. fold w in Hin.
    by apply not_elem_of_dom in Hfresh.
  - done.
  - cbn. apply lookup_insert_eq.
  - rewrite registered_handle_sub. cbn [sub_topic req]. by rewrite decide_True.
  - intros t Hne. rewrite registered_handle_sub. cbn [sub_topic req]. by rewrite decide_False.
  - done.
  - done.
Qed.

Lemma subscribe_returns_fresh_registered_handle_witness :
  ∃ sub w',
    Subscribe "sports" (exec [ASubscribe "news"] init) = Returns sub w'
    ∧ (sub ∉ subscribe_results [ASubscribe "news"] init)
    ∧ chans (exec [ASubscribe "news"] init) !! sub = None
    ∧ chans w' !! sub = Some (mkChan [] 10 false)
    ∧ registered w' "sports" = {[sub]} ∪ registered (exec [ASubscribe "news"] init) "sports"
    ∧ (∀ t, t ≠ "sports" → registered w' t = registered (exec [ASubscribe "news"] init) t)
    ∧ status w' = Running ∧ panicked w' = None.
Proof.
  apply (subscribe_returns_fresh_registered_handle [ASubscribe "news"] "sports");
    vm_compute; reflexivity.
Defined.

(** A [Subscribe] call made while the broker is running does not always
    succeed.  After [Stop] the loop is still running.  A caller makes its
    channel and starts its send on [subCh]; the [select] of [run] now has
    two cases ready, the stop signal and the request.  When it takes the
    stop signal, [run] returns and its deferred function closes [subCh]:
    the send of the caller panics. *)
Lemma Subscribe_panics_when_run_takes_the_stop_signal :
  let w := exec [ASubscribe "news"; AStop] init in
  let sub := new_chan w in
  let w0 := PubSubSteps.alloc w in
  status w0 = Running ∧ panicked w0 = None
  ∧ ∃ w1, step w0 (ARunStop [h0]) = Some w1
          ∧ send_request (subCh_closed (broker w1)) (EvSub (mksubRequest "sports" sub)) w1
            = Panics (set_panicked SendOnClosedChannel w1).
Proof.
  cbv zeta. split; [reflexivity|]. split; [reflexivity|].
  eexists. split; vm_compute; reflexivity.
Qed.

(** *** Stopping *)

Lemma in_flight_set_panicked p w s m : in_flight (set_panicked p w) s m ↔ in_flight w s m.
Proof. done. Qed.

(** Once the loop of [run] is over, no step puts a new message on its way. *)
Lemma stopped_step w a w' :
  status w = Stopped → step w a = Some w' →
  status w' = Stopped ∧ length (tasks w') ≤ length (tasks w)
  ∧ ∀ s m, in_flight w' s m → in_flight w s m.
Proof.
  intros Hst. unfold step. destruct (panicked w); [done|].
  destruct a as [topic|topic sub|topic payload| |l|k|k|sub].
  - unfold Subscribe, send_request. cbn. rewrite Hst.
    destruct (subCh_closed (broker w)); [|done]. cbn. intros [= <-].
    split_and!; [done..|]. intros s m [Hf|[Hf|(ch & Hch & Hm)]].
    + by left.
    + by right; left.
    + right; right. cbn in Hch. destruct (decide (new_chan w = s)) as [<-|Hne].
      * rewrite lookup_insert_eq in Hch. injection Hch as <-. by apply elem_of_nil in Hm.
      * rewrite lookup_insert_ne in Hch by done. eauto.
  - unfold Unsubscribe, send_request. rewrite Hst.
    destruct (unsubCh_closed (broker w)); [|done]. by intros [= <-].
  - unfold Publish, send_request. rewrite Hst.
    destruct (pubCh_closed (broker w)); [|done]. by intros [= <-].
  - unfold Stop. destruct (stopCh_closed (broker w)); by intros [= <-].
  - by rewrite Hst.
  - unfold deliver. destruct (tasks w !! k) as [[s0 m0]|] eqn:Hk; [|done].
    destruct (chans w !! s0) as [ch0|] eqn:Hch0; [|done].
    assert (Hlen : length (delete k (tasks w)) ≤ length (tasks w)).
    { apply sublist_length, sublist_delete. }
    destruct (closed ch0).
    + intros [= <-]. split_and!; [done..|].
      intros s m [Hf|[Hf|Hf]]; [by left| |by right; right].
      right; left. by apply list_elem_of_delete_inv in Hf.
    + destruct (decide _); [|done]. intros [= <-]. split_and!; [done..|].
      intros s m [Hf|[Hf|(ch & Hch & Hm)]]; [by left| |].
      * right; left. by apply list_elem_of_delete_inv in Hf.
      * cbn in Hch. destruct (decide (s0 = s)) as [<-|Hne].
        -- rewrite lookup_insert_eq in Hch. injection Hch as <-. cbn in Hm.
           apply elem_of_app in Hm as [Hm| ->%list_elem_of_singleton].
           ++ right; right. eauto.
           ++ right; left. by apply list_elem_of_lookup_2 in Hk.
        -- rewrite lookup_insert_ne in Hch by done. right; right. eauto.
  - unfold timeout. destruct (tasks w !! k); [|done]. intros [= <-]. cbn.
    split_and!; [done|apply sublist_length, sublist_delete|].
    intros s m [Hf|[Hf|Hf]]; [by left| |by right; right].
    right; left. by apply list_elem_of_delete_inv in Hf.
  - unfold receive. destruct (chans w !! sub) as [[[|m0 rest] c cl]|] eqn:Hch0; try done.
    intros [= <-]. split_and!; [done..|].
    intros s m [Hf|[Hf|(ch & Hch & Hm)]]; cbn in *.
    + apply elem_of_app in Hf as [Hf|[= -> ->]%list_elem_of_singleton]; [by left|].
      right; right. exists (mkChan (m0 :: rest) c cl). split; [done|]. left.
    + by right; left.
    + right; right. destruct (decide (sub = s)) as [<-|Hne].
      * rewrite lookup_insert_eq in Hch. injection Hch as <-.
        exists (mkChan (m0 :: rest) c cl). split; [done|]. by right.
      * rewrite lookup_insert_ne in Hch by done. eauto.
Qed.

Lemma stopped_exec acts : ∀ w,
  status w = Stopped →
  status (exec acts w) = Stopped ∧ length (tasks (exec acts w)) ≤ length (tasks w)
  ∧ ∀ s m, in_flight (exec acts w) s m → in_flight w s m.
Proof.
  induction acts as [|a acts IH]; intros w Hst; [done|].
  change (exec (a :: acts) w) with (exec acts (exec1 w a)).
  assert (status (exec1 w a) = Stopped ∧ length (tasks (exec1 w a)) ≤ length (tasks w)
          ∧ ∀ s m, in_flight (exec1 w a) s m → in_flight w s m) as (Hst1 & Hlen1 & Hfl1).
  { unfold exec1. destruct (step w a) as [w1|] eqn:E; cbn; [by apply (stopped_step w a)|done]. }
  destruct (IH _ Hst1) as (Hst2 & Hlen2 & Hfl2).
  split_and!; [done|lia|eauto].
Qed.

(** C3, as amended.  In every running state the public operations reach,
    when the coordinating routine takes the stop signal, whatever the order
    [l] in which its loops visit the subscription maps: it closes the channel
    of every registered handle (the queued messages stay, and a drained
    channel reads as end of stream), the loop ends, and the three request
    channels are closed.  From then on [Publish] panics in its caller, the
    number of pending delivery goroutines never grows, and every message a
    consumer takes out of a handle had been accepted by the coordinating
    routine before it took the stop signal.  (Between the call of [Stop] and
    that moment the coordinating routine can still accept publish requests:
    see the lemma after the witness.) *)
Theorem stop_closes_every_handle_and_ends_the_loop acts l :
  let w := exec acts init in
  status w = Running → panicked w = None → l ≡ₚ stop_order w →
  let w' := handle_stop_with l w in
  (stopCh_closed (broker w) = true → step w (ARunStop l) = Some w')
  ∧ (∀ topic s, s ∈ registered w topic →
       ∃ ch, chans w !! s = Some ch ∧ closed ch = false
             ∧ chans w' !! s = Some (mark_closed ch)
             ∧ (buf ch = [] → end_of_stream w' s = true))
  ∧ status w' = Stopped ∧ panicked w' = None
  ∧ subCh_closed (broker w') = true ∧ unsubCh_closed (broker w') = true
  ∧ pubCh_closed (broker w') = true
  ∧ (∀ topic payload,
       Publish topic payload w' = Panics (set_panicked SendOnClosedChannel w'))
  ∧ (∀ acts', status (exec acts' w') = Stopped
              ∧ length (tasks (exec acts' w')) ≤ length (tasks w)
              ∧ ∀ s m, (s, m) ∈ inbox (exec acts' w') → in_flight w s m).
Proof.
  cbv zeta. set (w := exec acts init). intros Hrun Hp Hl.
  assert (Hinv : inv w) by apply inv_exec, inv_init.
  assert (Hstep : stopCh_closed (broker w) = true →
                  step w (ARunStop l) = Some (handle_stop_with l w)).
  { intros Hsig. unfold step. rewrite Hp, Hrun, Hsig, bool_decide_eq_true_2 by done.
    cbn. by destruct (inv_run_stop_with l w) as (-> & _). }
  revert Hstep. rewrite (handle_stop_with_inv l w) by done. intros Hstep.
  split_and!; try done.
  - intros topic s Hs. destruct (inv_open w Hinv Hrun topic s Hs) as (ch & Hch & Hc).
    exists ch. split_and!; [done..| |].
    + cbn. rewrite lookup_close_chans, Hch. rewrite decide_True; [done|].
      rewrite Hl. apply elem_of_stop_order. eauto.
    + intros Hb. unfold end_of_stream. cbn. rewrite lookup_close_chans, Hch.
      rewrite decide_True; [|rewrite Hl; apply elem_of_stop_order; eauto].
      cbn. unfold mark_closed. by rewrite Hb.
  - intros acts'.
    set (w' := run_exit _).
    destruct (stopped_exec acts' w' eq_refl) as (Hst & Hlen & Hfl).
    split_and!; [done..|].
    intros s m Hin.
    destruct (Hfl s m (or_introl Hin)) as [Hf|[Hf|(ch' & Hch' & Hm)]].
    + by left.
    + by right; left.
    + right; right. cbn in Hch'. rewrite lookup_close_chans in Hch'.
      destruct (chans w !! s) as [ch|] eqn:Hch.
      * exists ch. split; [done|]. destruct (decide (s ∈ l)); cbn in Hch'; by injection Hch' as <-.
      * by destruct (decide (s ∈ l)).
Qed.

Lemma stop_closes_every_handle_and_ends_the_loop_witness :
  let w := exec [ASubscribe "news"; ASubscribe "sports"; APublish "news" "x"; AStop] init in
  let w' := handle_stop_with [0; 1] w in
  status w' = Stopped ∧ panicked w' = None ∧ is_closed w' 0 = true ∧ is_closed w' 1 = true
  ∧ ∀ acts' s m, (s, m) ∈ inbox (exec acts' w') → in_flight w s m.
Proof.
  cbv zeta.
  destruct (stop_closes_every_handle_and_ends_the_loop
              [ASubscribe "news"; ASubscribe "sports"; APublish "news" "x"; AStop] [0; 1])
    as (_ & _ & Hst & Hp & _ & _ & _ & _ & Hafter).
  - vm_compute; reflexivity.
  - vm_compute; reflexivity.
  - vm_compute. apply perm_swap.
  - split; [exact Hst|]. split; [exact Hp|].
    split; [vm_compute; reflexivity|]. split; [vm_compute; reflexivity|].
    intros acts'. apply Hafter.
Defined.

(** [Stop] has returned, a message is published afterwards, and the
    subscriber receives it: the [select] of [run] took the publish request
    before the stop signal. *)
Lemma message_published_after_Stop_is_received :
  let w_stop := exec [ASubscribe "t"; AStop] init in
  let m := mkMessage "t" "x" in
  Stop (exec [ASubscribe "t"] init) = Returns tt w_stop
  ∧ stopCh_closed (broker w_stop) = true
  ∧ ¬ in_flight w_stop h0 m
  ∧ ∃ w, exec_strict [APublish "t" "x"; ADeliver 0; AReceive h0; ARunStop [h0]] w_stop
           = Some w
         ∧ inbox w = [(h0, m)] ∧ status w = Stopped ∧ panicked w = None.
Proof.
  cbv zeta. split; [vm_compute; reflexivity|]. split; [vm_compute; reflexivity|]. split.
  - intros [H|[H|(ch & Hch & Hm)]].
    + vm_compute in H. by apply elem_of_nil in H.
    + vm_compute in H. by apply elem_of_nil in H.
    + vm_compute in Hch. injection Hch as <-. by apply elem_of_nil in Hm.
  - eexists. split; [vm_compute; reflexivity|]. split_and!; reflexivity.
Qed.

(** *** Delivery order *)

Lemma queued_for_cons s s0 m0 ts :
  queued_for s ((s0, m0) :: ts) =
  if decide (s0 = s) then m0 :: queued_for s ts else queued_for s ts.
Proof.
  unfold queued_for. rewrite filter_cons. cbn. by destruct (decide (s0 = s)).
Qed.

Lemma queued_for_app s ts1 ts2 :
  queued_for s (ts1 ++ ts2) = queued_for s ts1 ++ queued_for s ts2.
Proof. unfold queued_for. by rewrite filter_app, fmap_app. Qed.

Lemma exec_cons a acts w : exec (a :: acts) w = exec acts (exec1 w a).
Proof. done. Qed.

Lemma handle_pub_fan_out msg w :
  handle_pub msg w = set_tasks (tasks w ++ fan_out w msg) w.
Proof.
  unfold handle_pub, fan_out, topic_subs.
  destruct (subscriptions (broker w) !! Topic msg); cbn; [done|].
  rewrite map_to_list_empty. cbn. rewrite app_nil_r. by destruct w.
Qed.

Lemma queued_for_fan_out s w msg :
  queued_for s (fan_out w msg) =
  if decide (s ∈ registered w (Topic msg)) then [msg] else [].
Proof.
  unfold fan_out, registered.
  pose proof (NoDup_fst_map_to_list (topic_subs w (Topic msg))) as Hnd.
  assert (Hin : ∀ x, x ∈ (map_to_list (topic_subs w (Topic msg))).*1
                     ↔ x ∈ dom (topic_subs w (Topic msg))).
  { intros x. rewrite elem_of_dom. rewrite list_elem_of_fmap. split.
    - intros ([x' b] & -> & Hx). apply elem_of_map_to_list in Hx. eauto.
    - intros [b Hb]. exists (x, b). split; [done|]. by apply elem_of_map_to_list. }
  revert Hnd Hin. generalize ((map_to_list (topic_subs w (Topic msg))).*1).
  generalize (dom (topic_subs w (Topic msg))). intros D l. revert D.
  induction l as [|x l IH]; intros D Hnd Hin.
  { cbn. destruct (decide (s ∈ D)) as [Hs|]; [|done].
    apply Hin in Hs. by apply elem_of_nil in Hs. }
  cbn [fmap list_fmap]. rewrite queued_for_cons.
  apply NoDup_cons in Hnd as [Hx Hnd].
  rewrite (IH (D ∖ {[x]}) Hnd).
  2:{ intros y. rewrite elem_of_difference, elem_of_singleton, <-Hin, elem_of_cons.
      split; [|tauto]. intros Hy. split; [by right|]. by intros ->. }
  assert (Hs : s ∈ D ↔ s = x ∨ s ∈ l) by (by rewrite <-Hin, elem_of_cons).
  assert (Hs' : s ∈ D ∖ {[x]} ↔ s ∈ D ∧ s ≠ x)
    by (by rewrite elem_of_difference, elem_of_singleton).
  destruct (decide (x = s)) as [Heq|Hne].
  - subst x. assert (H2 : s ∈ D) by (apply Hs; by left).
    assert (H1 : s ∉ D ∖ {[s]}) by (rewrite Hs'; tauto).
    destruct (decide (s ∈ D ∖ {[s]})); [done|]. by destruct (decide (s ∈ D)).
  - assert (H1 : s ∈ D ∖ {[x]} ↔ s ∈ D).
    { rewrite Hs'. split; [tauto|]. intros ?. split; [done|congruence]. }
    destruct (decide (s ∈ D ∖ {[x]})), (decide (s ∈ D)); try done; tauto.
Qed.

(** The sends of the delivery goroutines are not ordered by the code.  Two
    messages published to one topic, one subscriber with an almost empty
    queue, and the consumer receives the second message first: the delivery
    goroutine of the second publish sent before that of the first. *)
Lemma later_message_overtakes_earlier :
  ∃ w, exec_strict [ASubscribe "t"; APublish "t" "m1"; APublish "t" "m2";
                    ADeliver 1; ADeliver 0; AReceive h0; AReceive h0] init = Some w
       ∧ inbox w = [(h0, mkMessage "t" "m2"); (h0, mkMessage "t" "m1")]
       ∧ panicked w = None.
Proof. eexists. split; [vm_compute; reflexivity|]. split; reflexivity. Qed.

End PubSubProps.

(** ** Properties of the sums of squares *)

Module SumBenchmarkProps.
Import SumBenchmark.
Local Open Scope Z_scope.

(** *** Wrap-around arithmetic *)

Lemma wrap_in_range z : in_range (wrap z).
Proof. unfold in_range, wrap. pose proof (Z.mod_pos_bound (z + 2 ^ 63) (2 ^ 64)). lia. Qed.

Lemma wrap_small z : in_range z → wrap z = z.
Proof. unfold in_range, wrap. intros H. rewrite Z.mod_small by lia. lia. Qed.

Lemma wrap_add_l a b : wrap (wrap a + b) = wrap (a + b).
Proof.
  unfold wrap. f_equal.
  replace ((a + 2 ^ 63) mod 2 ^ 64 - 2 ^ 63 + b + 2 ^ 63)
    with ((a + 2 ^ 63) mod 2 ^ 64 + b) by lia.
  rewrite Zplus_mod_idemp_l. f_equal. lia.
Qed.

Lemma wrap_add_r a b : wrap (a + wrap b) = wrap (a + b).
Proof. rewrite (Z.add_comm a (wrap b)), wrap_add_l. f_equal. lia. Qed.

Lemma add_comm a b : add a b = add b a.
Proof. unfold add. f_equal. lia. Qed.

Lemma add_assoc a b c : add (add a b) c = add a (add b c).
Proof. unfold add. rewrite wrap_add_l, wrap_add_r. f_equal. lia. Qed.

Lemma add_in_range a b : in_range (add a b).
Proof. apply wrap_in_range. Qed.

(** *** The loops *)

Lemma sum_loop_cons v data acc :
  sum_loop (v :: data) acc = sum_loop data (add acc (mul v v)).
Proof. done. Qed.

Lemma sum_loop_in_range data : ∀ acc, in_range acc → in_range (sum_loop data acc).
Proof.
  induction data as [|v data IH]; intros acc Hacc; [done|].
  rewrite sum_loop_cons. apply IH, add_in_range.
Qed.

Lemma sum_loop_app l1 l2 acc : sum_loop (l1 ++ l2) acc = sum_loop l2 (sum_loop l1 acc).
Proof. unfold sum_loop. apply foldl_app. Qed.

Lemma sum_loop_acc data : ∀ acc, in_range acc → sum_loop data acc = add acc (sum_loop data 0).
Proof.
  induction data as [|v data IH]; intros acc Hacc.
  - cbn. unfold add. rewrite Z.add_0_r. by rewrite wrap_small.
  - rewrite !sum_loop_cons. rewrite (IH (add acc _)) by apply add_in_range.
    rewrite (IH (add 0 _)) by apply add_in_range.
    rewrite <-!add_assoc. f_equal. unfold add at 3. rewrite Z.add_0_r.
    by rewrite (wrap_small acc).
Qed.

Lemma collect_acc_perm (l l' : list Z) :
  l ≡ₚ l' → ∀ acc, foldl add acc l = foldl add acc l'.
Proof.
  induction 1 as [|x l l' _ IH|x y l|l l' l'' _ IH1 _ IH2]; intros acc; cbn.
  - done.
  - apply IH.
  - f_equal. rewrite !add_assoc. f_equal. apply add_comm.
  - by rewrite IH1.
Qed.

(** The total does not depend on the order in which the values arrive. *)
Lemma collect_arrival_order (l l' : list Z) : l ≡ₚ l' → collect l = collect l'.
Proof. intros H. by apply collect_acc_perm. Qed.

(** *** Chunks *)

Lemma slice_ok data low high :
  0 <= low → low <= high → high <= len data →
  slice data low high = Ok (take (Z.to_nat (high - low)) (drop (Z.to_nat low) data)).
Proof.
  intros H1 H2 H3. unfold slice.
  rewrite (proj2 (Z.leb_le _ _) H1), (proj2 (Z.leb_le _ _) H2), (proj2 (Z.leb_le _ _) H3). done.
Qed.

Lemma slice_panics data low high :
  high < low → slice data low high = Panicked (SliceBoundsOutOfRange low high).
Proof.
  intros H. unfold slice. rewrite (proj2 (Z.leb_gt _ _) H).
  by rewrite andb_false_r.
Qed.

(** The goroutines' values add up to the loop over the chunks laid end to
    end, as long as every chunk starts within the data. *)
Lemma spawn_sums data c :
  0 <= c → ∀ n i,
  0 <= i →
  (n ≠ 0%nat → (i + Z.of_nat n - 1) * c <= len data) →
  (i + Z.of_nat n) * c + c < 2 ^ 63 →
  ∃ sums, spawn data c i n = Ok sums
    ∧ ∀ acc, in_range acc →
        foldl add acc sums
        = sum_loop (take (n * Z.to_nat c) (drop (Z.to_nat (i * c)) data)) acc.
Proof.
  intros Hc. induction n as [|n IH]; intros i Hi Hfit Hsmall.
  - exists []. split; [done|]. intros acc _. done.
  - specialize (Hfit ltac:(done)).
    assert (Hic : 0 <= i * c <= len data) by nia.
    assert (Hstart : mul i c = i * c).
    { apply wrap_small. unfold in_range. nia. }
    assert (Hend : add (i * c) c = i * c + c).
    { apply wrap_small. unfold in_range. nia. }
    destruct (IH (i + 1)) as (sums & Hsp & Hsum); [lia| |lia|].
    { intros _. replace (i + 1 + Z.of_nat n - 1) with (i + Z.of_nat (S n) - 1) by lia. done. }
    cbn [spawn]. rewrite Hstart, Hend.
    rewrite slice_ok by lia. rewrite Hsp.
    eexists. split; [done|]. intros acc Hacc.
    set (a := Z.to_nat (i * c)) in *. set (c' := Z.to_nat c) in *.
    assert (Hchunk : take (Z.to_nat (Z.min (i * c + c) (len data) - i * c)) (drop a data)
                     = take c' (drop a data)).
    { destruct (Z.min_spec (i * c + c) (len data)) as [[_ ->]|[Hle ->]].
      - f_equal. lia.
      - rewrite !take_ge; [done|..]; rewrite length_drop; unfold len in *; lia. }
    rewrite Hchunk. cbn [foldl]. rewrite Hsum by apply add_in_range.
    unfold worker. rewrite <-sum_loop_acc by done. rewrite <-sum_loop_app.
    f_equal. replace (Z.to_nat ((i + 1) * c)) with (a + c')%nat by (unfold a, c'; nia).
    rewrite <-drop_drop. rewrite take_take_drop. f_equal.
Qed.

(** [sumSquaresConcurrent] returns the sequential sum whenever the start of
    the last chunk lies within the data. *)
Lemma sumSquaresConcurrent_correct data workers :
  1 <= workers → len data + workers < 2 ^ 62 →
  (workers - 1) * ((len data + workers - 1) / workers) <= len data →
  sumSquaresConcurrent data workers = Ok (sumSquaresSequential data).
Proof.
  intros Hw Hsmall Hfit. unfold sumSquaresConcurrent.
  assert (Hlen : 0 <= len data) by (unfold len; lia).
  rewrite (proj2 (Z.eqb_neq _ _)) by lia.
  rewrite (proj2 (Z.ltb_ge _ _)) by lia.
  assert (Hadd : add (len data) workers = len data + workers).
  { apply wrap_small. unfold in_range. lia. }
  assert (Hsub : sub (len data + workers) 1 = len data + workers - 1).
  { apply wrap_small. unfold in_range. lia. }
  rewrite Hadd, Hsub. clear Hadd Hsub. rewrite Z.quot_div_nonneg by lia.
  set (c := (len data + workers - 1) / workers) in *.
  assert (Hdm : len data + workers - 1 = workers * c + (len data + workers - 1) mod workers)
    by (apply Z.div_mod; lia).
  pose proof (Z.mod_pos_bound (len data + workers - 1) workers ltac:(lia)) as Hmod.
  assert (Hc : 0 <= c) by (apply Z.div_pos; lia).
  set (r := (len data + workers - 1) mod workers) in *. clearbody r c.
  assert (Hwc : len data <= workers * c <= len data + workers - 1) by lia.
  assert (Hcs : c <= len data + workers - 1) by nia.
  rewrite (wrap_small c) by (unfold in_range; lia).
  destruct (spawn_sums data c Hc (Z.to_nat workers) 0) as (sums & -> & Hsum); [lia| | |].
  - intros _. rewrite Z2Nat.id by lia. by rewrite Z.add_0_l.
  - rewrite Z2Nat.id by lia. lia.
  - f_equal. unfold collect. rewrite Hsum by (unfold in_range; lia).
    rewrite Z.mul_0_l. change (Z.to_nat 0) with 0%nat. rewrite drop_0.
    rewrite take_ge; [done|].
    rewrite <-Z2Nat.inj_mul by lia. unfold len in *. lia.
Qed.

(** With the start of some chunk past the end of the data, the slice
    expression panics. *)
Lemma spawn_panics data c n : ∀ i,
  0 <= c → 0 <= i → (i + Z.of_nat n) * c + c < 2 ^ 63 →
  (i - 1) * c <= len data →
  len data < (i + Z.of_nat n - 1) * c →
  ∃ low high, spawn data c i n = Panicked (SliceBoundsOutOfRange low high).
Proof.
  induction n as [|n IH]; intros i Hc Hi Hsmall Hprev Hpast.
  - exfalso. replace (i + Z.of_nat 0 - 1) with (i - 1) in Hpast by lia. lia.
  - assert (Hstart : mul i c = i * c).
    { apply wrap_small. unfold in_range. nia. }
    assert (Hend : add (i * c) c = i * c + c).
    { apply wrap_small. unfold in_range. nia. }
    cbn [spawn]. rewrite Hstart, Hend.
    destruct (decide (i * c <= len data)) as [Hle|Hgt].
    + rewrite slice_ok by lia.
      destruct (IH (i + 1)) as (low & high & ->); [lia|lia|lia| | |by eauto].
      * by replace (i + 1 - 1) with i by lia.
      * replace (i + 1 + Z.of_nat n - 1) with (i + Z.of_nat (S n) - 1) by lia. done.
    + rewrite slice_panics by lia. eauto.
Qed.

Lemma sumSquaresConcurrent_panics data workers :
  1 <= workers → len data + workers < 2 ^ 62 →
  len data < (workers - 1) * ((len data + workers - 1) / workers) →
  ∃ low high, sumSquaresConcurrent data workers = Panicked (SliceBoundsOutOfRange low high).
Proof.
  intros Hw Hsmall Hpast. unfold sumSquaresConcurrent.
  assert (Hlen : 0 <= len data) by (unfold len; lia).
  rewrite (proj2 (Z.eqb_neq _ _)) by lia.
  rewrite (proj2 (Z.ltb_ge _ _)) by lia.
  assert (Hadd : add (len data) workers = len data + workers).
  { apply wrap_small. unfold in_range. lia. }
  assert (Hsub : sub (len data + workers) 1 = len data + workers - 1).
  { apply wrap_small. unfold in_range. lia. }
  rewrite Hadd, Hsub. clear Hadd Hsub. rewrite Z.quot_div_nonneg by lia.
  set (c := (len data + workers - 1) / workers) in *.
  assert (Hdm : len data + workers - 1 = workers * c + (len data + workers - 1) mod workers)
    by (apply Z.div_mod; lia).
  pose proof (Z.mod_pos_bound (len data + workers - 1) workers ltac:(lia)) as Hmod.
  assert (Hc : 0 <= c) by (apply Z.div_pos; lia).
  set (r := (len data + workers - 1) mod workers) in *. clearbody r c.
  assert (Hcs : c <= len data + workers - 1) by nia.
  rewrite (wrap_small c) by (unfold in_range; lia).
  destruct (spawn_panics data c (Z.to_nat workers) 0) as (low & high & ->);
    [lia|lia| | | |by eauto].
  - rewrite Z2Nat.id by lia. lia.
  - lia.
  - rewrite Z2Nat.id by lia. by rewrite Z.add_0_l.
Qed.

(** C10.  With ten values and eight workers, which satisfies
    [1 <= workers <= len(data)], [sumSquaresSequential] returns 385 and
    [sumSquaresConcurrent] panics: the chunk size is 2, so the seventh chunk
    is [data[12:10]]. *)
Theorem sumSquaresConcurrent_ten_values_eight_workers :
  1 <= 8 <= len ten
  ∧ sumSquaresSequential ten = 385
  ∧ sumSquaresConcurrent ten 8 = Panicked (SliceBoundsOutOfRange 12 10).
Proof. split; [vm_compute; intuition discriminate|]. split; vm_compute; reflexivity. Qed.

End SumBenchmarkProps.

(** ** More properties of the broker *)

Module PubSubStepsProps.
Import PubSub PubSubProps PubSubSteps.

Lemma step_Step w a w' : inv w → step w a = Some w' → Step w a w'.
Proof.
  intros Hinv. unfold step. destruct (panicked w) eqn:Hp; [done|].
  destruct a as [topic|topic sub|topic payload| |l|k|k|sub].
  - unfold Subscribe, send_request. fold (alloc w).
    change (subCh_closed (broker (alloc w))) with (subCh_closed (broker w)).
    change (status (alloc w)) with (status w).
    destruct (subCh_closed (broker w)) eqn:Hc; cbn.
    + intros [= <-]. by constructor.
    + destruct (status w) eqn:Hrun; cbn; [|done]. intros [= <-].
      rewrite run_event_running by done. cbn [handle].
      rewrite after_branch_ok by done. exact (Step_subscribe w topic Hc Hrun).
  - unfold Unsubscribe, send_request.
    destruct (unsubCh_closed (broker w)) eqn:Hc; cbn.
    + intros [= <-]. by constructor.
    + destruct (status w) eqn:Hrun; cbn; [|done]. intros [= <-].
      destruct (decide (sub ∈ registered w topic)) as [Hin|Hout].
      * assert (Hopen : chan_open w sub) by (by apply (inv_open w Hinv Hrun topic)).
        rewrite run_event_running by done. cbn [handle].
        rewrite (handle_unsub_present (mkunsubRequest topic sub) w) by done.
        cbn [unsub_sub unsub_topic]. rewrite close_chan_open by done.
        rewrite after_branch_ok by done. exact (Step_unsubscribe w topic sub Hc Hrun Hin Hopen).
      * rewrite (run_event_unsub_absent w (mkunsubRequest topic sub)) by done.
        by constructor.
  - unfold Publish, send_request.
    destruct (pubCh_closed (broker w)) eqn:Hc; cbn.
    + intros [= <-]. by constructor.
    + destruct (status w) eqn:Hrun; cbn; [|done]. intros [= <-].
      rewrite run_event_running by done. cbn [handle]. rewrite handle_pub_fan_out.
      rewrite after_branch_ok by done. exact (Step_publish w topic payload Hc Hrun).
  - unfold Stop. destruct (stopCh_closed (broker w)) eqn:Hc; cbn; intros [= <-]; by constructor.
  - destruct (status w) eqn:Hrun; [|done].
    destruct (stopCh_closed (broker w)) eqn:Hc; [|done].
    destruct (bool_decide_reflect (l ≡ₚ stop_order w)) as [Hl|]; [cbn|done].
    intros [= <-]. destruct (inv_run_stop_with l w) as (-> & _); [done..|].
    rewrite (handle_stop_with_inv l w) by done. apply Step_run_stop; try done.
    + rewrite Hl. apply NoDup_stop_order, Hinv.
    + intros s Hs. rewrite Hl in Hs. apply elem_of_stop_order in Hs as [t Ht].
      by apply (inv_open w Hinv Hrun t).
  - unfold deliver. destruct (tasks w !! k) as [[s m]|] eqn:Hk; [|done].
    destruct (chans w !! s) as [ch|] eqn:Hch; [|done].
    destruct (closed ch) eqn:Hcl; cbn.
    + intros [= <-]. by econstructor.
    + destruct (decide _); [|done]. intros [= <-]. by econstructor.
  - unfold timeout. destruct (tasks w !! k) eqn:Hk; [|done]. intros [= <-]. by econstructor.
  - unfold receive. destruct (chans w !! sub) as [[[|m rest] c cl]|] eqn:Hch; try done.
    intros [= <-]. by constructor.
Qed.

(** A property kept by every step is kept along every schedule. *)
Lemma exec_Step_ind (P : World → Prop) :
  (∀ w a w', inv w → panicked w = None → Step w a w' → P w → P w') →
  ∀ acts w, inv w → P w → P (exec acts w).
Proof.
  intros Hstep. induction acts as [|a acts IH]; intros w Hinv HP; [done|].
  rewrite exec_cons. apply IH; [by apply inv_exec1|].
  unfold exec1. destruct (step w a) as [w'|] eqn:E; [|done]. cbn.
  apply (Hstep w a w'); try done.
  - unfold step in E. by destruct (panicked w).
  - by apply step_Step.
Qed.

Ltac simpl_world :=
  cbn [broker status chans tasks panicked closes inbox set_subscriptions set_chans
       set_tasks set_panicked log_close log_receive set_stop_signal run_exit alloc
       handle_sub subscriptions subCh_closed unsubCh_closed pubCh_closed stopCh_closed] in *.

(** *** Queues stay within their capacity *)

Lemma bounded_queues_Step w a w' : Step w a w' → bounded_queues w → bounded_queues w'.
Proof.
  intros Hs Hb. destruct Hs; try done.
  - intros s ch. simpl_world. destruct (decide (new_chan w = s)) as [<-|Hne].
    + rewrite lookup_insert_eq. intros [= <-]. split; [done|]. cbn. lia.
    + rewrite lookup_insert_ne by done. apply Hb.
  - intros s ch. simpl_world. destruct (decide (new_chan w = s)) as [<-|Hne].
    + rewrite lookup_insert_eq. intros [= <-]. split; [done|]. cbn. lia.
    + rewrite lookup_insert_ne by done. apply Hb.
  - intros s ch. simpl_world. rewrite lookup_alter.
    destruct (decide (sub = s)) as [Heq|Hne]; [subst s|by apply Hb].
    destruct (chans w !! sub) as [ch0|] eqn:E; [|done]. intros [= <-]. exact (Hb sub ch0 E).
  - intros s ch. simpl_world. rewrite lookup_close_chans.
    destruct (chans w !! s) as [ch0|] eqn:E; [|by destruct (decide (s ∈ l))].
    destruct (decide (s ∈ l)); cbn; intros [= <-]; exact (Hb s ch0 E).
  - intros s' ch'. simpl_world. destruct (decide (s = s')) as [<-|Hne].
    + rewrite lookup_insert_eq. intros [= <-]. destruct (Hb s ch) as [Hc Hl]; [done|].
      split; [done|]. cbn [buf]. rewrite length_app. cbn. lia.
    + rewrite lookup_insert_ne by done. apply Hb.
  - intros s' ch'. simpl_world. destruct (decide (s = s')) as [<-|Hne].
    + rewrite lookup_insert_eq. intros [= <-]. cbn.
      destruct (Hb s _ ltac:(eassumption)) as [Hc Hl]. cbn in *. split; [done|lia].
    + rewrite lookup_insert_ne by done. apply Hb.
Qed.

(** X1. In every state that the public operations, the stop branch of
    [run], the delivery goroutines and the consumers reach from a fresh
    broker, every subscriber channel has the capacity [Subscribe] gave it
    (10) and holds at most that many messages. *)
Theorem queues_never_exceed_capacity acts :
  bounded_queues (exec acts init).
Proof.
  apply (exec_Step_ind bounded_queues); [|apply inv_init|done].
  intros w a w' _ _. apply bounded_queues_Step.
Qed.

(** *** After [Stop] *)

Lemma stop_signal_Step w a w' :
  Step w a w' → stopCh_closed (broker w) = true → stopCh_closed (broker w') = true.
Proof. intros Hs Hc. destruct Hs; done. Qed.

Lemma inv_set_stop_signal w : inv w → inv (set_stop_signal w).
Proof. intros []. by split. Qed.

(** X2. Once a call of [Stop] has returned, every later call of [Stop]
    panics with a close of a closed channel, whatever the goroutines did in
    between: nothing reopens [stopCh]. *)
Theorem Stop_after_Stop_panics acts acts' w1 :
  Stop (exec acts init) = Returns tt w1 →
  Stop (exec acts' w1) = Panics (set_panicked CloseOfClosedChannel (exec acts' w1)).
Proof.
  unfold Stop at 1. destruct (stopCh_closed (broker (exec acts init))) eqn:Hc; [done|].
  intros [= <-].
  assert (Hinv : inv (exec acts init)) by apply inv_exec, inv_init.
  assert (stopCh_closed (broker (exec acts' (set_stop_signal (exec acts init)))) = true) as H.
  { apply (exec_Step_ind (λ w, stopCh_closed (broker w) = true)); [| |done].
    - intros w a w' _ _. apply stop_signal_Step.
    - by apply inv_set_stop_signal. }
  unfold Stop. by rewrite H.
Qed.

Lemma Stop_after_Stop_panics_witness :
  Stop (exec [APublish "news" "x"; ASubscribe "news"]
          (set_stop_signal (exec [ASubscribe "sports"] init)))
  = Panics (set_panicked CloseOfClosedChannel
              (exec [APublish "news" "x"; ASubscribe "news"]
                 (set_stop_signal (exec [ASubscribe "sports"] init)))).
Proof.
  apply (Stop_after_Stop_panics [ASubscribe "sports"] [APublish "news" "x"; ASubscribe "news"]).
  vm_compute. reflexivity.
Defined.

Lemma intake_closed_Step w a w' :
  Step w a w' → intake_closed_when_stopped w → intake_closed_when_stopped w'.
Proof.
  intros Hs Hi. destruct Hs; intros Hst; simpl_world;
    try (destruct (Hi Hst) as (?&?&?&?)); try done; congruence.
Qed.

(** X3. After [run] has returned, the broker cannot be used: from any
    state reached from a fresh broker in which the loop has ended,
    [Subscribe], [Unsubscribe] and [Publish] panic with a send on a closed
    channel, and [Stop] panics with a close of a closed channel. *)
Theorem operations_on_stopped_broker_panic acts topic payload sub :
  let w := exec acts init in
  status w = Stopped →
  Subscribe topic w = Panics (set_panicked SendOnClosedChannel (alloc w))
  ∧ Unsubscribe topic sub w = Panics (set_panicked SendOnClosedChannel w)
  ∧ Publish topic payload w = Panics (set_panicked SendOnClosedChannel w)
  ∧ Stop w = Panics (set_panicked CloseOfClosedChannel w).
Proof.
  cbv zeta. intros Hst.
  assert (intake_closed_when_stopped (exec acts init)) as Hi.
  { apply (exec_Step_ind intake_closed_when_stopped); [|apply inv_init|done].
    intros w a w' _ _. apply intake_closed_Step. }
  destruct (Hi Hst) as (H1 & H2 & H3 & H4).
  unfold Subscribe, Unsubscribe, Publish, Stop, send_request. cbn.
  by rewrite H1, H2, H3, H4.
Qed.

Lemma operations_on_stopped_broker_panic_witness :
  let w := exec [ASubscribe "news"; AStop; ARunStop [0]] init in
  Subscribe "news" w = Panics (set_panicked SendOnClosedChannel (alloc w))
  ∧ Unsubscribe "news" 0 w = Panics (set_panicked SendOnClosedChannel w)
  ∧ Publish "news" "x" w = Panics (set_panicked SendOnClosedChannel w)
  ∧ Stop w = Panics (set_panicked CloseOfClosedChannel w).
Proof.
  apply (operations_on_stopped_broker_panic [ASubscribe "news"; AStop; ARunStop [0]]
           "news" "x" 0).
  vm_compute. reflexivity.
Defined.

(** *** Where panics come from *)

Lemma panic_sources_mono w n n' : n ≤ n' → panic_sources w n → panic_sources w n'.
Proof. intros Hle (H1 & H2 & H3). split_and!; [| |done]; intros H; [apply H1 in H|apply H2 in H]; lia. Qed.

Lemma panic_sources_Step w a w' n :
  panicked w = None → Step w a w' → panic_sources w n →
  panic_sources w' (n + (if is_stop a then 1 else 0)).
Proof.
  intros Hp Hs (H1 & H2 & H3).
  destruct Hs; cbn [is_stop]; unfold panic_sources; simpl_world; rewrite ?Hp;
    (split_and!;
     [intros Hx; try specialize (H1 Hx); lia
     |intros Hx; try discriminate; try specialize (H1 ltac:(assumption)); lia
     |congruence]).
Qed.

Lemma panic_sources_exec acts : ∀ w n,
  inv w → panic_sources w n → panic_sources (exec acts w) (n + stop_calls acts).
Proof.
  induction acts as [|a acts IH]; intros w n Hinv Hq.
  - cbn. by rewrite Nat.add_0_r.
  - rewrite exec_cons.
    assert (Hn : n + stop_calls (a :: acts) = n + (if is_stop a then 1 else 0) + stop_calls acts).
    { unfold stop_calls. rewrite filter_cons.
      destruct (is_stop a); destruct (decide _) as [H|H]; cbn in *; try lia; try done. }
    rewrite Hn. apply IH; [by apply inv_exec1|].
    unfold exec1. destruct (step w a) as [w'|] eqn:E; cbn.
    + apply (panic_sources_Step w a w'); [|by apply step_Step|done].
      unfold step in E. by destruct (panicked w).
    + apply (panic_sources_mono w n); [lia|done].
Qed.

(** X4. The closes [run] performs never panic.  No schedule from a fresh
    broker ends in a close of a nil channel, and one that ends in a close of
    a closed channel contains at least two calls of [Stop]: the panic is the
    second [Stop]'s, not the loop's. *)
Theorem close_panic_needs_two_Stop_calls acts :
  panicked (exec acts init) ≠ Some CloseOfNilChannel
  ∧ (panicked (exec acts init) = Some CloseOfClosedChannel → 2 ≤ stop_calls acts).
Proof.
  destruct (panic_sources_exec acts init 0 inv_init) as (_ & H2 & H3).
  - split_and!; done.
  - done.
Qed.

Lemma close_panic_needs_two_Stop_calls_witness :
  2 ≤ stop_calls [AStop; AStop].
Proof.
  apply (close_panic_needs_two_Stop_calls [AStop; AStop]). vm_compute. reflexivity.
Defined.

(** *** Where messages come from *)

Lemma elem_of_fan_out w msg s m :
  (s, m) ∈ fan_out w msg ↔ m = msg ∧ s ∈ registered w (Topic msg).
Proof.
  unfold fan_out, registered. rewrite list_elem_of_fmap, elem_of_dom. split.
  - intros (s' & [= -> ->] & Hs). split; [done|].
    apply list_elem_of_fmap in Hs as ([s'' b] & -> & Hs). apply elem_of_map_to_list in Hs. eauto.
  - intros [-> [b Hb]]. exists s. split; [done|].
    apply list_elem_of_fmap. exists (s, b). split; [done|]. by apply elem_of_map_to_list.
Qed.

(** A step puts a message on its way to a handle only by accepting a
    publish request for a topic the handle is registered under. *)
Lemma in_flight_Step w a w' s m :
  Step w a w' → in_flight w' s m →
  in_flight w s m
  ∨ (a = APublish (Topic m) (Payload m) ∧ s ∈ registered w (Topic m)).
Proof.
  intros Hs. destruct Hs; intros Hf; try (by left).
  - left. destruct Hf as [Hf|[Hf|(ch & Hch & Hm)]]; [by left|by right; left|].
    right; right. simpl_world. destruct (decide (new_chan w = s)) as [<-|Hne].
    + rewrite lookup_insert_eq in Hch. injection Hch as <-. by apply elem_of_nil in Hm.
    + rewrite lookup_insert_ne in Hch by done. eauto.
  - left. destruct Hf as [Hf|[Hf|(ch & Hch & Hm)]]; [by left|by right; left|].
    right; right. simpl_world. destruct (decide (new_chan w = s)) as [<-|Hne].
    + rewrite lookup_insert_eq in Hch. injection Hch as <-. by apply elem_of_nil in Hm.
    + rewrite lookup_insert_ne in Hch by done. eauto.
  - left. destruct Hf as [Hf|[Hf|(ch & Hch & Hm)]]; [by left|by right; left|].
    right; right. simpl_world. rewrite lookup_alter in Hch.
    destruct (decide (sub = s)) as [->|Hne]; [|eauto].
    destruct (chans w !! s) as [ch0|]; [|done]. injection Hch as <-. eauto.
  - destruct Hf as [Hf|[Hf|Hf]]; [by left; left| |by left; right; right].
    simpl_world. apply elem_of_app in Hf as [Hf|Hf]; [by left; right; left|].
    apply elem_of_fan_out in Hf as [-> Hs]. right. done.
  - left. destruct Hf as [Hf|[Hf|(ch & Hch & Hm)]]; [by left|by right; left|].
    right; right. simpl_world. rewrite lookup_close_chans in Hch.
    destruct (chans w !! s) as [ch0|]; [|by destruct (decide (s ∈ l))].
    exists ch0. split; [done|]. destruct (decide (s ∈ l)); cbn in Hch; by injection Hch as <-.
  - left. destruct Hf as [Hf|[Hf|Hf]]; [by left| |by right; right].
    right; left. simpl_world. by apply list_elem_of_delete_inv in Hf.
  - left. destruct Hf as [Hf|[Hf|(ch' & Hch & Hm)]]; [by left| |].
    + right; left. simpl_world. by apply list_elem_of_delete_inv in Hf.
    + simpl_world. destruct (decide (s0 = s)) as [->|Hne].
      * rewrite lookup_insert_eq in Hch. injection Hch as <-. cbn in Hm.
        apply elem_of_app in Hm as [Hm| ->%list_elem_of_singleton].
        -- right; right. eauto.
        -- right; left. by eapply list_elem_of_lookup_2.
      * rewrite lookup_insert_ne in Hch by done. right; right. eauto.
  - left. destruct Hf as [Hf|[Hf|Hf]]; [by left| |by right; right].
    right; left. simpl_world. by apply list_elem_of_delete_inv in Hf.
  - left. destruct Hf as [Hf|[Hf|(ch' & Hch & Hm)]]; simpl_world.
    + apply elem_of_app in Hf as [Hf|[= -> ->]%list_elem_of_singleton]; [by left|].
      right; right. eexists. split; [done|]. left.
    + by right; left.
    + right; right. destruct (decide (s0 = s)) as [->|Hne].
      * rewrite lookup_insert_eq in Hch. injection Hch as <-.
        eexists. split; [done|]. by right.
      * rewrite lookup_insert_ne in Hch by done. eauto.
Qed.

(** A step registers a handle only by accepting the subscribe request of
    [Subscribe], for the channel it has just made. *)
Lemma registered_Step w a w' t s :
  Step w a w' → s ∈ registered w' t →
  s ∈ registered w t ∨ (a = ASubscribe t ∧ s = new_chan w).
Proof.
  intros Hs. destruct Hs; intros Hr; try (by left).
  - rewrite registered_handle_sub in Hr. cbn [sub_topic sub_sub] in Hr.
    destruct (decide (t = topic)) as [->|Hne]; [|by left].
    apply elem_of_union in Hr as [->%elem_of_singleton|Hr]; [by right|by left].
  - left. pose proof (registered_unsub_update w topic sub t) as Hu.
    unfold registered at 1 in Hr. unfold registered at 1 in Hu. unfold topic_subs at 1 in Hr.
    unfold topic_subs at 1 in Hu. simpl_world. rewrite Hu in Hr.
    destruct (decide (t = topic)); [|done]. by apply elem_of_difference in Hr as [Hr _].
Qed.

Lemma subscribe_pairs_cons a acts w :
  subscribe_pairs (a :: acts) w =
  match a, panicked w with
  | ASubscribe topic, None =>
      match Subscribe topic w with
      | Returns sub _ => [(sub, topic)]
      | _ => []
      end
  | _, _ => []
  end ++ subscribe_pairs acts (exec1 w a).
Proof. done. Qed.

Lemma pairs_ok_keep w a w' H :
  (∀ t s, s ∈ registered w' t → s ∈ registered w t) →
  (∀ s, is_Some (chans w !! s) → is_Some (chans w' !! s)) →
  Step w a w' → pairs_ok w H → pairs_ok w' H.
Proof.
  intros Hreg Hdom Hs (H1 & H2 & H3 & H4). split_and!; [by auto| |by eauto|done].
  intros s m Hf. destruct (in_flight_Step w a w' s m Hs Hf) as [?|[_ Hr]]; auto.
Qed.

Lemma Subscribe_panics topic w :
  subCh_closed (broker w) = true →
  Subscribe topic w = Panics (set_panicked SendOnClosedChannel (alloc w)).
Proof. intros Hc. unfold Subscribe, send_request. cbn. by rewrite Hc. Qed.

Lemma Subscribe_running topic w :
  subCh_closed (broker w) = false → status w = Running → panicked w = None →
  Subscribe topic w =
  Returns (new_chan w) (handle_sub (mksubRequest topic (new_chan w)) (alloc w)).
Proof.
  intros Hc Hrun Hp. unfold Subscribe, send_request. fold (alloc w).
  change (subCh_closed (broker (alloc w))) with (subCh_closed (broker w)).
  change (status (alloc w)) with (status w). rewrite Hc, Hrun.
  rewrite run_event_running by done. cbn [handle]. by rewrite after_branch_ok.
Qed.

Lemma pairs_ok_Step w a w' H :
  inv w → panicked w = None → step w a = Some w' → Step w a w' → pairs_ok w H →
  pairs_ok w' (H ++ match a with
                    | ASubscribe topic =>
                        match Subscribe topic w with
                        | Returns sub _ => [(sub, topic)]
                        | _ => []
                        end
                    | _ => []
                    end).
Proof.
  intros Hinv Hp Hstep Hs Hok.
  assert (Hdom : ∀ s, is_Some (chans w !! s) → is_Some (chans w' !! s)).
  { intros s. rewrite <-!elem_of_dom. apply (dom_chans_step w a w' Hstep). }
  destruct a as [topic|topic sub|topic payload| |l|k|k|sub];
    try (rewrite app_nil_r; refine (pairs_ok_keep w _ w' H _ Hdom Hs Hok);
         intros t s Hr; by destruct (registered_Step _ _ _ t s Hs Hr) as [?|[[=] _]]).
  destruct (subCh_closed (broker w)) eqn:Hc; [|destruct (status w) eqn:Hrun].
  - rewrite Subscribe_panics, app_nil_r by done.
    unfold step in Hstep. rewrite Hp, Subscribe_panics in Hstep by done. injection Hstep as <-.
    apply (pairs_ok_keep w (ASubscribe topic) _ H); [|done..]. by intros t s Hr.
  - rewrite Subscribe_running by done.
    pose proof Hstep as Hw'. unfold step in Hw'.
    rewrite Hp, Subscribe_running in Hw' by done. injection Hw' as <-.
    destruct Hok as (H1 & H2 & H3 & H4).
    assert (Hfresh : ∀ t, (new_chan w, t) ∉ H).
    { intros t Hin. apply H3 in Hin. rewrite new_chan_fresh in Hin. by destruct Hin. }
    split_and!.
    + intros t s Hr. apply elem_of_app.
      destruct (registered_Step _ _ _ t s Hs Hr) as [?|[[= ->] ->]]; [left; auto|right].
      by apply list_elem_of_singleton.
    + intros s m Hf. apply elem_of_app. left.
      destruct (in_flight_Step _ _ _ s m Hs Hf) as [?|[[=] _]]. auto.
    + intros s t [Hx|[= -> ->]%list_elem_of_singleton]%elem_of_app; [by eauto|].
      simpl_world. rewrite lookup_insert_eq. eauto.
    + intros s t1 t2 [Hx1|Hx1%list_elem_of_singleton]%elem_of_app
                     [Hx2|Hx2%list_elem_of_singleton]%elem_of_app.
      * eauto.
      * injection Hx2 as -> ->. by destruct (Hfresh t1).
      * injection Hx1 as -> ->. by destruct (Hfresh t2).
      * congruence.
  - exfalso. unfold step in Hstep. rewrite Hp in Hstep.
    unfold Subscribe, send_request in Hstep. cbn in Hstep. by rewrite Hc, Hrun in Hstep.
Qed.

Lemma pairs_ok_mono w H L : 
  (∀ s t, (s, t) ∈ L → False) → pairs_ok w H → pairs_ok w (H ++ L).
Proof.
  intros HL (H1 & H2 & H3 & H4). split_and!.
  - intros t s Hr. apply elem_of_app. left. auto.
  - intros s m Hf. apply elem_of_app. left. auto.
  - intros s t [?|?]%elem_of_app; [eauto|]. by destruct (HL s t).
  - intros s t1 t2 [?|?]%elem_of_app [?|?]%elem_of_app; try by destruct (HL s t1).
    + eauto.
    + by destruct (HL s t2).
Qed.

Lemma pairs_ok_exec acts : ∀ w H,
  inv w → pairs_ok w H → pairs_ok (exec acts w) (H ++ subscribe_pairs acts w).
Proof.
  induction acts as [|a acts IH]; intros w H Hinv Hok.
  - cbn. by rewrite app_nil_r.
  - rewrite exec_cons, subscribe_pairs_cons, app_assoc.
    apply IH; [by apply inv_exec1|].
    unfold exec1. destruct (step w a) as [w'|] eqn:E; cbn.
    + assert (Hp : panicked w = None) by (unfold step in E; by destruct (panicked w)).
      rewrite Hp. pose proof (pairs_ok_Step w a w' H Hinv Hp E (step_Step w a w' Hinv E) Hok) as Hn.
      by destruct a.
    + apply pairs_ok_mono; [|done]. intros s t.
      destruct a as [topic| | | | | | |]; try by intros ?%elem_of_nil.
      destruct (panicked w) eqn:Hp; [by intros ?%elem_of_nil|].
      unfold step in E. rewrite Hp in E.
      destruct (Subscribe topic w); try done. by intros ?%elem_of_nil.
Qed.

(** X5. No message crosses topics.  If a message is on its way to a
    handle (held by a pending delivery goroutine, queued in the channel, or
    received), then a [Subscribe] call for the message's topic returned that
    handle, and no [Subscribe] call for another topic did. *)
Theorem messages_reach_only_subscribers_of_their_topic acts s m :
  in_flight (exec acts init) s m →
  (s, Topic m) ∈ subscribe_pairs acts init
  ∧ ∀ topic, (s, topic) ∈ subscribe_pairs acts init → topic = Topic m.
Proof.
  intros Hf. destruct (pairs_ok_exec acts init [] inv_init) as (_ & H2 & _ & H4).
  - split_and!.
    + intros t s' (? & ? & ?)%elem_of_registered. done.
    + intros s' m' [Hx|[Hx|(ch & Hch & _)]]; try by apply elem_of_nil in Hx. done.
    + by intros s' t ?%elem_of_nil.
    + by intros s' t1 t2 ?%elem_of_nil.
  - cbn in *. split; [by apply H2|]. intros topic Ht. apply (H4 s); [done|by apply H2].
Qed.

Lemma messages_reach_only_subscribers_of_their_topic_witness :
  (0, "news") ∈ subscribe_pairs
                  [ASubscribe "news"; ASubscribe "sports"; APublish "news" "x"; ADeliver 0;
                   AReceive 0] init
  ∧ ∀ topic, (0, topic) ∈ subscribe_pairs
                            [ASubscribe "news"; ASubscribe "sports"; APublish "news" "x";
                             ADeliver 0; AReceive 0] init → topic = "news".
Proof.
  apply (messages_reach_only_subscribers_of_their_topic
           [ASubscribe "news"; ASubscribe "sports"; APublish "news" "x"; ADeliver 0; AReceive 0]
           0 (mkMessage "news" "x")).
  left. vm_compute. left.
Defined.

(** X6. A handle that exists and is registered under no topic gets
    nothing new: whatever is on its way to it later was on its way already.
    (What was published before the handle was removed can still arrive.) *)
Theorem unregistered_handle_gets_nothing_new acts acts' s m :
  let w := exec acts init in
  is_Some (chans w !! s) → (∀ topic, s ∉ registered w topic) →
  in_flight (exec acts' w) s m → in_flight w s m.
Proof.
  cbv zeta. set (w := exec acts init). intros Hs Hun.
  assert (Hinv : inv w) by apply inv_exec, inv_init.
  revert m.
  assert (is_Some (chans (exec acts' w) !! s) ∧ (∀ topic, s ∉ registered (exec acts' w) topic)
          ∧ ∀ m, in_flight (exec acts' w) s m → in_flight w s m) as (_ & _ & H); [|done].
  apply (exec_Step_ind (λ w', is_Some (chans w' !! s) ∧ (∀ topic, s ∉ registered w' topic)
                              ∧ ∀ m, in_flight w' s m → in_flight w s m)); [|done|done].
  intros w1 a w2 Hinv1 Hp Hst (Ha & Hu & Hf). split_and!.
  - apply elem_of_dom. apply elem_of_dom in Ha.
    assert (step w1 a = Some w2 ∨ True) as _ by (by right).
    clear -Hst Ha. destruct Hst; simpl_world; try done.
    + rewrite dom_insert_L. set_solver.
    + rewrite dom_insert_L. set_solver.
    + apply elem_of_dom. rewrite lookup_alter. apply elem_of_dom in Ha.
      destruct (decide (sub = s)) as [->|]; [|done]. destruct Ha as [? ->]. eauto.
    + apply elem_of_dom. rewrite lookup_close_chans. apply elem_of_dom in Ha.
      destruct Ha as [? ->]. destruct (decide (s ∈ l)); eauto.
    + rewrite dom_insert_L. set_solver.
    + rewrite dom_insert_L. set_solver.
  - intros t Hr. destruct (registered_Step _ _ _ t s Hst Hr) as [?|[_ ->]]; [by apply (Hu t)|].
    rewrite new_chan_fresh in Ha. by destruct Ha.
  - intros m Hf'. destruct (in_flight_Step _ _ _ s m Hst Hf') as [?|[_ Hr]]; [auto|].
    by destruct (Hu (Topic m)).
Qed.

Lemma unregistered_handle_gets_nothing_new_witness :
  in_flight (exec [ASubscribe "t"; APublish "t" "a"; AUnsubscribe "t" 0] init) 0
    (mkMessage "t" "a").
Proof.
  apply (unregistered_handle_gets_nothing_new
           [ASubscribe "t"; APublish "t" "a"; AUnsubscribe "t" 0] [APublish "t" "b"]).
  - vm_compute. eauto.
  - intros topic (m' & Hm & [b Hb])%elem_of_registered.
    assert (subscriptions (broker (exec [ASubscribe "t"; APublish "t" "a"; AUnsubscribe "t" 0] init))
            = {["t" := ∅]}) as Hsub by (vm_compute; reflexivity).
    rewrite Hsub in Hm. apply lookup_singleton_Some in Hm as [_ <-].
    by rewrite lookup_empty in Hb.
  - right; left. vm_compute. left.
Defined.

(** *** Deliveries that are pending when the channel is closed *)

(** X7. The delivery goroutines race with the closes of [run].  If a
    delivery to a registered handle is still pending when [Unsubscribe]
    closes the handle, or when the stop branch closes it, the send of that
    goroutine panics with a send on a closed channel. *)
Theorem pending_delivery_panics_after_close acts topic sub k m :
  let w := exec acts init in
  status w = Running → panicked w = None →
  sub ∈ registered w topic → tasks w !! k = Some (sub, m) →
  (∃ w1, Unsubscribe topic sub w = Returns tt w1
         ∧ deliver k w1
           = Panics (set_panicked SendOnClosedChannel (set_tasks (delete k (tasks w1)) w1)))
  ∧ (∀ l, l ≡ₚ stop_order w →
       deliver k (handle_stop_with l w)
       = Panics (set_panicked SendOnClosedChannel
                   (set_tasks (delete k (tasks w)) (handle_stop_with l w)))).
Proof.
  cbv zeta. set (w := exec acts init). intros Hrun Hp Hreg Hk.
  assert (Hinv : inv w) by apply inv_exec, inv_init.
  destruct (inv_open w Hinv Hrun topic sub Hreg) as (ch & Hch & Hcl).
  split.
  - eexists. split.
    + unfold Unsubscribe, send_request.
      destruct (inv_intake w Hinv Hrun) as (_ & -> & _). rewrite Hrun.
      rewrite run_event_running by done. cbn [handle].
      rewrite (handle_unsub_present (mkunsubRequest topic sub) w) by done.
      cbn [unsub_sub unsub_topic]. rewrite close_chan_open by (by exists ch).
      rewrite after_branch_ok by done. reflexivity.
    + unfold deliver. simpl_world. rewrite Hk. rewrite lookup_alter, decide_True, Hch by done.
      done.
  - intros l Hl. rewrite (handle_stop_with_inv l w) by done.
    unfold deliver. simpl_world. rewrite Hk, lookup_close_chans, Hch.
    rewrite decide_True; [done|]. rewrite Hl. apply elem_of_stop_order. eauto.
Qed.

Lemma pending_delivery_panics_after_close_witness :
  let w := exec [ASubscribe "t"; APublish "t" "x"] init in
  ∃ w1, Unsubscribe "t" 0 w = Returns tt w1
        ∧ deliver 0 w1
          = Panics (set_panicked SendOnClosedChannel (set_tasks (delete 0 (tasks w1)) w1)).
Proof.
  apply (pending_delivery_panics_after_close [ASubscribe "t"; APublish "t" "x"] "t" 0 0
           (mkMessage "t" "x")).
  - vm_compute; reflexivity.
  - vm_compute; reflexivity.
  - apply is_registered_spec. vm_compute; reflexivity.
  - vm_compute; reflexivity.
Defined.

(** *** Topics stay *)

Lemma subscriptions_close_all l : ∀ w,
  subscriptions (broker (close_all l w)) = subscriptions (broker w).
Proof.
  induction l as [|s l IH]; intros w; [done|]. cbn [close_all].
  destruct (panicked (close_chan s w)).
  - by rewrite broker_close_chan.
  - by rewrite IH, broker_close_chan.
Qed.

Lemma topics_handle e w topic :
  is_Some (subscriptions (broker w) !! topic) →
  is_Some (subscriptions (broker (handle e w)) !! topic).
Proof.
  intros Hs. destruct e as [|req|req|msg]; cbn [handle].
  - unfold handle_stop, handle_stop_with. simpl_world. by rewrite subscriptions_close_all.
  - unfold handle_sub. simpl_world.
    destruct (decide (sub_topic req = topic)) as [->|Hne]; [by rewrite lookup_insert_eq|].
    rewrite lookup_insert_ne by done.
    destruct (subscriptions (broker w) !! sub_topic req); [done|]. by rewrite lookup_insert_ne.
  - unfold handle_unsub. destruct (subscriptions (broker w) !! unsub_topic req) as [m|]; [|done].
    destruct (m !! unsub_sub req); [|done]. rewrite broker_close_chan. simpl_world.
    destruct (decide (unsub_topic req = topic)) as [->|Hne]; [by rewrite lookup_insert_eq|].
    by rewrite lookup_insert_ne.
  - unfold handle_pub. by destruct (subscriptions (broker w) !! Topic msg).
Qed.

(** X8. [run] never deletes a topic: a key of [subscriptions] stays a
    key under every sequence of events, also when its last subscriber is
    removed. *)
Theorem topics_are_never_removed evs w topic :
  is_Some (subscriptions (broker w) !! topic) →
  is_Some (subscriptions (broker (run evs w)) !! topic).
Proof.
  revert w. induction evs as [|e evs IH]; intros w Hs; [done|].
  change (run (e :: evs) w) with (run evs (run_event w e)). apply IH.
  unfold run_event. destruct (status w); [|done]. destruct (panicked w); [done|].
  pose proof (topics_handle e w topic Hs) as H. unfold after_branch.
  by destruct (panicked (handle e w)).
Qed.

Lemma topics_are_never_removed_witness :
  is_Some (subscriptions
             (broker (run [EvUnsub (mkunsubRequest "t" 0)]
                        (exec [ASubscribe "t"] init))) !! "t").
Proof.
  apply (topics_are_never_removed [EvUnsub (mkunsubRequest "t" 0)]).
  vm_compute. eauto.
Defined.

(** *** Consumers *)

(** X9. A consumer that receives as often as its channel holds messages
    gets them in queue order; the queue is then empty, and the next
    iteration of the [range] loop of the consumer ends the loop if the
    channel is closed and waits for a message if it is open. *)
Theorem consumer_drains_queue_in_order w s ch :
  panicked w = None → chans w !! s = Some ch →
  let w' := exec (replicate (length (buf ch)) (AReceive s)) w in
  inbox w' = inbox w ++ ((λ m, (s, m)) <$> buf ch)
  ∧ chans w' !! s = Some (mkChan [] (cap ch) (closed ch))
  ∧ range_next s w' = if closed ch then Ends else Waits.
Proof.
  destruct ch as [b c cl]. cbn [buf cap closed]. revert w.
  induction b as [|m b IH]; intros w Hp Hch; cbv zeta.
  - cbn [length replicate exec foldl fmap list_fmap]. rewrite app_nil_r.
    unfold range_next. rewrite Hch. by destruct cl.
  - cbn [length replicate]. rewrite exec_cons.
    assert (exec1 w (AReceive s)
            = log_receive s m (set_chans (<[s := mkChan b c cl]> (chans w)) w)) as ->.
    { unfold exec1, step, receive. by rewrite Hp, Hch. }
    destruct (IH (log_receive s m (set_chans (<[s := mkChan b c cl]> (chans w)) w)))
      as (Hi & Hc & Hr); [done|apply lookup_insert_eq|].
    split_and!; [|done..]. rewrite Hi. simpl_world. by rewrite <-app_assoc.
Qed.

Lemma consumer_drains_queue_in_order_witness :
  let w := exec [ASubscribe "t"; APublish "t" "a"; APublish "t" "b"; ADeliver 0; ADeliver 0;
                 AUnsubscribe "t" 0] init in
  let w' := exec (replicate 2 (AReceive 0)) w in
  inbox w' = inbox w ++ [(0, mkMessage "t" "a"); (0, mkMessage "t" "b")]
  ∧ chans w' !! 0 = Some (mkChan [] 10 true)
  ∧ range_next 0 w' = Ends.
Proof.
  apply (consumer_drains_queue_in_order
           (exec [ASubscribe "t"; APublish "t" "a"; APublish "t" "b"; ADeliver 0; ADeliver 0;
                  AUnsubscribe "t" 0] init)
           0 (mkChan [mkMessage "t" "a"; mkMessage "t" "b"] 10 true));
    vm_compute; reflexivity.
Defined.

(** *** At most one copy per publish *)

Lemma occurrences_cons `{EqDecision A} (x y : A) (l : list A) :
  occurrences x (y :: l) = (if decide (x = y) then 1 else 0) + occurrences x l.
Proof. unfold occurrences. rewrite filter_cons. by destruct (decide (x = y)). Qed.

Lemma occurrences_app `{EqDecision A} (x : A) (l1 l2 : list A) :
  occurrences x (l1 ++ l2) = occurrences x l1 + occurrences x l2.
Proof. unfold occurrences. by rewrite filter_app, length_app. Qed.

Lemma occurrences_delete `{EqDecision A} (x y : A) (l : list A) : ∀ k,
  l !! k = Some y →
  occurrences x l = (if decide (x = y) then 1 else 0) + occurrences x (delete k l).
Proof.
  induction l as [|z l IH]; intros [|k] Hk; try done.
  - injection Hk as ->. by rewrite occurrences_cons.
  - cbn in Hk. cbn [delete list_delete]. rewrite !occurrences_cons, (IH k Hk).
    apply Nat.add_shuffle3.
Qed.

Lemma occurrences_not_elem_of `{EqDecision A} (x : A) (l : list A) :
  x ∉ l → occurrences x l = 0.
Proof.
  induction l as [|y l IH]; [done|]. rewrite not_elem_of_cons. intros [Hne Hl].
  by rewrite occurrences_cons, decide_False, IH.
Qed.

Lemma occurrences_NoDup `{EqDecision A} (x : A) (l : list A) :
  NoDup l → occurrences x l ≤ 1.
Proof.
  induction 1 as [|y l Hy _ IH]; [cbn; lia|]. rewrite occurrences_cons.
  destruct (decide (x = y)) as [->|]; [|done].
  by rewrite occurrences_not_elem_of.
Qed.

Lemma occurrences_fan_out w msg s m :
  occurrences (s, m) (fan_out w msg) ≤ (if decide (m = msg) then 1 else 0).
Proof.
  unfold fan_out.
  pose proof (NoDup_fst_map_to_list (topic_subs w (Topic msg))) as Hnd.
  revert Hnd. generalize ((map_to_list (topic_subs w (Topic msg))).*1). intros l Hnd.
  destruct (decide (m = msg)) as [->|Hne].
  - etrans; [|apply (occurrences_NoDup s l Hnd)].
    clear Hnd. induction l as [|x l IH]; [done|].
    cbn [fmap list_fmap]. rewrite !occurrences_cons.
    destruct (decide ((s, msg) = (x, msg))) as [[= ->]|Hn].
    + rewrite decide_True by done. lia.
    + rewrite decide_False by congruence. lia.
  - clear Hnd. induction l as [|x l IH]; [done|].
    cbn [fmap list_fmap]. rewrite occurrences_cons, decide_False by congruence. exact IH.
Qed.


Lemma is_publish_of_spec m a :
  is_publish_of m a = true ↔ a = APublish (Topic m) (Payload m).
Proof.
  destruct m as [t p]. destruct a; cbn; try (split; [done|congruence]).
  rewrite bool_decide_eq_true. split; congruence.
Qed.

Ltac lia_cases :=
  unfold Task in *;
  repeat match goal with
         | |- context [if ?d then _ else _] => destruct d
         | H : context [if ?d then _ else _] |- _ => destruct d
         end;
  lia.

Lemma copies_Step w a w' s m :
  Step w a w' →
  copies w' s m ≤ copies w s m + (if is_publish_of m a then 1 else 0).
Proof.
  intros Hs. destruct Hs; unfold copies; simpl_world; cbn [is_publish_of]; try lia_cases.
  - destruct (decide (new_chan w = s)) as [<-|Hne].
    + rewrite lookup_insert_eq, new_chan_fresh. cbn -[occurrences].
      change (occurrences m []) with 0. lia_cases.
    + rewrite lookup_insert_ne by done. lia_cases.
  - destruct (decide (new_chan w = s)) as [<-|Hne].
    + rewrite lookup_insert_eq, new_chan_fresh. cbn -[occurrences].
      change (occurrences m []) with 0. lia_cases.
    + rewrite lookup_insert_ne by done. lia_cases.
  - rewrite lookup_alter. destruct (decide (sub = s)) as [->|]; [|lia_cases].
    destruct (chans w !! s); cbn -[occurrences]; lia_cases.
  - rewrite occurrences_app. pose proof (occurrences_fan_out w (mkMessage topic payload) s m) as Hf.
    destruct (decide (m = mkMessage topic payload)) as [->|Hne].
    + rewrite bool_decide_eq_true_2 by done. lia_cases.
    + rewrite bool_decide_eq_false_2 by congruence. lia_cases.
  - rewrite lookup_close_chans.
    destruct (chans w !! s); destruct (decide (s ∈ l)); cbn -[occurrences]; lia_cases.
  - rewrite (occurrences_delete (s, m) (s0, m0) (tasks w) k) by done. lia_cases.
  - rewrite (occurrences_delete (s, m) (s0, m0) (tasks w) k) by done.
    destruct (decide (s0 = s)) as [->|Hne].
    + rewrite lookup_insert_eq. rewrite H0. cbn [buf]. rewrite occurrences_app.
      unfold occurrences at 4. rewrite filter_cons, filter_nil.
      destruct (decide ((s, m) = (s, m0))) as [[= ->]|Hn].
      * rewrite decide_True by done. cbn -[occurrences]. lia_cases.
      * rewrite decide_False by congruence. cbn -[occurrences]. lia_cases.
    + rewrite lookup_insert_ne by done. rewrite decide_False by congruence. lia_cases.
  - rewrite (occurrences_delete (s, m) t (tasks w) k) by done. lia_cases.
  - rewrite occurrences_app. unfold occurrences at 2. rewrite filter_cons, filter_nil.
    destruct (decide (s0 = s)) as [->|Hne].
    + rewrite lookup_insert_eq, H. cbn [buf]. rewrite occurrences_cons.
      destruct (decide ((s, m) = (s, m0))) as [[= ->]|Hn].
      * rewrite decide_True by done. cbn -[occurrences]. lia_cases.
      * rewrite decide_False by congruence. cbn -[occurrences]. lia_cases.
    + rewrite lookup_insert_ne by done. rewrite decide_False by congruence. cbn -[occurrences]. lia_cases.
Qed.

Lemma publish_calls_cons m a acts :
  publish_calls m (a :: acts) = (if is_publish_of m a then 1 else 0) + publish_calls m acts.
Proof.
  unfold publish_calls. rewrite filter_cons.
  destruct (is_publish_of m a); destruct (decide _) as [H|H]; cbn in *; done.
Qed.

Lemma copies_exec acts s m : ∀ w,
  inv w → copies (exec acts w) s m ≤ copies w s m + publish_calls m acts.
Proof.
  induction acts as [|a acts IH]; intros w Hinv; [cbn; lia|].
  rewrite exec_cons, publish_calls_cons.
  etrans; [apply IH; by apply inv_exec1|].
  assert (copies (exec1 w a) s m ≤ copies w s m + (if is_publish_of m a then 1 else 0)); [|lia].
  unfold exec1. destruct (step w a) as [w'|] eqn:E; cbn; [|lia].
  apply copies_Step. by apply step_Step.
Qed.

(** X10. At most once.  The copies of a message that were received from
    a handle, are queued in it or are held for it by pending deliveries
    never exceed the number of [Publish] calls with that topic and
    payload. *)
Theorem at_most_one_copy_per_publish acts s m :
  copies (exec acts init) s m ≤ publish_calls m acts.
Proof. apply (copies_exec acts s m init inv_init). Qed.

(** *** Delivery order, in every run *)

Lemma queued_for_delete_other s s0 m0 ts : ∀ k,
  ts !! k = Some (s0, m0) → s0 ≠ s → queued_for s (delete k ts) = queued_for s ts.
Proof.
  induction ts as [|[s1 m1] ts IH]; intros [|k] Hk Hne; try done.
  - injection Hk as -> ->. change (delete 0 ((s0, m0) :: ts)) with ts.
    by rewrite queued_for_cons, decide_False.
  - change (delete (S k) ((s1, m1) :: ts)) with ((s1, m1) :: delete k ts).
    rewrite !queued_for_cons. by rewrite (IH k).
Qed.

Lemma queued_for_delete_first s m ts : ∀ k,
  ts !! k = Some (s, m) → s ∉ (take k ts).*1 →
  queued_for s ts = m :: queued_for s (delete k ts).
Proof.
  induction ts as [|[s1 m1] ts IH]; intros [|k] Hk Hnot; try done.
  - injection Hk as -> ->. change (delete 0 ((s, m) :: ts)) with ts.
    by rewrite queued_for_cons, decide_True.
  - change (delete (S k) ((s1, m1) :: ts)) with ((s1, m1) :: delete k ts).
    cbn [take fmap list_fmap] in Hnot. apply not_elem_of_cons in Hnot as [Hne Hnot].
    cbn [fst] in Hne. rewrite !queued_for_cons, !decide_False by congruence.
    by apply IH.
Qed.

Lemma exec_panicked acts : ∀ w p, panicked w = Some p → exec acts w = w.
Proof.
  induction acts as [|a acts IH]; intros w p Hp; [done|].
  rewrite exec_cons. assert (exec1 w a = w) as ->.
  { unfold exec1, step. by rewrite Hp. }
  by apply (IH w p).
Qed.

Lemma order_Step w a w' s hist :
  inv w → Step w a w' → in_spawn_order w a = true →
  panicked w = None → panicked w' = None →
  queued_for s (inbox w) ++ queue_of w s ++ queued_for s (tasks w) = hist →
  queued_for s (inbox w') ++ queue_of w' s ++ queued_for s (tasks w')
  = hist ++ spawned_for s w a.
Proof.
  intros Hinv Hs Hord Hp Hp' <-.
  destruct Hs; unfold queue_of, spawned_for; simpl_world; rewrite ?Hp; try done.
  - (* Subscribe *)
    rewrite app_nil_r. destruct (decide (new_chan w = s)) as [<-|Hne].
    + by rewrite lookup_insert_eq, new_chan_fresh.
    + by rewrite lookup_insert_ne.
  - by rewrite app_nil_r.
  - (* Unsubscribe *)
    rewrite app_nil_r, lookup_alter. destruct (decide (sub = s)) as [->|]; [|done].
    by destruct (chans w !! s).
  - (* Publish *)
    unfold Publish, send_request. rewrite H, H0.
    rewrite queued_for_app, queued_for_fan_out. cbn [Topic].
    by rewrite <- !app_assoc.
  - by rewrite app_nil_r.
  - (* the stop branch *)
    rewrite app_nil_r, lookup_close_chans.
    by destruct (chans w !! s); destruct (decide (s ∈ l)).
  - (* a delivery goroutine sends *)
    rewrite app_nil_r. cbn [in_spawn_order] in Hord. rewrite H in Hord.
    apply bool_decide_eq_true in Hord.
    destruct (decide (s0 = s)) as [->|Hne].
    + rewrite lookup_insert_eq, H0. cbn [buf].
      rewrite (queued_for_delete_first s m (tasks w) k) by done.
      by rewrite <- !app_assoc.
    + rewrite lookup_insert_ne by done.
      by rewrite (queued_for_delete_other s s0 m (tasks w) k).
  - (* a consumer receives *)
    rewrite app_nil_r, queued_for_app. destruct (decide (s0 = s)) as [->|Hne].
    + rewrite lookup_insert_eq, H. cbn [buf]. rewrite queued_for_cons, decide_True by done.
      by rewrite <- !app_assoc.
    + rewrite lookup_insert_ne by done. rewrite queued_for_cons, decide_False by done.
      by rewrite app_nil_r.
Qed.

Lemma spawned_for_blocked s w a : step w a = None → spawned_for s w a = [].
Proof.
  unfold step, spawned_for. destruct (panicked w); [by destruct a|].
  destruct a; try done. by destruct (Publish topic payload w).
Qed.

Lemma order_exec s acts : ∀ w hist,
  inv w → sends_follow_spawn_order acts w = true →
  panicked (exec acts w) = None →
  queued_for s (inbox w) ++ queue_of w s ++ queued_for s (tasks w) = hist →
  queued_for s (inbox (exec acts w)) ++ queue_of (exec acts w) s
    ++ queued_for s (tasks (exec acts w))
  = hist ++ published_to s acts w.
Proof.
  induction acts as [|a acts IH]; intros w hist Hinv Hord Hp Hh.
  - cbn. by rewrite app_nil_r.
  - cbn [sends_follow_spawn_order] in Hord. apply andb_prop in Hord as [Ha Hord].
    rewrite exec_cons in *. cbn [published_to]. rewrite (app_assoc hist).
    apply IH; [by apply inv_exec1|done|done|].
    unfold exec1 in *. destruct (step w a) as [w'|] eqn:E; cbn in *.
    + assert (Hpw : panicked w = None) by (unfold step in E; by destruct (panicked w)).
      assert (Hpw' : panicked w' = None).
      { destruct (panicked w') as [p|] eqn:Hq; [|done].
        by rewrite (exec_panicked acts w' p Hq), Hq in Hp. }
      apply (order_Step w a w'); try done. by apply step_Step.
    + by rewrite spawned_for_blocked, app_nil_r.
Qed.

(** C8, as amended.  Take any run from a fresh broker, of any length
    and with the calls, the deliveries and the receives interleaved in any
    way, in which no delivery goroutine gives up and the delivery goroutines
    bound for one handle send in the order in which they were spawned, and
    which ends without a panic.  Then for every handle the messages its
    consumer has received, followed by the messages queued in its channel
    and by those its pending delivery goroutines hold, are exactly the
    messages published to its topics while it was registered, once each, in
    the order in which the coordinating routine processed the publishes.  So
    what a consumer has received is an initial part of what was published to
    it: it receives a message before every message published later. *)
Theorem publish_order_kept_when_sends_follow_spawn_order acts s :
  sends_follow_spawn_order acts init = true →
  panicked (exec acts init) = None →
  let w := exec acts init in
  received_by w s ++ queue_of w s ++ pending_for w s = published_to s acts init
  ∧ received_by w s `prefix_of` published_to s acts init.
Proof.
  intros Hord Hp. cbv zeta.
  pose proof (order_exec s acts init [] inv_init Hord Hp eq_refl) as H. cbn [app] in H.
  split; [done|]. rewrite <- H. by eexists.
Qed.

Lemma publish_order_kept_when_sends_follow_spawn_order_witness :
  let w := exec two_subscribers_in_order init in
  received_by w 1 ++ queue_of w 1 ++ pending_for w 1
  = published_to 1 two_subscribers_in_order init
  ∧ received_by w 1 `prefix_of` published_to 1 two_subscribers_in_order init.
Proof.
  apply (publish_order_kept_when_sends_follow_spawn_order two_subscribers_in_order 1);
    vm_compute; reflexivity.
Defined.

End PubSubStepsProps.

(** ** More properties of the sums of squares *)

Module SumBenchmarkMainProps.
Import SumBenchmark SumBenchmarkProps SumBenchmarkMain.
Local Open Scope Z_scope.

(** *** What the sequential sum computes *)

Lemma sum_loop_wrap data : ∀ acc,
  in_range acc → sum_loop data acc = wrap (acc + sum_of_squares data).
Proof.
  induction data as [|v data IH]; intros acc Hacc.
  - cbn. rewrite Z.add_0_r. by rewrite wrap_small.
  - rewrite sum_loop_cons, IH by apply add_in_range.
    cbn [sum_of_squares foldr]. fold (sum_of_squares data).
    unfold add, mul. rewrite wrap_add_l.
    replace (acc + wrap (v * v) + sum_of_squares data)
      with (acc + sum_of_squares data + wrap (v * v)) by lia.
    rewrite wrap_add_r. f_equal. lia.
Qed.

(** X11. [sumSquaresSequential] returns the sum of the squares reduced
    to a 64-bit two's complement integer, for every slice: the overflows of
    the single multiplications and additions amount to one reduction of the
    exact sum. *)
Theorem sumSquaresSequential_is_sum_modulo data :
  sumSquaresSequential data = wrap (sum_of_squares data).
Proof.
  unfold sumSquaresSequential. rewrite sum_loop_wrap by (unfold in_range; lia). done.
Qed.

(** X12. The sequential sum of a concatenation is the (wrapping) sum of
    the sequential sums of the two parts. *)
Theorem sumSquaresSequential_app l1 l2 :
  sumSquaresSequential (l1 ++ l2) = add (sumSquaresSequential l1) (sumSquaresSequential l2).
Proof.
  unfold sumSquaresSequential. rewrite sum_loop_app.
  apply sum_loop_acc, sum_loop_in_range. unfold in_range. lia.
Qed.

Lemma sum_of_squares_perm l l' : l ≡ₚ l' → sum_of_squares l = sum_of_squares l'.
Proof.
  induction 1 as [|x l l' _ IH|x y l|l l' l'' _ IH1 _ IH2]; cbn; try lia.
  fold (sum_of_squares l) in *. fold (sum_of_squares l') in *. lia.
Qed.

(** X13. The sequential sum does not depend on the order of the values. *)
Theorem sumSquaresSequential_permutation l l' :
  l ≡ₚ l' → sumSquaresSequential l = sumSquaresSequential l'.
Proof.
  intros H. unfold sumSquaresSequential.
  rewrite !sum_loop_wrap by (unfold in_range; lia). by rewrite (sum_of_squares_perm l l').
Qed.

Lemma sumSquaresSequential_permutation_witness :
  sumSquaresSequential [3; 1; 2] = sumSquaresSequential [1; 2; 3].
Proof.
  apply sumSquaresSequential_permutation.
  etrans; [apply perm_swap|]. apply perm_skip, perm_swap.
Defined.

(** *** When the concurrent sum returns *)

(** X14. For a slice that is not empty and has fewer than [2^44] values,
    [sumSquaresConcurrent] returns a value exactly if there is at least one
    worker and the last chunk starts within the slice,
    [(workers - 1) * chunkSize <= len(data)]; the value is then that of
    [sumSquaresSequential].  (The condition bounds [workers] by
    [len(data) + 1], within the capacity [make] accepts.  An empty slice is
    left out: there every chunk is empty, whatever the number of workers.) *)
Theorem sumSquaresConcurrent_returns_iff data workers v :
  data ≠ [] → len data < 2 ^ 44 → workers < 2 ^ 61 →
  sumSquaresConcurrent data workers = Ok v
  ↔ 1 <= workers ∧ (workers - 1) * chunk_size data workers <= len data
    ∧ v = sumSquaresSequential data.
Proof.
  intros _ Hlen Hworkers.
  assert (Hsmall : len data + workers < 2 ^ 62) by lia.
  unfold chunk_size. split.
  - intros Hok. destruct (decide (1 <= workers)) as [Hw|Hw].
    + destruct (decide ((workers - 1) * ((len data + workers - 1) / workers) <= len data))
        as [Hfit|Hfit].
      * rewrite sumSquaresConcurrent_correct in Hok by done. by injection Hok as <-.
      * destruct (sumSquaresConcurrent_panics data workers) as (lo & hi & Hp); [done|done|lia|].
        congruence.
    + exfalso. unfold sumSquaresConcurrent in Hok.
      destruct (workers =? 0) eqn:E0; [done|].
      apply Z.eqb_neq in E0. rewrite (proj2 (Z.ltb_lt _ _)) in Hok by lia. done.
  - intros (Hw & Hfit & ->). by apply sumSquaresConcurrent_correct.
Qed.

Lemma sumSquaresConcurrent_returns_iff_witness :
  sumSquaresConcurrent ten 5 = Ok 385
  ↔ 1 <= 5 ∧ (5 - 1) * chunk_size ten 5 <= len ten ∧ 385 = sumSquaresSequential ten.
Proof. apply (sumSquaresConcurrent_returns_iff ten 5 385); [done|reflexivity..]. Defined.

Lemma square_fits_chunks (n workers : Z) :
  1 <= workers → (workers - 1) * (workers - 1) <= n → 0 <= n →
  (workers - 1) * ((n + workers - 1) / workers) <= n.
Proof.
  intros Hw Hsq Hn.
  set (c := (n + workers - 1) / workers).
  assert (Hdm : n + workers - 1 = workers * c + (n + workers - 1) mod workers)
    by (apply Z.div_mod; lia).
  pose proof (Z.mod_pos_bound (n + workers - 1) workers ltac:(lia)) as Hmod.
  set (r := (n + workers - 1) mod workers) in *. clearbody r c.
  assert (workers - 1 <= c) by nia. nia.
Qed.

(** X15. A slice of at least [(workers - 1)^2] values is enough: then
    [sumSquaresConcurrent] returns what [sumSquaresSequential] returns. *)
Theorem sumSquaresConcurrent_enough_data data workers :
  1 <= workers → (workers - 1) * (workers - 1) <= len data → len data + workers < 2 ^ 62 →
  sumSquaresConcurrent data workers = Ok (sumSquaresSequential data).
Proof.
  intros Hw Hsq Hsmall. apply sumSquaresConcurrent_correct; [done..|].
  apply square_fits_chunks; [done..|]. unfold len. lia.
Qed.

Lemma sumSquaresConcurrent_enough_data_witness :
  sumSquaresConcurrent ten 4 = Ok (sumSquaresSequential ten).
Proof. apply sumSquaresConcurrent_enough_data; vm_compute; congruence. Defined.

(** X16. The total of [sumSquaresConcurrent] does not depend on the
    order in which the goroutines send: for every order of arrival of the
    partial sums on [results], the second loop adds them up to the same
    value. *)
Theorem sumSquaresConcurrent_any_arrival_order data workers sums arrivals :
  1 <= workers →
  spawn data (wrap (Z.quot (sub (add (len data) workers) 1) workers)) 0 (Z.to_nat workers)
  = Ok sums →
  arrivals ≡ₚ sums →
  sumSquaresConcurrent data workers = Ok (collect arrivals).
Proof.
  intros Hw Hsp Hperm. unfold sumSquaresConcurrent.
  rewrite (proj2 (Z.eqb_neq _ _)) by lia. rewrite (proj2 (Z.ltb_ge _ _)) by lia.
  rewrite Hsp. f_equal. symmetry. by apply collect_arrival_order.
Qed.

Lemma sumSquaresConcurrent_any_arrival_order_witness :
  sumSquaresConcurrent [1; 2; 3; 4] 2 = Ok (collect [25; 5]).
Proof.
  apply (sumSquaresConcurrent_any_arrival_order [1; 2; 3; 4] 2 [5; 25] [25; 5]).
  - lia.
  - vm_compute. reflexivity.
  - apply perm_swap.
Defined.

(** *** [main] and the benchmark *)

Lemma generateData_length n intn data :
  generateData n intn = Some data → 0 <= n ∧ len data = n.
Proof.
  unfold generateData. destruct (n <? 0) eqn:E; [done|]. apply Z.ltb_ge in E.
  intros [= <-]. unfold len. rewrite length_fmap, length_seq. lia.
Qed.

(** X17. The two sums [main] prints, and the benchmark computes, are
    equal: for the five million values [generateData] makes, whatever
    [rand.Intn] returns, [sumSquaresConcurrent] with eight workers does not
    panic and returns what [sumSquaresSequential] returns. *)
Theorem main_sums_agree intn :
  ∃ data, generateData 5000000 intn = Some data
          ∧ sumSquaresConcurrent data 8 = Ok (sumSquaresSequential data).
Proof.
  destruct (generateData 5000000 intn) as [data|] eqn:E.
  - exists data. split; [done|]. apply generateData_length in E as [_ Hlen].
    apply sumSquaresConcurrent_correct; rewrite ?Hlen; [lia|reflexivity|].
    by vm_compute.
  - unfold generateData in E. change (5000000 <? 0) with false in E. done.
Qed.

Lemma sum_of_squares_bounds data :
  (∀ v, v ∈ data → 0 <= v < 1000) → 0 <= sum_of_squares data <= 998001 * len data.
Proof.
  induction data as [|v data IH]; intros Hr; [by vm_compute|].
  cbn [sum_of_squares foldr]. fold (sum_of_squares data).
  assert (0 <= v < 1000) by (apply Hr; left).
  assert (0 <= sum_of_squares data <= 998001 * len data) by (apply IH; intros; apply Hr; by right).
  unfold len in *. cbn [length]. nia.
Qed.

(** X18. On generated data nothing overflows: for fewer than [2^43]
    values, each in [0, 1000) as [rand.Intn(1000)] returns them,
    [sumSquaresSequential] is the exact sum of the squares, between [0] and
    [998001 * n]. *)
Theorem generated_data_sum_is_exact n intn data :
  intn_1000 intn → generateData n intn = Some data → n < 2 ^ 43 →
  sumSquaresSequential data = sum_of_squares data
  ∧ 0 <= sumSquaresSequential data <= 998001 * n.
Proof.
  intros Hr Hg Hn. destruct (generateData_length n intn data Hg) as [H0 Hlen].
  assert (Hb : 0 <= sum_of_squares data <= 998001 * len data).
  { apply sum_of_squares_bounds. unfold generateData in Hg.
    destruct (n <? 0); [done|]. injection Hg as <-.
    intros v (i & -> & _)%list_elem_of_fmap. apply Hr. }
  rewrite Hlen in Hb.
  assert (Heq : sumSquaresSequential data = sum_of_squares data).
  { unfold sumSquaresSequential. rewrite sum_loop_wrap by (unfold in_range; lia).
    apply wrap_small. unfold in_range. lia. }
  rewrite Heq. done.
Qed.

Lemma generated_data_sum_is_exact_witness :
  sumSquaresSequential [7; 7; 7] = sum_of_squares [7; 7; 7]
  ∧ 0 <= sumSquaresSequential [7; 7; 7] <= 998001 * 3.
Proof.
  apply (generated_data_sum_is_exact 3 (fun _ => 7) [7; 7; 7]).
  - intros i. lia.
  - reflexivity.
  - reflexivity.
Defined.

End SumBenchmarkMainProps.

(** ** Properties of the parallel digit count *)

Module ParallelDigitsProps.
Import SumBenchmark SumBenchmarkProps ParallelDigits.

Lemma merge_in_order_lookup entries : ∀ (f : gmap rune Z) k,
  NoDup entries.*1 →
  merge_in_order f entries !! k
  = match (list_to_map entries : gmap rune Z) !! k with
    | Some v => Some (add (default 0%Z (f !! k)) v)
    | None => f !! k
    end.
Proof.
  induction entries as [|[k0 v0] entries IH]; intros f k Hnd; [done|].
  rewrite fmap_cons in Hnd. apply NoDup_cons in Hnd as [Hk0 Hnd]. cbn [fst] in Hk0.
  cbn [merge_in_order foldl].
  fold (merge_in_order (add_count f (k0, v0)) entries). rewrite IH by done.
  change (list_to_map ((k0, v0) :: entries) : gmap rune Z)
    with (<[k0 := v0]> (list_to_map entries : gmap rune Z)).
  unfold add_count. cbn [fst snd]. destruct (decide (k = k0)) as [->|Hne].
  - assert (Hnone : (list_to_map entries : gmap rune Z) !! k0 = None)
      by (by apply not_elem_of_list_to_map_1).
    rewrite Hnone. by rewrite !lookup_insert_eq.
  - rewrite !lookup_insert_ne by done. done.
Qed.

Lemma merge_lookup (f m : gmap rune Z) k :
  merge f m !! k
  = match m !! k with
    | Some v => Some (add (default 0%Z (f !! k)) v)
    | None => f !! k
    end.
Proof.
  unfold merge. rewrite merge_in_order_lookup by apply NoDup_fst_map_to_list.
  by rewrite list_to_map_to_list.
Qed.

Lemma occ_cons k r w :
  occ k (r :: w) = ((if is_digit r then if decide (r = k) then 1 else 0 else 0) + occ k w)%nat.
Proof.
  unfold occ. rewrite filter_cons. destruct (decide (is_digit r = true)) as [E|E].
  - rewrite E, filter_cons. by destruct (decide (r = k)).
  - by destruct (is_digit r).
Qed.

Lemma count_runes_cons f r w :
  count_runes f (r :: w) = count_runes (if is_digit r then incr f r else f) w.
Proof. done. Qed.

Lemma count_runes_lookup w : ∀ (f : gmap rune Z) k,
  count_runes f w !! k
  = match occ k w with
    | O => f !! k
    | S _ => Some (wrap (default 0%Z (f !! k) + Z.of_nat (occ k w)))
    end.
Proof.
  induction w as [|r w IH]; intros f k; [done|].
  rewrite count_runes_cons, IH, occ_cons. destruct (is_digit r); [|done].
  unfold incr. destruct (decide (r = k)) as [->|Hne].
  - rewrite lookup_insert_eq. cbn [from_option id]. unfold add.
    destruct (occ k w) as [|n] eqn:E; cbn [Nat.add].
    + done.
    + f_equal. rewrite wrap_add_l. f_equal. lia.
  - rewrite lookup_insert_ne by done. done.
Qed.

Lemma merge_count_word f w : merge f (count_word w) = count_runes f w.
Proof.
  apply map_eq. intros k. rewrite merge_lookup. unfold count_word.
  rewrite !count_runes_lookup. rewrite lookup_empty. destruct (occ k w); [done|].
  cbn [from_option id]. unfold add. by rewrite Z.add_0_l, wrap_add_r.
Qed.

Lemma occs_cons k w ws : occs k (w :: ws) = (occ k w + occs k ws)%nat.
Proof. done. Qed.

Lemma foldl_count_runes_lookup ws : ∀ (f : gmap rune Z) k,
  foldl count_runes f ws !! k
  = match occs k ws with
    | O => f !! k
    | S _ => Some (wrap (default 0%Z (f !! k) + Z.of_nat (occs k ws)))
    end.
Proof.
  induction ws as [|w ws IH]; intros f k; [done|].
  cbn [foldl]. rewrite IH, occs_cons, count_runes_lookup.
  destruct (occ k w) as [|n] eqn:E1; [done|].
  destruct (occs k ws) as [|n'] eqn:E2; cbn [Nat.add from_option id].
  - by rewrite Nat.add_0_r.
  - f_equal. rewrite wrap_add_l. f_equal. lia.
Qed.

Lemma occs_perm k ws ws' : ws ≡ₚ ws' → occs k ws = occs k ws'.
Proof. intros H. unfold occs. by rewrite H. Qed.

Lemma sequential_perm ws ws' : ws ≡ₚ ws' → sequential ws = sequential ws'.
Proof.
  intros H. apply map_eq. intros k. unfold sequential.
  rewrite !foldl_count_runes_lookup. by rewrite (occs_perm k ws ws').
Qed.

Lemma sequential_snoc ws w : sequential (ws ++ [w]) = merge (sequential ws) (count_word w).
Proof. unfold sequential. rewrite foldl_app. cbn [foldl]. by rewrite merge_count_word. Qed.

Lemma sum_list_insert {A} (f : A → nat) (ws : list A) i old new :
  ws !! i = Some old →
  sum_list (f <$> <[i := new]> ws) + f old = sum_list (f <$> ws) + f new.
Proof.
  revert i. induction ws as [|x ws IH]; intros [|i] H; simplify_eq/=; [lia|].
  specialize (IH i H). lia.
Qed.

Lemma bind_insert_perm {A B} (f : A → list B) (ws : list A) i old new :
  ws !! i = Some old →
  (<[i := new]> ws ≫= f) ++ f old ≡ₚ (ws ≫= f) ++ f new.
Proof.
  revert i. induction ws as [|x ws IH]; intros [|i] H; simplify_eq/=.
  - etrans; [apply Permutation_app_comm|]. rewrite <- (assoc_L (++) (f old)).
    f_equiv. apply Permutation_app_comm.
  - rewrite <- !(assoc_L (++)). f_equiv. by apply IH.
Qed.

Lemma sum_exited_le ws : sum_list (exited <$> ws) ≤ length ws.
Proof. induction ws as [|[] ws IH]; cbn; lia. Qed.

Lemma all_exited ws i w :
  length ws ≤ sum_list (exited <$> ws) → ws !! i = Some w → w = Exited.
Proof.
  revert i. induction ws as [|x ws IH]; intros [|i] Hs H; simplify_eq/=.
  - pose proof (sum_exited_le ws). destruct w; cbn in Hs; try lia. done.
  - apply (IH i); [|done]. pose proof (sum_exited_le ws). destruct x; cbn in Hs; lia.
Qed.

Lemma some_not_exited ws :
  sum_list (exited <$> ws) < length ws → ∃ i w, ws !! i = Some w ∧ w ≠ Exited.
Proof.
  induction ws as [|x ws IH]; cbn; [lia|]. intros H.
  destruct x; try (by eexists 0, _).
  destruct IH as (i & w & Hi & Hw); [cbn in H; lia|]. by exists (S i), w.
Qed.

Ltac step_cases H :=
  unfold step in H;
  repeat (case_match; try done);
  simplify_eq.

Lemma counting_step s a s' : counting s → step s a = Some s' → counting s'.
Proof.
  intros [Hw Hd Hc Hp Ht Hr] H.
  destruct a; step_cases H.
  all: try (split; cbn; rewrite ?length_insert, ?length_app; cbn;
            try done; try (case_bool_decide; [lia|done]); try lia).
  all: try match goal with
    | E : workers ?s0 !! ?i = Some ?old |- context [<[?i := ?new]> (workers ?s0)] =>
        pose proof (sum_list_insert exited (workers s0) i old new E) as Hsum; cbn in Hsum; try lia
    end.
  all: try (intros; lia).
  all: cbn [length] in *; try lia.
  all: try (intros Hcl; specialize (Hc Hcl); case_bool_decide; try lia; done).
  - rewrite H3. cbn. lia.
  - exfalso. assert (Hall : length (workers s) ≤ sum_list (exited <$> workers s))
      by (rewrite <- Hd, Hw, Hc by done; lia).
    by pose proof (all_exited _ _ _ Hall H1).
  - rewrite H2. cbn. lia.
Qed.

Ltac perm_front :=
  rewrite <- ?(assoc_L (++)); cbn [app];
  repeat (rewrite <- Permutation_middle; cbn [app]);
  rewrite ?app_nil_r.

Ltac rew_state :=
  repeat match goal with
  | E : tasks ?s = _ |- context [tasks ?s] => rewrite E
  | E : words_left ?s = _ |- context [words_left ?s] => rewrite E
  | E : results ?s = _ |- context [results ?s] => rewrite E
  end.

Lemma held_insert ws i old new :
  ws !! i = Some old → held new = [] → (ws ≫= held) ≡ₚ (<[i := new]> ws ≫= held) ++ held old.
Proof.
  intros H Hn. rewrite (bind_insert_perm held ws i old new H), Hn. by rewrite app_nil_r.
Qed.

Lemma held_insert_sending ws i old w m :
  ws !! i = Some old → held old = [] →
  (<[i := Sending w m]> ws ≫= held) ≡ₚ w :: (ws ≫= held).
Proof.
  intros H Ho. pose proof (bind_insert_perm held ws i old (Sending w m) H) as HP.
  rewrite Ho, app_nil_r in HP. rewrite HP. cbn [held]. by rewrite <- Permutation_cons_append.
Qed.

Lemma holds_count_insert ws i new :
  Forall holds_count ws → holds_count new → Forall holds_count (<[i := new]> ws).
Proof. intros. by apply Forall_insert. Qed.

Lemma accounted_step words s a s' : accounted words s → step s a = Some s' → accounted words s'.
Proof.
  intros (merged & sent & dropped & Hf & Hr & Hh & Hp & Hd) H.
  destruct a; step_cases H; unfold accounted; cbn; rew_state.
  - (* Cancel *) by exists merged, sent, dropped.
  - (* ProducerSend *)
    exists merged, sent, dropped. cbn. split_and!; try done; try congruence.
    rewrite <- Hp. perm_front. done.
  - exists merged, sent, dropped; cbn; split_and!; try done; try congruence.
  - exists merged, sent, dropped; cbn; split_and!; try done; try congruence.
  - (* WorkerReceive *)
    exists merged, sent, dropped. cbn. split_and!; try done; try congruence.
    + by apply holds_count_insert.
    + rewrite <- Hp. rewrite held_insert_sending by done. perm_front. done.
  - (* WorkerTasksClosed *)
    exists merged, sent, dropped. cbn. split_and!; try done; try congruence.
    + by apply holds_count_insert.
    + rewrite <- Hp. rewrite (held_insert (workers s) i Selecting Exiting) by done.
      cbn [held]. by rewrite app_nil_r.
  - (* WorkerCancelled, at the outer select *)
    exists merged, sent, dropped. cbn. split_and!; try done; try congruence.
    + by apply holds_count_insert.
    + rewrite <- Hp. rewrite (held_insert (workers s) i Selecting Exiting) by done.
      cbn [held]. by rewrite app_nil_r.
  - (* WorkerCancelled, at the inner select: the count is dropped *)
    match goal with E : workers s !! i = Some (Sending ?w ?m) |- _ =>
      pose proof (held_insert (workers s) i (Sending w m) Exiting E eq_refl) as HP;
      exists merged, sent, (w :: dropped)
    end.
    cbn. split_and!; try done; try congruence.
    + by apply holds_count_insert.
    + rewrite <- Hp, HP. cbn [held]. perm_front. done.
  - (* WorkerSend on the closed channel *)
    by exists merged, sent, dropped.
  - (* WorkerSend *)
    match goal with E : workers s !! i = Some (Sending ?w ?m) |- _ =>
      pose proof (Forall_lookup_1 _ _ _ _ Hh E) as Hm; cbn in Hm;
      pose proof (held_insert (workers s) i (Sending w m) Selecting E eq_refl) as HP;
      exists merged, (sent ++ [w]), dropped
    end.
    cbn. split_and!; try done.
    + by rewrite fmap_app, Hm.
    + by apply holds_count_insert.
    + rewrite <- Hp, HP. cbn [held]. perm_front. done.
  - (* WorkerSignal *)
    exists merged, sent, dropped. cbn. split_and!; try done; try congruence.
    + by apply holds_count_insert.
    + rewrite <- Hp. rewrite (held_insert (workers s) i Exiting Exited) by done.
      cbn [held]. by rewrite app_nil_r.
  - exists merged, sent, dropped; cbn; split_and!; try done; try congruence.
  - exists merged, sent, dropped; cbn; split_and!; try done; try congruence.
  - (* MergeReceive *)
    destruct sent as [|w sent]; [done|]. injection Hr as -> ->.
    exists (merged ++ [w]), sent, dropped. cbn. split_and!; try done; try congruence.
    + by rewrite Hf, sequential_snoc.
    + rewrite <- Hp. perm_front. done.
  - exists merged, sent, dropped; cbn; split_and!; try done; try congruence.
  - exists merged, sent, dropped; cbn; split_and!; try done; try congruence.
Qed.

Lemma drained_step s a s' : drained s → step s a = Some s' → drained s'.
Proof.
  intros Hdr H. destruct a; step_cases H; unfold drained in *; cbn; try done.
  all: intros Hc; specialize (Hdr Hc) as [Hcl Hgone]; try congruence.
  all: split; try done; try congruence.
  all: intros j ws Hj Hg.
  all: try (apply list_lookup_insert_Some in Hj as [(-> & <- & _)|[_ Hj]];
            [try done|]).
  all: try (destruct (Hgone _ _ Hj Hg) as [Ht Htc]; try done; congruence).
  all: try (match goal with E : workers _ !! _ = Some _ |- _ =>
              destruct (Hgone _ _ E eq_refl) as [Ht Htc]; try done; congruence end).
Qed.

Lemma held_exited ws :
  (∀ i w, ws !! i = Some w → w = Exited) → ws ≫= held = [].
Proof.
  induction ws as [|x ws IH]; intros H; [done|].
  rewrite (H 0 x eq_refl). cbn. apply IH. intros i w Hi. by apply (H (S i)).
Qed.

Lemma result_ok_frame words s s' :
  returned s' = returned s → numWorkers s' = numWorkers s →
  (cancelled s' = false → cancelled s = false) →
  result_ok words s → result_ok words s'.
Proof.
  intros Hr Hn Hc Hok r Hret. rewrite Hr in Hret. destruct (Hok r Hret) as [H1 H2].
  split; [done|]. intros Hc' Hn'. apply H2; [by apply Hc|]. by rewrite <- Hn.
Qed.

Lemma merged_submseteq (merged rest words : list Word) :
  merged ++ rest ≡ₚ words → merged ⊆+ words.
Proof. intros <-. by apply submseteq_inserts_r. Qed.

Lemma result_ok_step words s a s' :
  good words s → step s a = Some s' → result_ok words s'.
Proof.
  intros [Hcnt Hacc Hdr Hok] H.
  destruct a;
    try (apply (result_ok_frame words s); [| | |done]; step_cases H; cbn;
         first [done | congruence]).
  - (* MergeClosed *)
    destruct Hacc as (merged & sent & dropped & Hf & Hr & Hh & Hp & Hd).
    step_cases H. intros r Hret. cbn in Hret. injection Hret as <-. cbn.
    split; [exists merged; split; [by eapply merged_submseteq|done]|].
    intros Hc Hn. rewrite Hf. apply sequential_perm. rewrite <- Hp.
    destruct Hcnt as [Hw Hdone Hcl _ _ _].
    assert (Hall : ∀ i w, workers s !! i = Some w → w = Exited).
    { intros i w. apply all_exited. rewrite <- Hdone, Hw, Hcl by done. lia. }
    destruct (Hdr Hc) as [Hwl Hgone].
    destruct (workers s) as [|w0 ws] eqn:Ew; [cbn in Hw; lia|].
    rewrite <- Ew in *.
    assert (Hw0 : workers s !! 0 = Some w0) by (by rewrite Ew).
    pose proof (Hall 0 w0 Hw0) as ->.
    destruct (Hgone 0 Exited Hw0 eq_refl) as [Ht Htc].
    rewrite held_exited, Ht, (Hwl Htc), (Hd Hc) by done.
    destruct sent; [|done]. by rewrite !app_nil_r.
  - (* MergeCancelled *)
    destruct Hacc as (merged & sent & dropped & Hf & Hr & Hh & Hp & Hd).
    step_cases H. intros r Hret. cbn in Hret. injection Hret as <-. cbn.
    split; [exists merged; split; [by eapply merged_submseteq|done]|].
    intros Hc. congruence.
Qed.

Lemma good_step words s a s' : good words s → step s a = Some s' → good words s'.
Proof.
  intros Hg H. pose proof Hg as [Hcnt Hacc Hdr Hok]. split.
  - by eapply counting_step.
  - by eapply accounted_step.
  - by eapply drained_step.
  - by eapply result_ok_step.
Qed.

Lemma exec1_cases s a : exec1 s a = s ∨ step s a = Some (exec1 s a).
Proof. unfold exec1. destruct (step s a); [by right|by left]. Qed.

Lemma good_exec words schedule : ∀ s, good words s → good words (exec schedule s).
Proof.
  induction schedule as [|a schedule IH]; intros s Hg; [done|].
  cbn [exec foldl]. apply IH. destruct (exec1_cases s a) as [->|H]; [done|].
  by eapply good_step.
Qed.

Lemma sum_exited_replicate n : sum_list (exited <$> replicate n Selecting) = 0.
Proof. induction n; [done|]. cbn. done. Qed.

Lemma held_replicate n : replicate n Selecting ≫= held = [].
Proof. induction n; [done|]. cbn. done. Qed.

Lemma good_start ctx_done words n s : start ctx_done words n = Some s → good words s.
Proof.
  unfold start. destruct (n <? 0)%Z; [done|]. intros [= <-]. split.
  - split; cbn; try done; try lia.
    + by rewrite length_replicate.
    + by rewrite sum_exited_replicate.
  - exists [], [], []. cbn. split_and!; try done.
    + apply Forall_replicate. done.
    + by rewrite held_replicate, app_nil_r.
  - intros Hc. cbn. split; [done|]. intros i ws [-> _]%lookup_replicate. done.
  - intros r. done.
Qed.

Lemma exec_strict_exec schedule : ∀ s s', exec_strict schedule s = Some s' → exec schedule s = s'.
Proof.
  induction schedule as [|a schedule IH]; intros s s' H; cbn in H; [by injection H as <-|].
  destruct (step s a) as [s1|] eqn:E; [|done]. cbn in H.
  cbn [exec foldl]. unfold exec1. rewrite E. by apply IH.
Qed.

Lemma cancelled_step s a s' : a ≠ Cancel → step s a = Some s' → cancelled s' = cancelled s.
Proof. intros Ha H. destruct a; step_cases H; done. Qed.

Lemma cancelled_exec schedule : ∀ s,
  Cancel ∉ schedule → cancelled (exec schedule s) = cancelled s.
Proof.
  induction schedule as [|a schedule IH]; intros s Hn; [done|].
  apply not_elem_of_cons in Hn as [Ha Hn].
  change (cancelled (exec schedule (exec1 s a)) = cancelled s). rewrite IH by done.
  destruct (exec1_cases s a) as [->|H]; [done|]. apply (cancelled_step s a); [congruence|done].
Qed.

Lemma numWorkers_step s a s' : step s a = Some s' → numWorkers s' = numWorkers s.
Proof. intros H. destruct a; step_cases H; done. Qed.

Lemma numWorkers_exec schedule : ∀ s, numWorkers (exec schedule s) = numWorkers s.
Proof.
  induction schedule as [|a schedule IH]; intros s; [done|].
  change (numWorkers (exec schedule (exec1 s a)) = numWorkers s). rewrite IH.
  destruct (exec1_cases s a) as [->|H]; [done|]. by eapply numWorkers_step.
Qed.

Lemma countDigitsParallel_returns ctx_done words n schedule r :
  countDigitsParallel ctx_done words n schedule = Returns r →
  ∃ s0, start ctx_done words n = Some s0 ∧ returned (exec schedule s0) = Some r.
Proof.
  unfold countDigitsParallel. destruct (start ctx_done words n) as [s0|]; [|done].
  cbn zeta. destruct (panicked _); [done|]. destruct (returned _) as [r'|] eqn:E; [|done].
  intros [= ->]. by exists s0.
Qed.

(** X19. With at least one worker and a context that is cancelled
    neither before the call nor during the schedule, what
    [countDigitsParallel] returns is, under every schedule of its
    goroutines, the map the sequential loop computes over all the words. *)
Theorem countDigitsParallel_counts_every_digit words n schedule r :
  (1 <= n)%Z → Cancel ∉ schedule →
  countDigitsParallel false words n schedule = Returns r →
  r = sequential words.
Proof.
  intros Hn Hc (s0 & Hs & Hr)%countDigitsParallel_returns.
  pose proof (good_exec words schedule s0 (good_start _ _ _ _ Hs)) as [_ _ _ Hok].
  destruct (Hok r Hr) as [_ H]. apply H.
  - rewrite cancelled_exec by done. unfold start in Hs.
    destruct (n <? 0)%Z; [done|]. by injection Hs as <-.
  - rewrite numWorkers_exec. unfold start in Hs.
    destruct (n <? 0)%Z; [done|]. injection Hs as <-. cbn. lia.
Qed.

Lemma countDigitsParallel_counts_every_digit_witness :
  ({[49 := 2; 50 := 1]}%Z : gmap rune Z) = sequential [w12; w1].
Proof.
  apply (countDigitsParallel_counts_every_digit [w12; w1] 1 one_worker_schedule).
  - lia.
  - intros H. unfold one_worker_schedule in H.
    repeat (apply elem_of_cons in H as [H|H]; [discriminate|]). by apply elem_of_nil in H.
  - vm_compute. reflexivity.
Defined.

(** X20. Whatever the schedule and whenever the context is cancelled,
    the map [countDigitsParallel] returns is the sequential count of some of
    the words, each taken at most once and counted completely: a word is
    never counted twice nor in part. *)
Theorem countDigitsParallel_counts_whole_words ctx_done words n schedule r :
  countDigitsParallel ctx_done words n schedule = Returns r →
  ∃ counted, counted ⊆+ words ∧ r = sequential counted.
Proof.
  intros (s0 & Hs & Hr)%countDigitsParallel_returns.
  pose proof (good_exec words schedule s0 (good_start _ _ _ _ Hs)) as [_ _ _ Hok].
  by destruct (Hok r Hr) as [H _].
Qed.

Lemma countDigitsParallel_counts_whole_words_witness :
  ∃ counted, counted ⊆+ [w12; w1] ∧ (∅ : gmap rune Z) = sequential counted.
Proof.
  apply (countDigitsParallel_counts_whole_words true [w12; w1] 1
           [ProducerSend; WorkerReceive 0; MergeCancelled]).
  vm_compute. reflexivity.
Defined.

(** X21. No goroutine of [countDigitsParallel] sends on a closed
    channel: once the channels are made, no schedule and no cancellation
    leads to a panic.  ([results] is closed only after every worker has
    left, and [tasks] by the only goroutine that sends on it.) *)
Theorem goroutines_never_send_on_a_closed_channel ctx_done words n schedule s0 :
  start ctx_done words n = Some s0 →
  panicked (exec schedule s0) = false.
Proof.
  intros Hs.
  by pose proof (good_exec words schedule s0 (good_start _ _ _ _ Hs)) as [[_ _ _ Hp _ _] _ _ _].
Qed.

Lemma not_exited_lt ws i w :
  ws !! i = Some w → exited w = 0 → sum_list (exited <$> ws) < length ws.
Proof.
  revert i. induction ws as [|x ws IH]; intros [|i] H He; simplify_eq/=.
  - pose proof (sum_exited_le ws). lia.
  - specialize (IH i H He). destruct x; cbn; lia.
Qed.

Lemma progress s :
  counting s → returned s = None →
  ∃ a s', a ≠ Cancel ∧ step s a = Some s'.
Proof.
  intros [Hw Hd Hc Hp Ht Hr] Hret.
  pose proof (sum_exited_le (workers s)) as Hle.
  destruct (results s) as [|m rest] eqn:Eres.
  2:{ eexists MergeReceive, _. split; [done|]. unfold step. by rewrite Hp, Hret, Eres. }
  destruct (results_closed s) eqn:Ecl.
  { eexists MergeClosed, _. split; [done|]. unfold step. by rewrite Hp, Hret, Eres, Ecl. }
  destruct (decide (waited s = numWorkers s)) as [Heq|Hne].
  { eexists CoordinatorClose, _. split; [done|]. unfold step.
    rewrite Hp, Ecl. by rewrite bool_decide_eq_true_2. }
  destruct (done s) as [|d] eqn:Ed.
  2:{ eexists CoordinatorReceive, _. split; [done|]. unfold step.
      rewrite Hp, Ed. rewrite bool_decide_eq_true_2 by lia. done. }
  destruct (some_not_exited (workers s)) as (i & w & Hi & Hnw); [lia|].
  destruct w as [|w m| |]; [| | |done].
  - destruct (tasks s) as [|w0 tk] eqn:Etk.
    + destruct (tasks_closed s) eqn:Etc.
      * eexists (WorkerTasksClosed i), _. split; [done|]. unfold step.
        by rewrite Hp, Hi, Etk, Etc.
      * destruct (words_left s) as [|w1 wl] eqn:Ewl.
        -- eexists ProducerDone, _. split; [done|]. unfold step. by rewrite Hp, Etc, Ewl.
        -- eexists ProducerSend, _. split; [done|]. unfold step.
           rewrite Hp, Etc, Ewl, Etk. rewrite bool_decide_eq_true_2 by (cbn; lia). done.
    + eexists (WorkerReceive i), _. split; [done|]. unfold step. by rewrite Hp, Hi, Etk.
  - eexists (WorkerSend i), _. split; [done|]. unfold step.
    rewrite Hp, Hi, Ecl, Eres. rewrite bool_decide_eq_true_2 by (cbn; lia). done.
  - eexists (WorkerSignal i), _. split; [done|]. unfold step.
    rewrite Hp, Hi, Ed. rewrite bool_decide_eq_true_2 by lia. done.
Qed.

(** X22. No deadlock: in every state a call reaches in which
    [mergeResults] has not returned, some goroutine can take a step, without
    a cancellation of the context being needed. *)
Theorem no_deadlock_before_return ctx_done words n schedule s0 :
  start ctx_done words n = Some s0 →
  returned (exec schedule s0) = None →
  ∃ a s', a ≠ Cancel ∧ step (exec schedule s0) a = Some s'.
Proof.
  intros Hs Hret. apply progress; [|done].
  by destruct (good_exec words schedule s0 (good_start _ _ _ _ Hs)).
Qed.

Lemma measure_step s a s' : step s a = Some s' → measure s' < measure s.
Proof.
  intros H. destruct a; step_cases H; unfold measure; cbn;
    rewrite ?length_app; cbn [length].
  all: repeat match goal with
    | E : workers ?s0 !! ?i = Some ?old |- context [<[?i := ?new]> (workers ?s0)] =>
        pose proof (sum_list_insert weight (workers s0) i old new E); 
        generalize dependent (sum_list (weight <$> <[i := new]> (workers s0))); intros
    end.
  all: cbn [weight] in *.
  all: try match goal with
    | E : _ && negb _ = true |- _ => apply andb_prop in E as [_ E%negb_true_iff]
    end.
  all: repeat match goal with
    | E : ?f ?s0 = _ |- context [?f ?s0] => rewrite E
    end.
  all: cbn [flag length]; try lia.
Qed.

Lemma measure_exec_strict schedule : ∀ s s',
  exec_strict schedule s = Some s' → length schedule + measure s' ≤ measure s.
Proof.
  induction schedule as [|a schedule IH]; intros s s' H; cbn in H.
  - injection H as <-. cbn. lia.
  - destruct (step s a) as [s1|] eqn:E; [|done]. cbn in H.
    apply IH in H. apply measure_step in E. cbn [length]. lia.
Qed.

Lemma sum_weight_replicate n : sum_list (weight <$> replicate n Selecting) = 3 * n.
Proof. induction n; [done|]. cbn [replicate fmap list_fmap sum_list weight sum_list_with]. cbn in *. lia. Qed.

(** X23. Every run is finite: the goroutines of a call with [n] workers
    on [words] take at most [4 * len(words) + 3 * n + 5] steps in all,
    cancellation included. *)
Theorem every_run_is_finite ctx_done words n schedule s0 s :
  start ctx_done words n = Some s0 →
  exec_strict schedule s0 = Some s →
  length schedule ≤ 4 * length words + 3 * Z.to_nat n + 5.
Proof.
  intros Hs H. apply measure_exec_strict in H.
  unfold start in Hs. destruct (n <? 0)%Z; [done|]. injection Hs as <-.
  unfold measure in H at 2. cbn in H. rewrite sum_weight_replicate in H.
  destruct ctx_done; cbn in H; lia.
Qed.

(** X24. The deferred send of a worker on [done] never blocks: whenever
    a worker has returned and its signal is due, [done] has room for it. *)
Theorem deferred_signal_never_blocks ctx_done words n schedule s0 i :
  start ctx_done words n = Some s0 →
  workers (exec schedule s0) !! i = Some Exiting →
  is_Some (step (exec schedule s0) (WorkerSignal i)).
Proof.
  intros Hs Hi.
  destruct (good_exec words schedule s0 (good_start _ _ _ _ Hs)) as [[Hw Hd Hc Hp Ht Hr] _ _ _].
  pose proof (not_exited_lt _ _ _ Hi eq_refl).
  unfold step. rewrite Hp, Hi. rewrite bool_decide_eq_true_2 by lia. done.
Qed.

Lemma unused_step s a s' :
  numWorkers s = 0 → counting s → unused s → step s a = Some s' → unused s'.
Proof.
  intros Hn [Hw Hd Hc Hp Ht Hr] (Hf & Hres & Hret) H.
  destruct a; step_cases H; unfold unused; cbn; try done.
  - case_bool_decide; [lia|done].
  - split_and!; try done. congruence.
  - split_and!; try done. congruence.
Qed.

Lemma unused_exec schedule : ∀ s,
  numWorkers s = 0 → counting s → unused s → unused (exec schedule s).
Proof.
  induction schedule as [|a schedule IH]; intros s Hn Hc Hu; [done|].
  change (unused (exec schedule (exec1 s a))).
  destruct (exec1_cases s a) as [->|H]; [by apply IH|]. apply IH.
  - by rewrite (numWorkers_step _ _ _ H).
  - by eapply counting_step.
  - by eapply unused_step.
Qed.

(** X25. With [numWorkers = 0] the words are not counted: the map
    returned is empty under every schedule, whatever the words. *)
Theorem zero_workers_count_nothing ctx_done words schedule r :
  countDigitsParallel ctx_done words 0 schedule = Returns r → r = ∅.
Proof.
  intros (s0 & Hs & Hr)%countDigitsParallel_returns.
  destruct (unused_exec schedule s0) as (_ & _ & H).
  - unfold start in Hs. by injection Hs as <-.
  - by destruct (good_start _ _ _ _ Hs).
  - unfold start in Hs. by injection Hs as <-.
  - by apply H.
Qed.

Lemma zero_workers_count_nothing_witness :
  countDigitsParallel false [w12; w1] 0 [CoordinatorClose; MergeClosed] = Returns ∅.
Proof.
  assert (H : ∃ r, countDigitsParallel false [w12; w1] 0 [CoordinatorClose; MergeClosed]
                   = Returns r) by (eexists; vm_compute; reflexivity).
  destruct H as [r H]. rewrite H. f_equal.
  exact (zero_workers_count_nothing false [w12; w1] [CoordinatorClose; MergeClosed] r H).
Defined.

(** X26. The merge of a map into [final] does not depend on the order
    in which [range] yields the entries of the map. *)
Theorem merge_any_iteration_order (final m : gmap rune Z) entries :
  entries ≡ₚ map_to_list m → merge_in_order final entries = merge final m.
Proof.
  intros Hp. apply map_eq. intros k. rewrite merge_lookup.
  assert (Hnd : NoDup entries.*1).
  { rewrite Hp. apply NoDup_fst_map_to_list. }
  rewrite merge_in_order_lookup by done.
  rewrite (list_to_map_proper (M := gmap rune) entries (map_to_list m)) by done.
  by rewrite list_to_map_to_list.
Qed.

(** X27. Counting each word into a map of its own, as the workers do,
    and merging these maps one after the other, as [mergeResults] does,
    gives the map of the sequential loop. *)
Theorem merged_word_counts_are_the_sequential_count words :
  foldl merge ∅ (count_word <$> words) = sequential words.
Proof.
  induction words as [|w words IH] using rev_ind; [done|].
  by rewrite fmap_app, foldl_app, IH, sequential_snoc.
Qed.

Lemma occ_not_digit k w : is_digit k = false → occ k w = 0.
Proof.
  intros Hk. induction w as [|r w IH]; [done|]. rewrite occ_cons, IH.
  destruct (is_digit r) eqn:E; [|done]. destruct (decide (r = k)); [congruence|done].
Qed.

Lemma occs_not_digit k ws : is_digit k = false → occs k ws = 0.
Proof.
  intros Hk. induction ws as [|w ws IH]; [done|]. by rewrite occs_cons, IH, occ_not_digit.
Qed.

(** X28. The count of a rune in the result is the number of times it
    occurs as a digit in the words, reduced to a 64-bit integer; a rune that
    does not occur as a digit is not a key. *)
Theorem sequential_counts_occurrences words k :
  sequential words !! k
  = match occs k words with
    | O => None
    | S _ => Some (wrap (Z.of_nat (occs k words)))
    end.
Proof. unfold sequential. by rewrite foldl_count_runes_lookup, lookup_empty. Qed.

(** X29. Only the runes ['0'] to ['9'] are keys of the result: letters,
    punctuation and non-ASCII runes are ignored. *)
Theorem only_digits_are_counted words k :
  is_digit k = false → sequential words !! k = None.
Proof.
  intros Hk. unfold sequential.
  by rewrite foldl_count_runes_lookup, lookup_empty, occs_not_digit.
Qed.

Lemma only_digits_are_counted_witness :
  sequential [[97; 49]; [50]]%Z !! 97%Z = None.
Proof. by apply only_digits_are_counted. Defined.

Lemma StronglySorted_le_lt (l : list Z) :
  StronglySorted Z.le l → NoDup l → StronglySorted Z.lt l.
Proof.
  induction 1 as [|x l Hs IH Hall]; intros Hnd; [constructor|].
  apply NoDup_cons in Hnd as [Hx Hnd]. constructor; [by apply IH|].
  rewrite Forall_forall in *. intros y Hy. specialize (Hall y Hy).
  assert (x ≠ y) by (by intros ->). lia.
Qed.

(** X30. [printSortedCounts] prints one line for each key of the map,
    with its count, in strictly ascending order of the keys, whatever the
    order in which [range] yields them. *)
Theorem printSortedCounts_ascending_and_complete (counts : gmap rune Z) keys_order :
  keys_order ≡ₚ (map_to_list counts).*1 →
  StronglySorted Z.lt (printSortedCounts counts keys_order).*1
  ∧ list_to_map (printSortedCounts counts keys_order) = counts.
Proof.
  intros Hp.
  assert (Hfst : (printSortedCounts counts keys_order).*1 = merge_sort Z.le keys_order).
  { unfold printSortedCounts. rewrite <- list_fmap_compose. apply list_fmap_id. }
  assert (Hnd : NoDup (merge_sort Z.le keys_order)).
  { rewrite merge_sort_Permutation, Hp. apply NoDup_fst_map_to_list. }
  rewrite Hfst. split.
  - apply StronglySorted_le_lt; [|done]. apply StronglySorted_merge_sort; apply _.
  - apply map_eq. intros k. apply option_eq. intros v.
    rewrite <- elem_of_list_to_map by (by rewrite Hfst).
    unfold printSortedCounts. rewrite list_elem_of_fmap. split.
    + intros (k' & [= <- ->] & Hk). rewrite merge_sort_Permutation, Hp in Hk.
      apply list_elem_of_fmap in Hk as ([k0 v0] & -> & Hkv%elem_of_map_to_list).
      cbn. unfold rune in *. by rewrite Hkv.
    + intros Hkv. exists k. split; [unfold rune in *; by rewrite Hkv|].
      rewrite merge_sort_Permutation, Hp. apply list_elem_of_fmap.
      exists (k, v). split; [done|]. by apply elem_of_map_to_list.
Qed.

Lemma no_deadlock_before_return_witness :
  ∃ a s', a ≠ Cancel ∧ step (exec [ProducerSend] two_words_start) a = Some s'.
Proof.
  apply (no_deadlock_before_return false [w12; w1] 1 [ProducerSend] two_words_start).
  - reflexivity.
  - vm_compute. reflexivity.
Defined.

Lemma every_run_is_finite_witness :
  length one_worker_schedule ≤ 4 * length [w12; w1] + 3 * Z.to_nat 1 + 5.
Proof.
  eapply (every_run_is_finite false [w12; w1] 1 one_worker_schedule two_words_start).
  - reflexivity.
  - vm_compute. reflexivity.
Defined.

Lemma deferred_signal_never_blocks_witness :
  is_Some (step (exec [Cancel; WorkerCancelled 0] two_words_start) (WorkerSignal 0)).
Proof.
  apply (deferred_signal_never_blocks false [w12; w1] 1 [Cancel; WorkerCancelled 0]
           two_words_start 0).
  - reflexivity.
  - vm_compute. reflexivity.
Defined.

Lemma goroutines_never_send_on_a_closed_channel_witness :
  panicked (exec one_worker_schedule two_words_start) = false.
Proof.
  by apply (goroutines_never_send_on_a_closed_channel false [w12; w1] 1 one_worker_schedule).
Defined.

Lemma merge_any_iteration_order_witness :
  merge_in_order {[49 := 1]}%Z [(50, 1); (49, 2)]%Z = merge {[49 := 1]}%Z two_counts.
Proof.
  apply (merge_any_iteration_order {[49 := 1]}%Z two_counts [(50, 1); (49, 2)]%Z).
  apply (bool_decide_unpack _). vm_compute. exact I.
Defined.

Lemma printSortedCounts_ascending_and_complete_witness :
  StronglySorted Z.lt (printSortedCounts two_counts [50; 49]%Z).*1
  ∧ list_to_map (printSortedCounts two_counts [50; 49]%Z) = two_counts.
Proof.
  apply (printSortedCounts_ascending_and_complete two_counts [50; 49]%Z).
  apply (bool_decide_unpack _). vm_compute. exact I.
Defined.

End ParallelDigitsProps.
